(** * Accelerometer-only sleep tracking (vanhees2015.py)

    A shallow embedding of [stimuli] (the resampler that puts the recorded
    accelerometer and label streams on one uniform time grid) and of
    [vanhees2015_modified] (the streaming sleep/wake classifier), with the
    properties of the design document proved or refuted on them.

    Numbers.  The resampler only adds, multiplies, divides, compares and
    takes a floor, so its float64 values are modelled as rationals ([Q]) and
    every definition evaluates.  The classifier needs a square root and an arc
    tangent; its finite float64 values are modelled as real numbers ([R]),
    and the non-finite values that a division by zero produces in numpy
    (infinity, NaN) are modelled explicitly.

    Rounding.  float64 arithmetic rounds every result.  Where the rounding
    only moves a value by less than one unit in its last place the model
    computes exactly.  Where it changes what the program does, the model
    rounds as float64 does (section [Float64Model]): the number of grid
    points [N] of [stimuli] is the floor of a rounded quotient, and the
    divisor of [ang] is zero as soon as the rounded squares of the two axes
    are, which happens for non-zero axes by underflow.  The comparisons of
    [stimuli] are made on the exact values; they agree with those of float64
    unless the two times compared are within a rounding error of each other.

    Arrays.  [np.genfromtxt] returns a two-dimensional array only for a file
    of two rows or more; the one-dimensional array it returns for a shorter
    file is modelled with the [IndexError] its indexing raises.  Every field
    of a file is a finite number; the sizes of arrays are not bounded. *)

From Stdlib Require Import Reals Lra List ZArith Lia QArith Qround Qreals Qpower Qabs Bool Arith.
From Stdlib Require Lqa.
Import ListNotations.

(** The sampling rate [fs = 10] Hz, a local constant of both functions. *)
Definition fs : nat := 10.

(* ================================================================== *)
(** * float64 arithmetic *)
(* ================================================================== *)

Section Float64Model.
Local Open Scope Q_scope.

Definition pow2 (k : Z) : Q := 2 ^ k.

(** The exponent of a non-zero [q]: the [e] with [2^e <= |q| < 2^(e+1)]. *)
Definition ilog2 (q : Q) : Z :=
  let e := (Z.log2 (Z.abs (Qnum q)) - Z.log2 (Zpos (Qden q)))%Z in
  if Qle_bool (pow2 e) (Qabs q) then e else (e - 1)%Z.

(** The integer nearest to [m], the even one of the two when [m] lies half
    way. *)
Definition round_half_even (m : Q) : Z :=
  let f := Qfloor m in
  match Qcompare (m - inject_Z f) (1 # 2) with
  | Lt => f
  | Gt => (f + 1)%Z
  | Eq => if Z.even f then f else (f + 1)%Z
  end.

(** The float64 nearest to [q] (round to nearest, ties to even): 53
    significant bits, and multiples of [2^-1074] below [2^-1022] (the
    subnormal numbers, with underflow to 0).  The exponent is not bounded
    from above here: this is the value of a field that [np.genfromtxt] has
    read, as long as the field is finite. *)
Definition nearest_float64 (q : Q) : Q :=
  if Qeq_bool q 0 then 0
  else
    let p := Z.max (ilog2 q - 52) (-1074) in
    let v := inject_Z (round_half_even (Qabs q / pow2 p)) * pow2 p in
    if Qle_bool 0 q then v else - v.

(** A float64 value.  The two zeros of float64 are not told apart. *)
Inductive float64 : Type :=
| Finite (q : Q)
| PosInf
| NegInf
| NotANumber.

Definition infinity (positive : bool) : float64 :=
  if positive then PosInf else NegInf.

(** The float64 result of an operation whose exact result is [q]: the nearest
    float64, an infinity when that is [2^1024] or more in magnitude. *)
Definition round64 (q : Q) : float64 :=
  let v := nearest_float64 q in
  if Qle_bool (pow2 1024) v then PosInf
  else if Qle_bool v (- pow2 1024) then NegInf
  else Finite v.

Definition f64_neg (x : float64) : float64 :=
  match x with
  | Finite a => Finite (- a)
  | PosInf => NegInf
  | NegInf => PosInf
  | NotANumber => NotANumber
  end.

Definition f64_add (x y : float64) : float64 :=
  match x, y with
  | Finite a, Finite b => round64 (a + b)
  | NotANumber, _ | _, NotANumber => NotANumber
  | PosInf, NegInf | NegInf, PosInf => NotANumber
  | PosInf, _ | _, PosInf => PosInf
  | NegInf, _ | _, NegInf => NegInf
  end.

Definition f64_sub (x y : float64) : float64 := f64_add x (f64_neg y).

Definition f64_mul (x y : float64) : float64 :=
  match x, y with
  | Finite a, Finite b => round64 (a * b)
  | NotANumber, _ | _, NotANumber => NotANumber
  | Finite a, PosInf | PosInf, Finite a =>
      if Qeq_bool a 0 then NotANumber else infinity (Qle_bool 0 a)
  | Finite a, NegInf | NegInf, Finite a =>
      if Qeq_bool a 0 then NotANumber else infinity (negb (Qle_bool 0 a))
  | PosInf, PosInf | NegInf, NegInf => PosInf
  | PosInf, NegInf | NegInf, PosInf => NegInf
  end.

(** Division as numpy does it on float64: a zero divisor gives an infinity,
    or NaN for [0/0], and no exception. *)
Definition f64_div (x y : float64) : float64 :=
  match x, y with
  | Finite a, Finite b =>
      if Qeq_bool b 0 then
        if Qeq_bool a 0 then NotANumber else infinity (Qle_bool 0 a)
      else round64 (a / b)
  | NotANumber, _ | _, NotANumber => NotANumber
  | Finite _, _ => Finite 0
  | PosInf, Finite b => infinity (Qle_bool 0 b)
  | NegInf, Finite b => infinity (negb (Qle_bool 0 b))
  | _, _ => NotANumber
  end.

Definition f64_is_zero (x : float64) : bool :=
  match x with
  | Finite a => Qeq_bool a 0
  | _ => false
  end.

End Float64Model.

(* ================================================================== *)
(** * The resampler: data and operations *)
(* ================================================================== *)

Section ResamplerModel.
Local Open Scope Q_scope.

(** The exceptions that the indexing, the numpy calls and [int] raise in
    [stimuli]. *)
Inductive exn : Type :=
| IndexError
| ValueError
| OverflowError.

(** A computation that returns a value or raises. *)
Definition result (A : Type) : Type := (exn + A)%type.

Definition bind {A B : Type} (c : result A) (k : A -> result B) : result B :=
  match c with
  | inl e => inl e
  | inr a => k a
  end.

Local Notation "x <- c ;; k" := (bind c (fun x => k))
  (at level 61, c at next level, right associativity).

(** A row of the accelerometer file: time, x, y, z. *)
Record accel_row : Type := mk_accel { a_t : Q; a_x : Q; a_y : Q; a_z : Q }.

(** A row of the label file: time, sleep stage. *)
Record truth_row : Type := mk_truth { l_t : Q; l_label : Q }.

(** A row of the array [stimuli] returns: time, x, y, z, label. *)
Record stim_row : Type := mk_stim {
  r_t : Q; r_ax : Q; r_ay : Q; r_az : Q; r_truth : Q }.

Definition Qlt_bool (x y : Q) : bool := negb (Qle_bool y x).

(** [l[0]] and [l[-1]]. *)
Definition index_first {A : Type} (l : list A) : result A :=
  match l with
  | [] => inl IndexError
  | x :: _ => inr x
  end.

Fixpoint index_last {A : Type} (l : list A) : result A :=
  match l with
  | [] => inl IndexError
  | [x] => inr x
  | _ :: l' => index_last l'
  end.

Definition fs_hz : Q := inject_Z (Z.of_nat fs).

(** [np.linspace(start, stop, num)] with its default [endpoint=True]: [num]
    points from [start] to [stop], both included; a negative [num] raises. *)
Definition linspace (start stop : Q) (num : Z) : result (list Q) :=
  if (num <? 0)%Z then inl ValueError
  else
    let div := (num - 1)%Z in
    let delta := stop - start in
    let step := if (0 <? div)%Z then delta / inject_Z div else delta in
    inr (map (fun i => inject_Z (Z.of_nat i) * step + start)
             (seq 0 (Z.to_nat num))).

(** [np.interp] at one point [x] not left of the first sample point: the
    segment is found from the left and the value interpolated on it; right
    of the last sample point the last value is returned. *)
Fixpoint interp_from (x : Q) (xp fp : list Q) : Q :=
  match xp, fp with
  | x0 :: ((x1 :: _) as xp'), y0 :: ((y1 :: _) as fp') =>
      if Qle_bool x1 x then interp_from x xp' fp'
      else (y1 - y0) / (x1 - x0) * (x - x0) + y0
  | _, y0 :: _ => y0
  | _, [] => 0
  end.

(** [np.interp(x, xp, fp)] at one point, for increasing sample points [xp]
    (numpy does not define the result otherwise): piecewise linear, clamped
    to the first and last value outside the range of [xp]. *)
Definition np_interp1 (x : Q) (xp fp : list Q) : Q :=
  match xp, fp with
  | x0 :: _, y0 :: _ => if Qlt_bool x x0 then y0 else interp_from x xp fp
  | _, _ => 0
  end.

Definition np_interp (xs xp fp : list Q) : list Q :=
  map (fun x => np_interp1 x xp fp) xs.

(** [truth[truth[:, 0] < ti][-1][1]]: the label of the last row of [truth]
    whose time is below [ti]; raises when there is none. *)
Definition held_label (truth : list truth_row) (ti : Q) : result Q :=
  r <- index_last (filter (fun r => Qlt_bool (l_t r) ti) truth) ;;
  inr (l_label r).

(** The loop [for i in range(1, N)] over the grid points after the first. *)
Fixpoint hold_loop (truth : list truth_row) (t : list Q) : result (list Q) :=
  match t with
  | [] => inr []
  | ti :: t' =>
      l <- held_label truth ti ;;
      ls <- hold_loop truth t' ;;
      inr (l :: ls)
  end.

(** The columns of [ret], filled from five arrays of the same length. *)
Fixpoint columns (t x y z l : list Q) : list stim_row :=
  match t, x, y, z, l with
  | t0 :: t', x0 :: x', y0 :: y', z0 :: z', l0 :: l' =>
      mk_stim t0 x0 y0 z0 l0 :: columns t' x' y' z' l'
  | _, _, _, _, _ => []
  end.

(** The rows of the accelerometer file at or after the start of the test:
    [accel[accel[:, 0] >= 0]]. *)
Definition trim (accel : list accel_row) : list accel_row :=
  filter (fun r => Qle_bool 0 (a_t r)) accel.

(** The array that [np.genfromtxt] returns for a text file with the rows
    [file]: two-dimensional, one row per line, when the file has two rows or
    more; for a file of one row the one-dimensional array of its fields, for
    an empty file the empty one-dimensional array. *)
Inductive ndarray (A : Type) : Type :=
| Array1D
| Array2D (rows : list A).

Arguments Array1D {A}.
Arguments Array2D {A} rows.

Definition genfromtxt {A : Type} (file : list A) : ndarray A :=
  match file with
  | _ :: _ :: _ => Array2D file
  | _ => Array1D
  end.

(** Indexing with two indices ([a[:, 0]], [a[0, 1]]): a one-dimensional
    array has too many indices and raises. *)
Definition rows_of {A : Type} (a : ndarray A) : result (list A) :=
  match a with
  | Array2D rows => inr rows
  | Array1D => inl IndexError
  end.

(** [N = int(np.floor(delta_t / (1/fs)))] with [delta_t = t[-1] - t[0]], as
    float64 computes it: the difference, [1/fs] and the quotient are each
    rounded.  The entries of [t] are float64 values: a rational that is not
    one stands for the float64 nearest to it, which is what [np.genfromtxt]
    makes of a decimal field.  [int] raises on an infinity and on NaN. *)
Definition grid_size (t_first t_last : Q) : result Z :=
  let delta_t :=
    f64_sub (Finite (nearest_float64 t_last)) (Finite (nearest_float64 t_first)) in
  match f64_div delta_t (f64_div (Finite 1) (Finite fs_hz)) with
  | Finite q => inr (Qfloor q)
  | PosInf | NegInf => inl OverflowError
  | NotANumber => inl ValueError
  end.

(** [stimuli], from the rows of the two files it reads. *)
Definition stimuli (accel_file : list accel_row) (truth_file : list truth_row)
  : result (list stim_row) :=
  let accel := genfromtxt accel_file in
  let truth := genfromtxt truth_file in
  accel <- rows_of accel ;;
  let accel := trim accel in
  let t := map a_t accel in
  t_last <- index_last t ;;
  t_first <- index_first t ;;
  N <- grid_size t_first t_last ;;
  ti <- linspace t_first (t_first + inject_Z N / fs_hz) N ;;
  let axi := np_interp ti t (map a_x accel) in
  let ayi := np_interp ti t (map a_y accel) in
  let azi := np_interp ti t (map a_z accel) in
  truth <- rows_of truth ;;
  truth0 <- index_first truth ;;
  match ti with
  | [] => inl IndexError
  | _ :: ti' =>
      held <- hold_loop truth ti' ;;
      inr (columns ti axi ayi azi (l_label truth0 :: held))
  end.

End ResamplerModel.

(* ================================================================== *)
(** * The classifier: data and operations *)
(* ================================================================== *)

Section ClassifierModel.
Local Open Scope R_scope.

(** A float64 value held by a numpy array of the classifier: a finite number
    or NaN. *)
Inductive npfloat : Type :=
| Num (r : R)
| NaN.

(** The result of numpy's float division: numpy does not raise on a zero
    divisor, it warns and returns an infinity or NaN. *)
Inductive quotient : Type :=
| Quot (q : R)
| Inf (positive : bool)
| Undefined.

Definition true_divide (x y : R) : quotient :=
  if Req_dec_T y 0 then
    if Rlt_dec 0 x then Inf true
    else if Rlt_dec x 0 then Inf false
    else Undefined
  else Quot (x / y).

Definition arctan (q : quotient) : npfloat :=
  match q with
  | Quot q => Num (atan q)
  | Inf true => Num (PI / 2)
  | Inf false => Num (- PI / 2)
  | Undefined => NaN
  end.

(** [ema(x, y, eta)]: exponential moving average. *)
Definition ema (x y eta : R) : R := y + eta * (x - y).

(** [np.sign]. *)
Definition sign (x : R) : R :=
  if Rlt_dec 0 x then 1 else if Rlt_dec x 0 then -1 else 0.

(** [emm(x, y, eta)]: exponential moving "median" (defined, not called). *)
Definition emm (x y eta : R) : R := y + eta * sign (x - y).

Definition vec3 : Type := (R * R * R)%type.

(** [ema] on the three-element arrays it is called with. *)
Definition ema_vec (x y : vec3) (eta : R) : vec3 :=
  let '(x0, x1, x2) := x in
  let '(y0, y1, y2) := y in
  (ema x0 y0 eta, ema x1 y1 eta, ema x2 y2 eta).

(** The divisor of [ang]: [np.sqrt(accel[0]**2 + accel[1]**2)]. *)
Definition ang_divisor (accel : vec3) : R :=
  let '(a0, a1, _) := accel in sqrt (a0 ^ 2 + a1 ^ 2).

(** [ang(accel)]: arm angle estimate, in degrees, over the real numbers.
    In float64 the divisor is zero on more arguments than here (see
    [ang_divisor_zero64]), and the result can reach 90 and -90 off the
    z axis. *)
Definition ang (accel : vec3) : npfloat :=
  let '(_, _, a2) := accel in
  match arctan (true_divide a2 (ang_divisor accel)) with
  | Num a => Num (a * 180 / PI)
  | NaN => NaN
  end.

(** Arithmetic of numpy on values that may be NaN. *)
Definition np_add (a b : npfloat) : npfloat :=
  match a, b with Num x, Num y => Num (x + y) | _, _ => NaN end.

Definition np_sub (a b : npfloat) : npfloat :=
  match a, b with Num x, Num y => Num (x - y) | _, _ => NaN end.

Definition np_abs (a : npfloat) : npfloat :=
  match a with Num x => Num (Rabs x) | NaN => NaN end.

Definition np_sum (h : list npfloat) : npfloat := fold_right np_add (Num 0) h.

(** [np.mean]: the sum over every slot of the array divided by its size. *)
Definition np_mean (h : list npfloat) : npfloat :=
  match h with
  | [] => NaN
  | _ => match np_sum h with
         | Num s => Num (s / INR (length h))
         | NaN => NaN
         end
  end.

(** [a > thr] on one element; a comparison with NaN is false. *)
Definition np_gt (thr : R) (a : npfloat) : bool :=
  match a with
  | Num x => if Rgt_dec x thr then true else false
  | NaN => false
  end.

(** [np.any(h > thr)]. *)
Definition np_any_gt (h : list npfloat) (thr : R) : bool := existsb (np_gt thr) h.

(** [h[1:] = h[:-1]; h[0] = x]: shift the array by one slot and store [x] in
    front; the size of the array does not change.  (The arrays of the
    classifier have the fixed sizes 50 and 60; on an array of size 0 Python
    would raise at [h[0] = x].) *)
Definition shift_in {A : Type} (x : A) (h : list A) : list A :=
  match h with
  | [] => []
  | _ :: _ => x :: removelast h
  end.

(** A row [stim[i]] of the stimulus: time, acceleration, reference label. *)
Record sample : Type := mk_sample {
  s_t : R; s_ax : R; s_ay : R; s_az : R; s_truth : R }.

(** [stim[i, 1:4]]. *)
Definition s_accel (s : sample) : vec3 := (s_ax s, s_ay s, s_az s).

(** A row of [ret]: [[time, state]], state 0 = awake, 1 = asleep. *)
Record event : Type := mk_event { ev_t : R; ev_state : Z }.

(** A row of [dbg] (seven columns). *)
Record dbg_row : Type := mk_dbg {
  dbg_t : npfloat;
  dbg_avg : npfloat * npfloat * npfloat;
  dbg_angle : npfloat;
  dbg_mean : npfloat;
  dbg_change : npfloat }.

Definition nan_row : dbg_row := mk_dbg NaN (NaN, NaN, NaN) NaN NaN NaN.

(** Assignment to columns of row [i] of [dbg]: [f] is applied to that row.
    The loop keeps [i] below the number of rows. *)
Fixpoint upd_row (i : nat) (f : dbg_row -> dbg_row) (d : list dbg_row) : list dbg_row :=
  match d, i with
  | [], _ => []
  | r :: d', O => f r :: d'
  | r :: d', S i' => r :: upd_row i' f d'
  end.

(** The local variables of [vanhees2015_modified] that the loop updates. *)
Record locals : Type := mk_locals {
  accel_avgs : vec3;
  arm_angle_hist : list npfloat;
  arm_angle_mean_d : option npfloat;
  arm_angle_change_hist : list npfloat;
  ret : list event;
  dbg : list dbg_row }.

Definition eta : R := 5 / 1000.
Definition seconds_per_update : nat := 5.
Definition classification_hist_size : nat := 60.
Definition arm_angle_threshold : R := 5.

(** The values before the loop; [n] is [len(stim)]. *)
Definition init_locals (n : nat) : locals :=
  {| accel_avgs := (0, 0, 0);
     arm_angle_hist := repeat (Num 0) (fs * seconds_per_update);
     arm_angle_mean_d := None;
     arm_angle_change_hist := repeat (Num 0) classification_hist_size;
     ret := [mk_event 0 0];
     dbg := repeat nan_row n |}.

Definition new_state_of (change_hist : list npfloat) : Z :=
  if np_any_gt change_hist arm_angle_threshold then 0%Z else 1%Z.

(** The body of [for i in range(len(stim))], on row [row = stim[i]].  The
    assignments to columns of [dbg[i]] are gathered into one update of that
    row. *)
Definition loop_body (row : sample) (i : nat) (st : locals) : locals :=
  let avgs := ema_vec (s_accel row) (accel_avgs st) eta in
  let hist := shift_in (ang avgs) (arm_angle_hist st) in
  let log_sample (r : dbg_row) :=
    let '(a0, a1, a2) := avgs in
    mk_dbg (Num (s_t row)) (Num a0, Num a1, Num a2) (hd NaN hist)
           (dbg_mean r) (dbg_change r) in
  if (i mod (fs * seconds_per_update) =? 0)%nat then
    let arm_angle_mean := np_mean hist in
    let log_mean (r : dbg_row) :=
      mk_dbg (dbg_t r) (dbg_avg r) (dbg_angle r) arm_angle_mean (dbg_change r) in
    match arm_angle_mean_d st with
    | Some mean_d =>
        let arm_angle_change := np_abs (np_sub arm_angle_mean mean_d) in
        let log_change (r : dbg_row) :=
          mk_dbg (dbg_t r) (dbg_avg r) (dbg_angle r) (dbg_mean r) arm_angle_change in
        let change_hist := shift_in arm_angle_change (arm_angle_change_hist st) in
        {| accel_avgs := avgs;
           arm_angle_hist := hist;
           arm_angle_mean_d := Some arm_angle_mean;
           arm_angle_change_hist := change_hist;
           ret := ret st ++ [mk_event (s_t row) (new_state_of change_hist)];
           dbg := upd_row i (fun r => log_change (log_mean (log_sample r))) (dbg st) |}
    | None =>
        {| accel_avgs := avgs;
           arm_angle_hist := hist;
           arm_angle_mean_d := Some arm_angle_mean;
           arm_angle_change_hist := arm_angle_change_hist st;
           ret := ret st;
           dbg := upd_row i (fun r => log_mean (log_sample r)) (dbg st) |}
    end
  else
    {| accel_avgs := avgs;
       arm_angle_hist := hist;
       arm_angle_mean_d := arm_angle_mean_d st;
       arm_angle_change_hist := arm_angle_change_hist st;
       ret := ret st;
       dbg := upd_row i log_sample (dbg st) |}.

(** The loop over the rows [rows = stim[i:]], from index [i] on. *)
Fixpoint for_loop (rows : list sample) (i : nat) (st : locals) : locals :=
  match rows with
  | [] => st
  | row :: rows' => for_loop rows' (S i) (loop_body row i st)
  end.

(** [vanhees2015_modified(stim)], returning [(ret, dbg)]. *)
Definition vanhees2015_modified (stim : list sample) : list event * list dbg_row :=
  let st := for_loop stim 0 (init_locals (length stim)) in
  (ret st, dbg st).

(** The locals after the first [n] iterations of the loop on [stim]. *)
Definition locals_after (stim : list sample) (n : nat) : locals :=
  for_loop (firstn n stim) 0 (init_locals (length stim)).

(** The two steps of the script: [stim = stimuli(...)], then
    [vanhees2015_modified(stim)] on the rows it returned. *)
Definition sample_of_row (r : stim_row) : sample :=
  mk_sample (Q2R (r_t r)) (Q2R (r_ax r)) (Q2R (r_ay r)) (Q2R (r_az r))
            (Q2R (r_truth r)).

Definition classify_recording (accel : list accel_row) (truth : list truth_row)
  : result (list event * list dbg_row) :=
  match stimuli accel truth with
  | inl e => inl e
  | inr stim => inr (vanhees2015_modified (map sample_of_row stim))
  end.

End ClassifierModel.

(* ================================================================== *)
(** * The classifier in float64: where rounding changes the outcome *)
(* ================================================================== *)

Section ClassifierFloat64.
Local Open Scope Q_scope.

(** [eta = 0.005], the float64 nearest to it. *)
Definition eta64 : float64 := round64 (5 # 1000).

(** [ema(x, y, eta)] on one axis, every operation rounded. *)
Definition ema64 (x y step : float64) : float64 :=
  f64_add y (f64_mul step (f64_sub x y)).

(** [accel[0]**2 + accel[1]**2], the argument of the square root in [ang],
    every operation rounded. *)
Definition ang_sum_squares64 (ax ay : float64) : float64 :=
  f64_add (f64_mul ax ax) (f64_mul ay ay).

(** The divisor of [ang] is zero: [np.sqrt] returns 0 on 0 and on nothing
    else. *)
Definition ang_divisor_zero64 (ax ay : float64) : bool :=
  f64_is_zero (ang_sum_squares64 ax ay).

End ClassifierFloat64.

(* ================================================================== *)
(** * The script: what it computes besides the two calls *)
(* ================================================================== *)

Section ScriptModel.
Local Open Scope Q_scope.

(** [truth_binary] of the script: a copy of the label column in which every
    value above 1 is replaced by 1
    ([truth_binary[truth_binary > 1] = 1]). *)
Definition truth_binary (stim : list stim_row) : list Q :=
  map (fun r => if Qlt_bool 1 (r_truth r) then 1 else r_truth r) stim.

End ScriptModel.

(* ================================================================== *)
(** * Observations of a run, used to state the properties *)
(* ================================================================== *)

Section ResamplerObservations.
Local Open Scope Q_scope.

(** The trimmed time axis and its two ends ([t[0]], [t[-1]]). *)
Definition time_axis (accel : list accel_row) : list Q := map a_t (trim accel).
Definition t_first_of (accel : list accel_row) : Q := hd 0 (time_axis accel).
Definition t_last_of (accel : list accel_row) : Q := last (time_axis accel) 0.

(** The number of grid points [N] that [stimuli] computes (0 when [int]
    raises). *)
Definition N_of (accel : list accel_row) : Z :=
  match grid_size (t_first_of accel) (t_last_of accel) with
  | inr N => N
  | inl _ => 0%Z
  end.

(** The new time axis [ti] that [stimuli] computes (empty when
    [np.linspace] raises). *)
Definition time_grid (accel : list accel_row) : list Q :=
  let t0 := t_first_of accel in
  let N := N_of accel in
  match linspace t0 (t0 + inject_Z N / fs_hz) N with
  | inr ti => ti
  | inl _ => []
  end.

(** Row [j] of [truth] is the last one whose time is below [ti]. *)
Definition last_before (truth : list truth_row) (ti : Q) (j : nat) (r : truth_row) : Prop :=
  nth_error truth j = Some r /\ l_t r < ti /\
  forall j' r', (j < j')%nat -> nth_error truth j' = Some r' -> ~ l_t r' < ti.

(** No row of [truth] has a time below [ti]. *)
Definition none_before (truth : list truth_row) (ti : Q) : Prop :=
  forall r, In r truth -> ~ l_t r < ti.

(** The rows of the label stream are in time order. *)
Definition sorted_by_time (truth : list truth_row) : Prop :=
  forall j1 j2 r1 r2, (j1 <= j2)%nat ->
    nth_error truth j1 = Some r1 -> nth_error truth j2 = Some r2 -> l_t r1 <= l_t r2.

End ResamplerObservations.

Section ClassifierObservations.
Local Open Scope R_scope.

(** The number of samples between two window boundaries. *)
Definition window_len : nat := fs * seconds_per_update.

(** The arm angles logged for the first [n] samples ([dbg[:n, 4]]), oldest
    first. *)
Definition logged_angles (d : list dbg_row) (n : nat) : list npfloat :=
  map dbg_angle (firstn n d).

(** The changes in arm angle logged at the boundaries [window_len * k],
    [k = 1 .. m] ([dbg[window_len*k, 6]]), oldest first. *)
Definition logged_changes (d : list dbg_row) (m : nat) : list npfloat :=
  map (fun k => dbg_change (nth (window_len * k) d nan_row)) (seq 1 m).

(** The number of classifications made once [n] samples are ingested. *)
Definition events_after (n : nat) : nat := (n - 1) / window_len.

(** An array of [size] slots after the values [pushed] (oldest first) have
    been shifted into an array of zeros. *)
Definition slots (size : nat) (pushed : list npfloat) : list npfloat :=
  firstn size (rev pushed ++ repeat (Num 0) size).

(** A logged change is above, or below, the threshold. *)
Definition exceeds (thr : R) (c : npfloat) : Prop :=
  match c with Num x => x > thr | NaN => False end.

Definition below (thr : R) (c : npfloat) : Prop :=
  match c with Num x => x < thr | NaN => False end.

(** The changes in arm angle and the states of the events that a whole run
    on [stim] has produced, oldest first. *)
Definition window_changes (stim : list sample) : list npfloat :=
  logged_changes (snd (vanhees2015_modified stim)) (events_after (length stim)).

Definition emitted_states (stim : list sample) : list Z :=
  map ev_state (tl (fst (vanhees2015_modified stim))).

(** The default row for reading [stim] by index. *)
Definition no_sample : sample := mk_sample 0 0 0 0 0.

(** The event emitted at the boundary [window_len * k]: the time of that
    sample, and the state computed from the changes logged up to it. *)
Definition event_at (stim : list sample) (d : list dbg_row) (k : nat) : event :=
  mk_event (s_t (nth (window_len * k) stim no_sample))
           (new_state_of (slots classification_hist_size (logged_changes d k))).

(** What the loop maintains: the locals [st] after [n] iterations on [stim],
    read against the rows of [dbg] written so far. *)
Record trace_inv (stim : list sample) (n : nat) (st : locals) : Prop := {
  inv_dbg_len : length (dbg st) = length stim;
  inv_hist :
    arm_angle_hist st = slots window_len (logged_angles (dbg st) n);
  inv_changes :
    arm_angle_change_hist st =
    slots classification_hist_size (logged_changes (dbg st) (events_after n));
  inv_mean_d :
    arm_angle_mean_d st =
    match n with
    | O => None
    | S n' => Some (dbg_mean (nth (window_len * (n' / window_len)) (dbg st) nan_row))
    end;
  inv_ret :
    ret st = mk_event 0 0 :: map (event_at stim (dbg st)) (seq 1 (events_after n));
  inv_mean : forall k, (window_len * k < n)%nat ->
    dbg_mean (nth (window_len * k) (dbg st) nan_row) =
    np_mean (slots window_len (logged_angles (dbg st) (S (window_len * k))));
  inv_change : forall k, (window_len * S k < n)%nat ->
    dbg_change (nth (window_len * S k) (dbg st) nan_row) =
    np_abs (np_sub (dbg_mean (nth (window_len * S k) (dbg st) nan_row))
                   (dbg_mean (nth (window_len * k) (dbg st) nan_row)))
}.

End ClassifierObservations.

Section ResamplerFurtherObservations.
Local Open Scope Q_scope.

(** The trimmed time axis is strictly increasing (what [np.interp] asks of
    its sample points). *)
Definition increasing (t : list Q) : Prop :=
  forall i j, (i < j < length t)%nat -> nth i t 0 < nth j t 0.

End ResamplerFurtherObservations.

Section ClassifierFurtherObservations.
Local Open Scope R_scope.

(** The acceleration [a] measured in another unit: every axis times [k]. *)
Definition scale_vec (k : R) (a : vec3) : vec3 :=
  let '(a0, a1, a2) := a in (k * a0, k * a1, k * a2).

(** The acceleration [a] seen by a sensor that sits otherwise in its plane:
    its x and y axes swapped ([swap]) and each mirrored or not ([flip_x],
    [flip_y]).  These are the eight placements that map the pair of axes
    onto itself, the quarter turns about z among them. *)
Definition remount (swap flip_x flip_y : bool) (a : vec3) : vec3 :=
  let '(a0, a1, a2) := a in
  let b0 := if swap then a1 else a0 in
  let b1 := if swap then a0 else a1 in
  (if flip_x then - b0 else b0, if flip_y then - b1 else b1, a2).

(** Two sets of locals that decide alike: the smoothed acceleration of the
    second is the image of that of the first under [T]; the two history
    arrays, the previous window mean and the states of the events agree. *)
Definition same_decisions (T : vec3 -> vec3) (st1 st2 : locals) : Prop :=
  accel_avgs st2 = T (accel_avgs st1) /\
  arm_angle_hist st2 = arm_angle_hist st1 /\
  arm_angle_mean_d st2 = arm_angle_mean_d st1 /\
  arm_angle_change_hist st2 = arm_angle_change_hist st1 /\
  map ev_state (ret st2) = map ev_state (ret st1).

(** Two sets of locals that agree on everything but [dbg]. *)
Definition same_but_dbg (st1 st2 : locals) : Prop :=
  accel_avgs st2 = accel_avgs st1 /\
  arm_angle_hist st2 = arm_angle_hist st1 /\
  arm_angle_mean_d st2 = arm_angle_mean_d st1 /\
  arm_angle_change_hist st2 = arm_angle_change_hist st1 /\
  ret st2 = ret st1.

(** The stimulus with every acceleration replaced by its image under [T]. *)
Definition map_accel (T : vec3 -> vec3) (s : sample) : sample :=
  let '(a0, a1, a2) := T (s_accel s) in
  mk_sample (s_t s) a0 a1 a2 (s_truth s).

End ClassifierFurtherObservations.

(* ================================================================== *)
(** * Inputs on which the properties are tried *)
(* ================================================================== *)

Section ResamplerInputs.
Local Open Scope Q_scope.

(** Three accelerometer rows at 0, 0.125 and 0.25 s, two label rows. *)
Definition drift_accel : list accel_row :=
  [mk_accel 0 0 0 1; mk_accel (1 # 8) 0 0 1; mk_accel (1 # 4) 0 0 1].
Definition drift_truth : list truth_row := [mk_truth 0 0; mk_truth 1 1].




(** Label rows from before the start of the recordings above. *)
Definition early_truth : list truth_row := [mk_truth (-2) 0; mk_truth (-1) 1].

(** Two accelerometer rows at the float64 values nearest to 11.31 and 30.41;
    [overrun_out] is what [stimuli] returns for them. *)
Definition overrun_accel : list accel_row :=
  [mk_accel (nearest_float64 (1131 # 100)) 0 0 1;
   mk_accel (nearest_float64 (3041 # 100)) 1 0 1].
Definition overrun_out : list stim_row :=
  Eval vm_compute in
    match stimuli overrun_accel early_truth with inr out => out | inl _ => [] end.


(** Two accelerometer rows 0.5625 s apart, a label row before the start and
    one at 0.3 s; [hold_out] is what [stimuli] returns for them. *)
Definition hold_accel : list accel_row := [mk_accel 0 0 0 1; mk_accel (9 # 16) 1 0 1].
Definition hold_truth : list truth_row := [mk_truth (-1) 7; mk_truth (3 # 10) 2].
Definition hold_out : list stim_row :=
  Eval vm_compute in
    match stimuli hold_accel hold_truth with inr out => out | inl _ => [] end.

End ResamplerInputs.

Section ClassifierInputs.
Local Open Scope R_scope.

(** A stimulus of one sample with the acceleration (1, 0, 1). *)
Definition one_sample_stim : list sample := [mk_sample 0 1 0 1 0].

(** A sample of an arm at rest pointing straight up (1 g on the z axis), and
    a stimulus of 51 of them. *)
Definition upright : sample := mk_sample 0 0 0 1 0.
Definition still_upright : list sample := repeat upright 51.

End ClassifierInputs.

(* ================================================================== *)
(** * float64 arithmetic: lemmas *)
(* ================================================================== *)

Section Float64Lemmas.
Local Open Scope Q_scope.

Lemma pow2_pos (k : Z) : 0 < pow2 k.
Proof. apply Qpower_0_lt. reflexivity. Qed.

Lemma pow2_le (a b : Z) : (a <= b)%Z -> pow2 a <= pow2 b.
Proof. intro H. apply Qpower_le_compat_l; [exact H|discriminate]. Qed.

Lemma pow2_lt (a b : Z) : (a < b)%Z -> pow2 a < pow2 b.
Proof. intro H. apply Qpower_lt_compat_l; [exact H|reflexivity]. Qed.

Lemma pow2_le_inv (a b : Z) : pow2 a <= pow2 b -> (a <= b)%Z.
Proof. intro H. apply (Qpower_le_compat_l_inv 2); [exact H|reflexivity]. Qed.

Lemma pow2_nonneg_Z (a : Z) : (0 <= a)%Z -> pow2 a == inject_Z (2 ^ a).
Proof. intro H. unfold pow2. rewrite Zpower_Qpower by exact H. reflexivity. Qed.

(** The exponent that [ilog2] returns is not above that of [q]. *)
Lemma ilog2_lower (q : Q) : ~ q == 0 -> pow2 (ilog2 q) <= Qabs q.
Proof.
  intro Hq. unfold ilog2.
  set (n := Z.abs (Qnum q)). set (d := Zpos (Qden q)).
  destruct (Qle_bool (pow2 (Z.log2 n - Z.log2 d)) (Qabs q)) eqn:E.
  - apply Qle_bool_iff. exact E.
  - clear E.
    assert (Hn : (0 < n)%Z).
    { unfold n. destruct q as [qn qd]. unfold Qeq in Hq. simpl in *. lia. }
    assert (Hd : (0 < d)%Z) by (unfold d; lia).
    pose proof (Z.log2_spec n Hn) as [Hn1 _].
    pose proof (Z.log2_spec d Hd) as [_ Hd2].
    pose proof (Z.log2_nonneg n) as Hln. pose proof (Z.log2_nonneg d) as Hld.
    replace (Z.log2 n - Z.log2 d - 1)%Z with (Z.log2 n - Z.succ (Z.log2 d))%Z by lia.
    unfold pow2. rewrite Qpower_minus by discriminate.
    fold (pow2 (Z.log2 n)). fold (pow2 (Z.succ (Z.log2 d))).
    rewrite !pow2_nonneg_Z by lia.
    apply Qle_shift_div_r.
    + change 0 with (inject_Z 0). rewrite <- Zlt_Qlt. lia.
    + assert (Ea : Qabs q == inject_Z n / inject_Z d).
      { destruct q as [qn qd]. unfold n, d. simpl Qnum. simpl Qden.
        rewrite (Qmake_Qdiv (Z.abs qn) qd). reflexivity. }
      rewrite Ea.
      assert (H0 : 0 < inject_Z d) by (change 0 with (inject_Z 0); rewrite <- Zlt_Qlt; lia).
      apply Qle_trans with (inject_Z n).
      * rewrite <- Zle_Qle. exact Hn1.
      * assert (E1 : inject_Z n == inject_Z n / inject_Z d * inject_Z d).
        { field. intro Hc. rewrite Hc in H0. discriminate. }
        rewrite E1 at 1. apply Qmult_le_l.
        -- apply Qlt_shift_div_l; [exact H0|]. rewrite Qmult_0_l.
           change 0 with (inject_Z 0). rewrite <- Zlt_Qlt. exact Hn.
        -- rewrite <- Zle_Qle. lia.
Qed.

Lemma Qabs_nonneg_eq (q : Q) : 0 <= q -> Qabs q = q.
Proof.
  destruct q as [n d]. unfold Qle, Qabs. simpl. intro H.
  rewrite Z.abs_eq by lia. reflexivity.
Qed.

Lemma Qfloor_small (m : Q) : 0 <= m -> m < 1 -> Qfloor m = 0%Z.
Proof.
  intros H0 H1. pose proof (Qfloor_le m) as Hl. pose proof (Qlt_floor m) as Hu.
  assert (A : (Qfloor m < 1)%Z).
  { rewrite Zlt_Qlt. apply Qle_lt_trans with m; assumption. }
  assert (B : (0 < Qfloor m + 1)%Z).
  { rewrite Zlt_Qlt. apply Qle_lt_trans with m; assumption. }
  lia.
Qed.

Lemma round_half_even_floor (m : Q) :
  round_half_even m = Qfloor m \/ round_half_even m = (Qfloor m + 1)%Z.
Proof.
  unfold round_half_even. destruct (Qcompare _ _); auto.
  destruct (Z.even _); auto.
Qed.

(** At most one half rounds to 0. *)
Lemma round_half_even_zero (m : Q) : 0 <= m -> m <= 1 # 2 -> round_half_even m = 0%Z.
Proof.
  intros H0 H1. unfold round_half_even.
  rewrite (Qfloor_small m H0) by (apply Qle_lt_trans with (1 # 2); [exact H1|reflexivity]).
  destruct (Qcompare (m - inject_Z 0) (1 # 2)) eqn:E; [reflexivity|reflexivity|].
  exfalso. rewrite <- Qgt_alt in E. change (inject_Z 0) with 0 in E. Lqa.lra.
Qed.

(** More than one half rounds to 1 at least. *)
Lemma round_half_even_pos (m : Q) : 1 # 2 < m -> (1 <= round_half_even m)%Z.
Proof.
  intro H. pose proof (Qfloor_le m) as Hl. pose proof (Qlt_floor m) as Hu.
  assert (Hf : (0 <= Qfloor m)%Z).
  { assert (B : (0 < Qfloor m + 1)%Z).
    { rewrite Zlt_Qlt. change (inject_Z 0) with 0.
      apply Qlt_trans with m; [Lqa.lra|exact Hu]. }
    lia. }
  unfold round_half_even.
  destruct (Qcompare (m - inject_Z (Qfloor m)) (1 # 2)) eqn:E.
  - destruct (Z.even (Qfloor m)) eqn:Ev; [|lia].
    destruct (Z.eq_dec (Qfloor m) 0) as [E0|]; [|lia].
    exfalso. rewrite <- Qeq_alt in E. rewrite E0 in E. change (inject_Z 0) with 0 in E. Lqa.lra.
  - destruct (Z.eq_dec (Qfloor m) 0) as [E0|]; [|lia].
    exfalso. rewrite <- Qlt_alt in E. rewrite E0 in E. change (inject_Z 0) with 0 in E. Lqa.lra.
  - lia.
Qed.

(** The float64 nearest to a number that is not negative: 0 up to half the
    smallest positive float64 [2^-1074], and [2^-1074] at least above. *)
Lemma nearest_float64_small (q : Q) :
  0 <= q -> q <= pow2 (-1075) -> nearest_float64 q == 0.
Proof.
  intros H0 H1. unfold nearest_float64.
  destruct (Qeq_bool q 0) eqn:Ez; [reflexivity|].
  assert (Hq : ~ q == 0) by (intro Hc; apply Qeq_bool_iff in Hc; congruence).
  assert (Hpos : 0 < q) by (destruct (Qlt_le_dec 0 q) as [H|H]; [exact H|exfalso; apply Hq; Lqa.lra]).
  pose proof (ilog2_lower q Hq) as Hl. rewrite (Qabs_nonneg_eq q H0) in Hl |- *.
  assert (He : (ilog2 q <= -1075)%Z).
  { apply pow2_le_inv. apply Qle_trans with q; assumption. }
  rewrite Z.max_r by lia.
  assert (Hm : q / pow2 (-1074) <= 1 # 2).
  { apply Qle_shift_div_r; [apply pow2_pos|].
    apply Qle_trans with (pow2 (-1075)); [exact H1|]. vm_compute. discriminate. }
  rewrite round_half_even_zero.
  - apply Qle_bool_iff in H0. rewrite H0. ring.
  - apply Qle_shift_div_l; [apply pow2_pos|]. rewrite Qmult_0_l. exact H0.
  - exact Hm.
Qed.

Lemma nearest_float64_large (q : Q) :
  pow2 (-1075) < q -> pow2 (-1074) <= nearest_float64 q.
Proof.
  intro H1.
  assert (Hpos : 0 < q) by (apply Qlt_trans with (pow2 (-1075)); [apply pow2_pos|exact H1]).
  unfold nearest_float64.
  destruct (Qeq_bool q 0) eqn:Ez.
  { apply Qeq_bool_iff in Ez. exfalso. Lqa.lra. }
  assert (Hq : ~ q == 0) by (intro Hc; Lqa.lra).
  pose proof (ilog2_lower q Hq) as Hl.
  rewrite (Qabs_nonneg_eq q) in Hl |- * by (apply Qlt_le_weak; exact Hpos).
  set (p := Z.max (ilog2 q - 52) (-1074)).
  assert (Hp : (-1074 <= p)%Z) by (unfold p; lia).
  assert (Hh : pow2 (p - 1) < q).
  { unfold p. destruct (Z.max_spec (ilog2 q - 52) (-1074)) as [[_ ->]|[_ ->]].
    - exact H1.
    - apply Qlt_le_trans with (pow2 (ilog2 q)); [apply pow2_lt; lia|exact Hl]. }
  assert (Hm : 1 # 2 < q / pow2 p).
  { apply Qlt_shift_div_l; [apply pow2_pos|].
    assert (E : (1 # 2) * pow2 p == pow2 (p - 1)).
    { unfold pow2. rewrite Qpower_minus by discriminate.
      change (2 ^ 1) with 2. field. }
    rewrite E. exact Hh. }
  pose proof (round_half_even_pos _ Hm) as Hr.
  assert (Hle : Qle_bool 0 q = true) by (apply Qle_bool_iff; apply Qlt_le_weak; exact Hpos).
  rewrite Hle.
  apply Qle_trans with (pow2 p); [apply pow2_le; exact Hp|].
  rewrite <- (Qmult_1_l (pow2 p)) at 1.
  apply Qmult_le_compat_r; [|apply Qlt_le_weak; apply pow2_pos].
  change 1 with (inject_Z 1). rewrite <- Zle_Qle. exact Hr.
Qed.

Lemma nearest_float64_nonneg (q : Q) : 0 <= q -> 0 <= nearest_float64 q.
Proof.
  intro H. destruct (Qlt_le_dec (pow2 (-1075)) q) as [Hl|Hs].
  - apply Qle_trans with (pow2 (-1074)); [apply Qlt_le_weak; apply pow2_pos|].
    apply nearest_float64_large. exact Hl.
  - rewrite (nearest_float64_small q H Hs). apply Qle_refl.
Qed.

(** The rounded result of an operation whose exact result is not negative. *)
Lemma round64_nonneg (q : Q) :
  0 <= q ->
  (round64 q = PosInf /\ pow2 (-1075) < q) \/
  (exists v, round64 q = Finite v /\
     ((q <= pow2 (-1075) /\ v == 0) \/ (pow2 (-1075) < q /\ pow2 (-1074) <= v))).
Proof.
  intro H. unfold round64.
  pose proof (nearest_float64_nonneg q H) as Hv.
  destruct (Qle_bool (pow2 1024) (nearest_float64 q)) eqn:E1.
  - left. split; [reflexivity|].
    destruct (Qlt_le_dec (pow2 (-1075)) q) as [Hl|Hs]; [exact Hl|].
    exfalso. apply Qle_bool_iff in E1.
    rewrite (nearest_float64_small q H Hs) in E1. vm_compute in E1. apply E1. reflexivity.
  - right. destruct (Qle_bool (nearest_float64 q) (- pow2 1024)) eqn:E2.
    { exfalso. apply Qle_bool_iff in E2.
      assert (Hc : - pow2 1024 < 0) by reflexivity. Lqa.lra. }
    exists (nearest_float64 q). split; [reflexivity|].
    destruct (Qlt_le_dec (pow2 (-1075)) q) as [Hl|Hs].
    + right. split; [exact Hl|apply nearest_float64_large; exact Hl].
    + left. split; [exact Hs|apply nearest_float64_small; assumption].
Qed.

(** The divisor of [ang] is zero exactly when both squares underflow. *)
Lemma ang_divisor_zero64_iff (ax ay : Q) :
  ang_divisor_zero64 (Finite ax) (Finite ay) = true <->
  ax * ax <= pow2 (-1075) /\ ay * ay <= pow2 (-1075).
Proof.
  unfold ang_divisor_zero64, ang_sum_squares64. cbn [f64_mul].
  assert (Hx : 0 <= ax * ax) by Lqa.nra.
  assert (Hy : 0 <= ay * ay) by Lqa.nra.
  assert (Hg : pow2 (-1075) < pow2 (-1074)) by reflexivity.
  assert (Hz : 0 < pow2 (-1075)) by reflexivity.
  revert Hx Hy.
  generalize (ax * ax) as X, (ay * ay) as Y.
  intros X Y Hx Hy.
  destruct (round64_nonneg _ Hx) as [[-> Lx]|(vx & -> & Cx)];
    destruct (round64_nonneg _ Hy) as [[-> Ly]|(vy & -> & Cy)].
  - cbn [f64_add f64_is_zero]. split; [discriminate|intros [A B]; exfalso; Lqa.lra].
  - cbn [f64_add f64_is_zero]. split; [discriminate|intros [A B]; exfalso; Lqa.lra].
  - cbn [f64_add f64_is_zero]. split; [discriminate|intros [A B]; exfalso; Lqa.lra].
  - cbn [f64_add f64_is_zero].
    assert (Hs : 0 <= vx + vy).
    { destruct Cx as [[_ Ex]|[_ Ex]]; destruct Cy as [[_ Ey]|[_ Ey]]; Lqa.lra. }
    destruct (round64_nonneg _ Hs) as [[-> Ls]|(v & -> & Cs)].
    + cbn [f64_is_zero]. split; [discriminate|]. intros [A B]. exfalso.
      destruct Cx as [[_ Ex]|[Ex _]]; destruct Cy as [[_ Ey]|[Ey _]]; Lqa.lra.
    + cbn [f64_is_zero]. rewrite Qeq_bool_iff.
      destruct Cx as [[Ax Ex]|[Ax Ex]]; destruct Cy as [[Ay Ey]|[Ay Ey]];
        destruct Cs as [[As Es]|[As Es]]; split;
        try (intro; split; Lqa.lra); try (intro; exfalso; Lqa.lra);
        try (intros [A B]; Lqa.lra); try (intros [A B]; exfalso; Lqa.lra).
Qed.

End Float64Lemmas.

(* ================================================================== *)
(** * The resampler: lemmas *)
(* ================================================================== *)

Section ResamplerLemmas.
Local Open Scope Q_scope.

Lemma Qlt_bool_iff (x y : Q) : Qlt_bool x y = true <-> x < y.
Proof.
  unfold Qlt_bool. rewrite negb_true_iff.
  split; intro H.
  - apply Qnot_le_lt. intro Hle. apply Qle_bool_iff in Hle. congruence.
  - destruct (Qle_bool y x) eqn:E; [|reflexivity].
    apply Qle_bool_iff in E. exfalso. apply (Qlt_not_le _ _ H E).
Qed.

Lemma index_last_app {A : Type} (l : list A) (x : A) :
  index_last (l ++ [x]) = inr x.
Proof.
  induction l as [|a l IH]; [reflexivity|].
  simpl. destruct (l ++ [x]) eqn:E; [destruct l; discriminate|exact IH].
Qed.

Lemma index_last_inr {A : Type} (l : list A) (x : A) :
  index_last l = inr x -> exists l', l = l' ++ [x].
Proof.
  induction l as [|a l IH]; [discriminate|].
  simpl. destruct l as [|b l].
  - intro H. injection H as ->. exists []. reflexivity.
  - intro H. destruct (IH H) as [l' E]. exists (a :: l'). rewrite E. reflexivity.
Qed.

Lemma index_last_inl {A : Type} (l : list A) (e : exn) :
  index_last l = inl e -> l = [] /\ e = IndexError.
Proof.
  destruct l as [|a l] using rev_ind.
  - simpl. intro H. injection H as <-. split; reflexivity.
  - rewrite index_last_app. discriminate.
Qed.

Lemma index_last_last {A : Type} (l : list A) (x d : A) :
  index_last l = inr x -> last l d = x.
Proof.
  intro H. destruct (index_last_inr _ _ H) as [l' ->]. apply last_last.
Qed.

Lemma index_last_nonempty {A : Type} (l : list A) (d : A) :
  l <> [] -> index_last l = inr (last l d).
Proof.
  destruct l as [|a l] using rev_ind; [congruence|].
  intros _. rewrite index_last_app, last_last. reflexivity.
Qed.

(** [held_label] succeeds exactly with the label of the last row before [ti]. *)
Lemma held_label_inr (truth : list truth_row) (ti lb : Q) :
  held_label truth ti = inr lb ->
  exists j r, last_before truth ti j r /\ lb = l_label r.
Proof.
  unfold held_label, bind.
  destruct (index_last (filter (fun r => Qlt_bool (l_t r) ti) truth)) as [e|r] eqn:E;
    [discriminate|].
  intro H. injection H as <-.
  apply index_last_inr in E. destruct E as [pre E].
  revert pre E. induction truth as [|a truth IH] using rev_ind; intros pre E.
  - destruct pre; discriminate.
  - rewrite filter_app in E. simpl in E.
    destruct (Qlt_bool (l_t a) ti) eqn:Ea.
    + apply app_inj_tail in E. destruct E as [_ ->].
      exists (length truth), r. split; [|reflexivity].
      split; [|split].
      * rewrite nth_error_app2, Nat.sub_diag by lia. reflexivity.
      * apply Qlt_bool_iff. exact Ea.
      * intros j' r' Hj Hn.
        assert (Hlen : (j' < length (truth ++ [r]))%nat)
          by (apply nth_error_Some; congruence).
        rewrite length_app in Hlen. simpl in Hlen. lia.
    + rewrite app_nil_r in E. destruct (IH pre E) as (j & r0 & (Hn & Hlt & Hmax) & Hl).
      exists j, r0. split; [|exact Hl].
      assert (Hj : (j < length truth)%nat) by (apply nth_error_Some; congruence).
      split; [|split].
      * rewrite nth_error_app1 by exact Hj. exact Hn.
      * exact Hlt.
      * intros j' r' Hjj Hn'.
        destruct (Nat.lt_ge_cases j' (length truth)) as [Hlt'|Hge].
        -- rewrite nth_error_app1 in Hn' by exact Hlt'. eapply Hmax; eassumption.
        -- rewrite nth_error_app2 in Hn' by exact Hge.
           destruct (j' - length truth)%nat as [|k]; simpl in Hn'.
           ++ injection Hn' as <-. intro Hc. apply Qlt_bool_iff in Hc. congruence.
           ++ destruct k; discriminate.
Qed.

Lemma held_label_inl (truth : list truth_row) (ti : Q) (e : exn) :
  held_label truth ti = inl e -> none_before truth ti /\ e = IndexError.
Proof.
  unfold held_label, bind.
  destruct (index_last (filter (fun r => Qlt_bool (l_t r) ti) truth)) as [e'|r] eqn:E;
    [|discriminate].
  intro H. injection H as <-.
  apply index_last_inl in E. destruct E as [E ->]. split; [|reflexivity].
  intros r Hin Hlt.
  assert (Hf : In r (filter (fun r => Qlt_bool (l_t r) ti) truth)).
  { apply filter_In. split; [exact Hin|]. apply Qlt_bool_iff. exact Hlt. }
  rewrite E in Hf. exact Hf.
Qed.

Lemma held_label_some (truth : list truth_row) (ti : Q) :
  (exists r, In r truth /\ l_t r < ti) -> exists lb, held_label truth ti = inr lb.
Proof.
  intros (r & Hin & Hlt).
  destruct (held_label truth ti) as [e|lb] eqn:E; [|exists lb; reflexivity].
  apply held_label_inl in E. destruct E as [Hn _]. exfalso. exact (Hn r Hin Hlt).
Qed.

Lemma hold_loop_inr (truth : list truth_row) (t ls : list Q) :
  hold_loop truth t = inr ls ->
  length ls = length t /\
  forall i, (i < length t)%nat -> held_label truth (nth i t 0) = inr (nth i ls 0).
Proof.
  revert ls. induction t as [|ti t IH]; intros ls H.
  - injection H as <-. split; [reflexivity|]. simpl. intros i Hi. lia.
  - simpl in H. unfold bind in H.
    destruct (held_label truth ti) as [e|l] eqn:El; [discriminate|].
    destruct (hold_loop truth t) as [e|ls'] eqn:Els; [discriminate|].
    injection H as <-. destruct (IH ls' eq_refl) as [Hlen Hnth].
    split; [simpl; congruence|].
    intros [|i] Hi; simpl; [exact El|]. apply Hnth. simpl in Hi. lia.
Qed.

Lemma hold_loop_inl (truth : list truth_row) (t : list Q) (e : exn) :
  hold_loop truth t = inl e ->
  e = IndexError /\ exists i, (i < length t)%nat /\ none_before truth (nth i t 0).
Proof.
  induction t as [|ti t IH]; [discriminate|].
  simpl. unfold bind.
  destruct (held_label truth ti) as [e'|l] eqn:El.
  - intro H. injection H as <-. apply held_label_inl in El. destruct El as [Hn ->].
    split; [reflexivity|]. exists 0%nat. split; [simpl; lia|exact Hn].
  - destruct (hold_loop truth t) as [e'|ls'] eqn:Els; [|discriminate].
    intro H. injection H as <-. destruct (IH eq_refl) as [-> (i & Hi & Hn)].
    split; [reflexivity|]. exists (S i). split; [simpl; lia|exact Hn].
Qed.

Lemma hold_loop_some (truth : list truth_row) (t : list Q) :
  (forall i, (i < length t)%nat -> exists r, In r truth /\ l_t r < nth i t 0) ->
  exists ls, hold_loop truth t = inr ls.
Proof.
  intro H. destruct (hold_loop truth t) as [e|ls] eqn:E; [|exists ls; reflexivity].
  apply hold_loop_inl in E. destruct E as [_ (i & Hi & Hn)].
  destruct (H i Hi) as (r & Hin & Hlt). exfalso. exact (Hn r Hin Hlt).
Qed.

Lemma columns_length (t x y z l : list Q) :
  length x = length t -> length y = length t -> length z = length t ->
  length l = length t -> length (columns t x y z l) = length t.
Proof.
  revert x y z l. induction t as [|t0 t IH]; intros [|x0 x] [|y0 y] [|z0 z] [|l0 l];
    simpl; try discriminate; try reflexivity.
  intros Hx Hy Hz Hl. f_equal. apply IH; congruence.
Qed.

Lemma columns_nth (t x y z l : list Q) (i : nat) (d : stim_row) :
  length x = length t -> length y = length t -> length z = length t ->
  length l = length t -> (i < length t)%nat ->
  nth i (columns t x y z l) d =
  mk_stim (nth i t 0) (nth i x 0) (nth i y 0) (nth i z 0) (nth i l 0).
Proof.
  revert x y z l i. induction t as [|t0 t IH]; intros [|x0 x] [|y0 y] [|z0 z] [|l0 l] i;
    simpl; try discriminate; try lia.
  intros Hx Hy Hz Hl Hi. destruct i as [|i]; [reflexivity|].
  apply IH; try congruence. lia.
Qed.

Lemma linspace_inr (start stop : Q) (num : Z) (ti : list Q) :
  linspace start stop num = inr ti ->
  (0 <= num)%Z /\ length ti = Z.to_nat num /\
  forall i, (i < length ti)%nat ->
    nth i ti 0 =
    inject_Z (Z.of_nat i)
    * (if (0 <? num - 1)%Z then (stop - start) / inject_Z (num - 1) else stop - start)
    + start.
Proof.
  unfold linspace. destruct (num <? 0)%Z eqn:E; [discriminate|].
  intro H. injection H as <-. apply Z.ltb_ge in E.
  split; [exact E|]. split; [rewrite length_map, length_seq; reflexivity|].
  intros i Hi. rewrite length_map, length_seq in Hi.
  set (f := fun i0 : nat => _).
  change (nth i (map f (seq 0 (Z.to_nat num))) 0 = f i).
  rewrite (nth_indep _ 0 (f 0%nat)) by (rewrite length_map, length_seq; exact Hi).
  rewrite map_nth, seq_nth by exact Hi. reflexivity.
Qed.

Lemma linspace_inl (start stop : Q) (num : Z) (e : exn) :
  linspace start stop num = inl e -> (num < 0)%Z /\ e = ValueError.
Proof.
  unfold linspace. destruct (num <? 0)%Z eqn:E; [|discriminate].
  intro H. injection H as <-. apply Z.ltb_lt in E. split; [exact E|reflexivity].
Qed.

Lemma N_of_inr (accel : list accel_row) (N : Z) :
  grid_size (t_first_of accel) (t_last_of accel) = inr N -> N_of accel = N.
Proof. intro H. unfold N_of. rewrite H. reflexivity. Qed.

(** [stimuli] with its steps written on the observations above. *)
Lemma stimuli_unfold (accel : list accel_row) (truth : list truth_row) :
  stimuli accel truth =
  match accel with
  | _ :: _ :: _ =>
      match time_axis accel with
      | [] => inl IndexError
      | _ :: _ =>
          match grid_size (t_first_of accel) (t_last_of accel) with
          | inl e => inl e
          | inr N =>
              let t0 := t_first_of accel in
              match linspace t0 (t0 + inject_Z N / fs_hz) N with
              | inl e => inl e
              | inr ti =>
                  match truth with
                  | truth0 :: _ :: _ =>
                      match ti with
                      | [] => inl IndexError
                      | _ :: ti' =>
                          match hold_loop truth ti' with
                          | inl e => inl e
                          | inr held =>
                              inr (columns ti
                                     (np_interp ti (time_axis accel) (map a_x (trim accel)))
                                     (np_interp ti (time_axis accel) (map a_y (trim accel)))
                                     (np_interp ti (time_axis accel) (map a_z (trim accel)))
                                     (l_label truth0 :: held))
                          end
                      end
                  | _ => inl IndexError
                  end
              end
          end
      end
  | _ => inl IndexError
  end.
Proof.
  unfold stimuli.
  destruct accel as [|a0 [|a1 accel']]; [reflexivity|reflexivity|].
  cbn [genfromtxt rows_of bind].
  set (accel := a0 :: a1 :: accel').
  unfold t_first_of, t_last_of, time_axis.
  destruct (map a_t (trim accel)) as [|a l] eqn:E; [reflexivity|].
  rewrite (index_last_nonempty (a :: l) 0) by discriminate.
  cbn [bind index_first hd].
  destruct (grid_size a (last (a :: l) 0)) as [e|N]; [reflexivity|].
  cbn [bind]. cbv zeta.
  destruct (linspace a (a + inject_Z N / fs_hz) N) as [e|ti]; [reflexivity|].
  cbn [bind].
  destruct truth as [|truth0 [|truth1 truth']];
    [destruct ti; reflexivity|destruct ti; reflexivity|].
  cbn [genfromtxt rows_of bind index_first]. destruct ti as [|ti0 ti']; [reflexivity|].
  destruct (hold_loop (truth0 :: truth1 :: truth') ti'); reflexivity.
Qed.

Lemma time_axis_nil (accel : list accel_row) :
  time_axis accel = [] <-> trim accel = [].
Proof.
  unfold time_axis. split; intro H.
  - destruct (trim accel); [reflexivity|discriminate].
  - rewrite H. reflexivity.
Qed.

Lemma time_grid_length (accel : list accel_row) :
  length (time_grid accel) = Z.to_nat (N_of accel).
Proof.
  unfold time_grid.
  destruct (linspace _ _ _) as [e|ti] eqn:E.
  - apply linspace_inl in E. destruct E as [E _]. simpl. lia.
  - apply linspace_inr in E. tauto.
Qed.

(** The steps of a successful run of [stimuli]. *)
Lemma stimuli_inr_steps (accel : list accel_row) (truth : list truth_row)
    (out : list stim_row) :
  stimuli accel truth = inr out ->
  (2 <= length accel)%nat /\ (2 <= length truth)%nat /\
  trim accel <> [] /\
  grid_size (t_first_of accel) (t_last_of accel) = inr (N_of accel) /\
  (1 <= N_of accel)%Z /\
  exists truth0 truth' held,
    truth = truth0 :: truth' /\
    hold_loop truth (tl (time_grid accel)) = inr held /\
    out = columns (time_grid accel)
            (np_interp (time_grid accel) (time_axis accel) (map a_x (trim accel)))
            (np_interp (time_grid accel) (time_axis accel) (map a_y (trim accel)))
            (np_interp (time_grid accel) (time_axis accel) (map a_z (trim accel)))
            (l_label truth0 :: held).
Proof.
  rewrite stimuli_unfold.
  assert (Hlen2 : forall (A : Type) (x y : A) (l : list A), (2 <= length (x :: y :: l))%nat)
    by (intros; simpl; lia).
  destruct accel as [|a0 [|a1 accel']]; [discriminate|discriminate|].
  set (accel := a0 :: a1 :: accel').
  destruct (time_axis accel) as [|a l] eqn:Et; [discriminate|].
  destruct (grid_size (t_first_of accel) (t_last_of accel)) as [e|N] eqn:Eg; [discriminate|].
  pose proof (N_of_inr accel N Eg) as EN.
  cbv zeta. pose proof (time_grid_length accel) as Hlen. unfold time_grid in *.
  rewrite EN in *.
  destruct (linspace _ _ _) as [e|ti] eqn:E; [discriminate|].
  destruct truth as [|truth0 [|truth1 truth']]; [discriminate|discriminate|].
  destruct ti as [|ti0 ti']; [discriminate|].
  destruct (hold_loop (truth0 :: truth1 :: truth') ti') as [e|held] eqn:Eh; [discriminate|].
  intro H. injection H as <-.
  split; [apply Hlen2|]. split; [apply Hlen2|]. split; [|split; [|split]].
  - intro Hc. apply time_axis_nil in Hc. congruence.
  - reflexivity.
  - simpl in Hlen. lia.
  - exists truth0, (truth1 :: truth'), held.
    split; [reflexivity|]. split; [exact Eh|reflexivity].
Qed.

(** What a successful run of [stimuli] has gone through. *)
Lemma stimuli_inr (accel : list accel_row) (truth : list truth_row) (out : list stim_row) :
  stimuli accel truth = inr out ->
  trim accel <> [] /\ (1 <= N_of accel)%Z /\
  exists truth0 truth' held,
    truth = truth0 :: truth' /\
    hold_loop truth (tl (time_grid accel)) = inr held /\
    out = columns (time_grid accel)
            (np_interp (time_grid accel) (time_axis accel) (map a_x (trim accel)))
            (np_interp (time_grid accel) (time_axis accel) (map a_y (trim accel)))
            (np_interp (time_grid accel) (time_axis accel) (map a_z (trim accel)))
            (l_label truth0 :: held).
Proof.
  intro H. destruct (stimuli_inr_steps _ _ _ H) as (_ & _ & Hne & _ & HN & Hrest).
  split; [exact Hne|]. split; [exact HN|exact Hrest].
Qed.




Lemma np_interp_length (xs xp fp : list Q) : length (np_interp xs xp fp) = length xs.
Proof. apply length_map. Qed.

Lemma np_interp_nth (xs xp fp : list Q) (i : nat) :
  (i < length xs)%nat -> nth i (np_interp xs xp fp) 0 = np_interp1 (nth i xs 0) xp fp.
Proof.
  intro Hi. unfold np_interp.
  rewrite (nth_indep _ 0 (np_interp1 0 xp fp)) by (rewrite length_map; exact Hi).
  apply (map_nth (fun x => np_interp1 x xp fp)).
Qed.

(** The rows of a successful run, column by column. *)
Lemma stimuli_rows (accel : list accel_row) (truth : list truth_row) (out : list stim_row) :
  stimuli accel truth = inr out ->
  exists truth0 truth' held,
    truth = truth0 :: truth' /\
    hold_loop truth (tl (time_grid accel)) = inr held /\
    length out = Z.to_nat (N_of accel) /\
    forall i d, (i < length out)%nat ->
      nth i out d =
      mk_stim (nth i (time_grid accel) 0)
              (np_interp1 (nth i (time_grid accel) 0) (time_axis accel) (map a_x (trim accel)))
              (np_interp1 (nth i (time_grid accel) 0) (time_axis accel) (map a_y (trim accel)))
              (np_interp1 (nth i (time_grid accel) 0) (time_axis accel) (map a_z (trim accel)))
              (nth i (l_label truth0 :: held) 0).
Proof.
  intro H. destruct (stimuli_inr _ _ _ H) as (Hne & HN & truth0 & truth' & held & -> & Eh & ->).
  exists truth0, truth', held. split; [reflexivity|]. split; [exact Eh|].
  pose proof (time_grid_length accel) as Hlen.
  destruct (hold_loop_inr _ _ _ Eh) as [Hheld _].
  assert (Hl : length (l_label truth0 :: held) = length (time_grid accel)).
  { simpl. rewrite Hheld. destruct (time_grid accel); simpl in *; lia. }
  assert (Hc : length (columns (time_grid accel)
            (np_interp (time_grid accel) (time_axis accel) (map a_x (trim accel)))
            (np_interp (time_grid accel) (time_axis accel) (map a_y (trim accel)))
            (np_interp (time_grid accel) (time_axis accel) (map a_z (trim accel)))
            (l_label truth0 :: held)) = length (time_grid accel)).
  { apply columns_length; try apply np_interp_length. exact Hl. }
  split; [congruence|].
  intros i d Hi. rewrite Hc in Hi.
  rewrite columns_nth; try apply np_interp_length; try assumption.
  rewrite !np_interp_nth by exact Hi. reflexivity.
Qed.

(** The grid that [np.linspace] returns for [N >= 2]: the span [N / fs] is
    divided into [N - 1] steps. *)
Lemma time_grid_nth (accel : list accel_row) (i : nat) :
  (2 <= N_of accel)%Z -> (i < length (time_grid accel))%nat ->
  nth i (time_grid accel) 0 ==
  t_first_of accel
  + inject_Z (Z.of_nat i) * (inject_Z (N_of accel) / fs_hz / inject_Z (N_of accel - 1)).
Proof.
  intros HN Hi. unfold time_grid in *.
  destruct (linspace _ _ _) as [e|ti] eqn:E; [simpl in Hi; lia|].
  apply linspace_inr in E. destruct E as (_ & _ & Hnth).
  rewrite (Hnth i Hi).
  assert (Hd : (0 <? N_of accel - 1)%Z = true) by (apply Z.ltb_lt; lia).
  rewrite Hd.
  assert (Hnz : ~ inject_Z (N_of accel - 1) == 0).
  { intro Hc. assert (Hz : (N_of accel - 1 = 0)%Z).
    { unfold Qeq in Hc. simpl in Hc. lia. }
    lia. }
  unfold fs_hz, fs. simpl (inject_Z (Z.of_nat 10)). field. exact Hnz.
Qed.


(** The label of every row of a successful run. *)
Lemma stimuli_labels (accel : list accel_row) (truth : list truth_row) (out : list stim_row) :
  stimuli accel truth = inr out ->
  exists truth0 truth',
    truth = truth0 :: truth' /\
    forall i row, nth_error out i = Some row ->
      r_t row = nth i (time_grid accel) 0 /\
      match i with
      | O => r_truth row = l_label truth0
      | S _ => exists j r, last_before truth (r_t row) j r /\ r_truth row = l_label r
      end.
Proof.
  intro H. destruct (stimuli_rows _ _ _ H) as (truth0 & truth' & held & Et & Eh & Hlen & Hnth).
  exists truth0, truth'. split; [exact Et|].
  intros i row Hrow.
  assert (Hi : (i < length out)%nat) by (apply nth_error_Some; congruence).
  pose proof (Hnth i row Hi) as E. rewrite (nth_error_nth _ _ row Hrow) in E.
  rewrite E. cbn [r_t r_truth]. split; [reflexivity|].
  destruct i as [|i]; [reflexivity|].
  destruct (hold_loop_inr _ _ _ Eh) as [Hl Hheld].
  pose proof (time_grid_length accel) as Hg.
  assert (Hi' : (i < length (tl (time_grid accel)))%nat).
  { destruct (time_grid accel); simpl in *; lia. }
  specialize (Hheld i Hi').
  assert (Etl : nth i (tl (time_grid accel)) 0 = nth (S i) (time_grid accel) 0).
  { destruct (time_grid accel); [destruct i; reflexivity|reflexivity]. }
  rewrite Etl in Hheld. apply held_label_inr in Hheld.
  destruct Hheld as (j & r & Hlast & Hlab).
  exists j, r. split; [exact Hlast|]. cbn [nth]. exact Hlab.
Qed.

(** A value interpolated on one segment lies between the values at its two
    ends. *)
Lemma segment_between (x x0 x1 y0 y1 : Q) :
  x0 <= x -> x < x1 ->
  let v := (y1 - y0) / (x1 - x0) * (x - x0) + y0 in
  (y0 <= v /\ v <= y1) \/ (y1 <= v /\ v <= y0).
Proof.
  intros H0 H1. cbv zeta.
  set (r := (y1 - y0) / (x1 - x0)).
  assert (Hd : 0 < x1 - x0) by Lqa.lra.
  assert (Er : r * (x1 - x0) == y1 - y0).
  { unfold r. field. intro Hc. Lqa.lra. }
  destruct (Qlt_le_dec y1 y0) as [Hlt|Hle].
  - right. assert (Hr : r <= 0).
    { destruct (Qlt_le_dec 0 r) as [Hp|Hn]; [|exact Hn]. exfalso. Lqa.nra. }
    split; Lqa.nra.
  - left. assert (Hr : 0 <= r).
    { destruct (Qlt_le_dec r 0) as [Hn|Hp]; [|exact Hp]. exfalso. Lqa.nra. }
    split; Lqa.nra.
Qed.

Lemma interp_from_between (x : Q) (xp fp : list Q) :
  length xp = length fp -> fp <> [] -> hd 0 xp <= x ->
  exists lo hi, In lo fp /\ In hi fp /\
                lo <= interp_from x xp fp /\ interp_from x xp fp <= hi.
Proof.
  revert fp. induction xp as [|x0 xp IH]; intros [|y0 fp] Hlen Hne Hx;
    try discriminate; try congruence.
  destruct xp as [|x1 xp], fp as [|y1 fp]; try discriminate.
  - exists y0, y0. cbn. split; [auto|]. split; [auto|]. split; apply Qle_refl.
  - cbn [interp_from]. destruct (Qle_bool x1 x) eqn:E.
    + apply Qle_bool_iff in E.
      destruct (IH (y1 :: fp)) as (lo & hi & Hlo & Hhi & Hb);
        [simpl in *; lia|discriminate|exact E|].
      exists lo, hi. split; [right; exact Hlo|]. split; [right; exact Hhi|exact Hb].
    + assert (Hlt : x < x1).
      { apply Qnot_le_lt. intro Hc. apply Qle_bool_iff in Hc. congruence. }
      cbn [hd] in Hx.
      destruct (segment_between x x0 x1 y0 y1 Hx Hlt) as [[Ha Hb]|[Ha Hb]].
      * exists y0, y1. cbn [In]. auto.
      * exists y1, y0. cbn [In]. auto.
Qed.

Lemma np_interp1_between (x : Q) (xp fp : list Q) :
  length xp = length fp -> fp <> [] ->
  exists lo hi, In lo fp /\ In hi fp /\
                lo <= np_interp1 x xp fp /\ np_interp1 x xp fp <= hi.
Proof.
  intros Hlen Hne. unfold np_interp1.
  destruct xp as [|x0 xp], fp as [|y0 fp]; try discriminate; try congruence.
  destruct (Qlt_bool x x0) eqn:E.
  - exists y0, y0. cbn [In]. split; [auto|]. split; [auto|]. split; apply Qle_refl.
  - apply interp_from_between; [exact Hlen|discriminate|].
    cbn [hd]. destruct (Qlt_le_dec x x0) as [Hc|Hc]; [|exact Hc].
    apply Qlt_bool_iff in Hc. congruence.
Qed.


End ResamplerLemmas.

(* ================================================================== *)
(** * The classifier: lemmas *)
(* ================================================================== *)

Section ClassifierLemmas.
Local Open Scope R_scope.

(** ** Arrays *)

Lemma shift_in_length {A : Type} (x : A) (h : list A) :
  length (shift_in x h) = length h.
Proof.
  destruct h as [|a h]; [reflexivity|].
  unfold shift_in. cbn [length]. rewrite removelast_firstn_len, length_firstn.
  cbn [length]. lia.
Qed.

Lemma shift_in_firstn {A : Type} (x : A) (n : nat) (l : list A) :
  (n <= length l)%nat -> shift_in x (firstn n l) = firstn n (x :: l).
Proof.
  intro Hn. destruct n as [|n]; [reflexivity|].
  destruct l as [|a l]; [simpl in Hn; lia|].
  change (firstn (S n) (a :: l)) with (a :: firstn n l).
  unfold shift_in. change (a :: firstn n l) with (firstn (S n) (a :: l)).
  rewrite removelast_firstn by (simpl in *; lia). reflexivity.
Qed.

Lemma shift_in_hd {A : Type} (x d : A) (h : list A) :
  h <> [] -> hd d (shift_in x h) = x.
Proof. destruct h; [congruence|reflexivity]. Qed.

Lemma slots_length (size : nat) (pushed : list npfloat) :
  length (slots size pushed) = size.
Proof.
  unfold slots. rewrite length_firstn, length_app, repeat_length. lia.
Qed.

Lemma slots_nil (size : nat) : slots size [] = repeat (Num 0) size.
Proof.
  unfold slots. simpl. rewrite <- (repeat_length (Num 0) size) at 1.
  apply firstn_all.
Qed.

(** Shifting one more value into the array. *)
Lemma shift_in_slots (size : nat) (pushed : list npfloat) (x : npfloat) :
  shift_in x (slots size pushed) = slots size (pushed ++ [x]).
Proof.
  unfold slots. rewrite shift_in_firstn.
  - rewrite rev_app_distr. reflexivity.
  - rewrite length_app, repeat_length. lia.
Qed.

(** Once [size] values have been pushed the array holds the last [size] of
    them and none of the initial zeros. *)
Lemma slots_full (size : nat) (pushed : list npfloat) :
  (size <= length pushed)%nat -> slots size pushed = firstn size (rev pushed).
Proof.
  intro H. unfold slots. rewrite firstn_app, length_rev.
  replace (size - length pushed)%nat with 0%nat by lia.
  simpl. apply app_nil_r.
Qed.

Lemma upd_row_length (i : nat) (f : dbg_row -> dbg_row) (d : list dbg_row) :
  length (upd_row i f d) = length d.
Proof.
  revert i. induction d as [|r d IH]; intros [|i]; simpl; try reflexivity.
  f_equal. apply IH.
Qed.

Lemma upd_row_nth_same (i : nat) (f : dbg_row -> dbg_row) (d : list dbg_row) (x : dbg_row) :
  (i < length d)%nat -> nth i (upd_row i f d) x = f (nth i d x).
Proof.
  revert i. induction d as [|r d IH]; intros [|i] Hi; simpl in *; try lia.
  - reflexivity.
  - apply IH. lia.
Qed.

Lemma upd_row_nth_other (i k : nat) (f : dbg_row -> dbg_row) (d : list dbg_row) (x : dbg_row) :
  k <> i -> nth k (upd_row i f d) x = nth k d x.
Proof.
  revert i k. induction d as [|r d IH]; intros [|i] [|k] Hk; simpl; try reflexivity.
  - congruence.
  - apply IH. congruence.
Qed.

Lemma upd_row_firstn (i n : nat) (f : dbg_row -> dbg_row) (d : list dbg_row) :
  (n <= i)%nat -> firstn n (upd_row i f d) = firstn n d.
Proof.
  revert i n. induction d as [|r d IH]; intros [|i] [|n] Hn; simpl; try reflexivity; try lia.
  f_equal. apply IH. lia.
Qed.

Lemma firstn_S_nth {A : Type} (n : nat) (l : list A) (x : A) :
  (n < length l)%nat -> firstn (S n) l = firstn n l ++ [nth n l x].
Proof.
  revert n. induction l as [|a l IH]; intros [|n] Hn; simpl in *; try lia.
  - reflexivity.
  - f_equal. apply IH. lia.
Qed.

(** ** The loop *)

Lemma for_loop_app (a b : list sample) (i : nat) (st : locals) :
  for_loop (a ++ b) i st = for_loop b (i + length a) (for_loop a i st).
Proof.
  revert i st. induction a as [|r a IH]; intros i st; simpl.
  - rewrite Nat.add_0_r. reflexivity.
  - rewrite IH. f_equal. lia.
Qed.

Lemma locals_after_0 (stim : list sample) :
  locals_after stim 0 = init_locals (length stim).
Proof. reflexivity. Qed.

(** One more iteration. *)
Lemma locals_after_S (stim : list sample) (n : nat) (d : sample) :
  (n < length stim)%nat ->
  locals_after stim (S n) = loop_body (nth n stim d) n (locals_after stim n).
Proof.
  intro Hn. unfold locals_after.
  rewrite (firstn_S_nth n stim d Hn), for_loop_app.
  rewrite length_firstn, Nat.min_l by lia. reflexivity.
Qed.

Lemma locals_after_all (stim : list sample) :
  vanhees2015_modified stim =
  (ret (locals_after stim (length stim)), dbg (locals_after stim (length stim))).
Proof.
  unfold vanhees2015_modified, locals_after. rewrite firstn_all. reflexivity.
Qed.

(** The locals after one iteration, field by field. *)
Lemma loop_body_fields (row : sample) (i : nat) (st : locals) :
  let avgs := ema_vec (s_accel row) (accel_avgs st) eta in
  let hist := shift_in (ang avgs) (arm_angle_hist st) in
  let boundary := (i mod window_len =? 0)%nat in
  let change d := np_abs (np_sub (np_mean hist) d) in
  let st' := loop_body row i st in
  accel_avgs st' = avgs /\
  arm_angle_hist st' = hist /\
  arm_angle_mean_d st' = (if boundary then Some (np_mean hist) else arm_angle_mean_d st) /\
  arm_angle_change_hist st' =
    (if boundary then
       match arm_angle_mean_d st with
       | Some d => shift_in (change d) (arm_angle_change_hist st)
       | None => arm_angle_change_hist st
       end
     else arm_angle_change_hist st) /\
  ret st' =
    ret st ++
    (if boundary then
       match arm_angle_mean_d st with
       | Some d =>
           [mk_event (s_t row)
              (new_state_of (shift_in (change d) (arm_angle_change_hist st)))]
       | None => []
       end
     else []) /\
  exists F,
    dbg st' = upd_row i F (dbg st) /\
    forall x,
      dbg_t (F x) = Num (s_t row) /\
      dbg_angle (F x) = hd NaN hist /\
      dbg_mean (F x) = (if boundary then np_mean hist else dbg_mean x) /\
      dbg_change (F x) =
        (if boundary then
           match arm_angle_mean_d st with
           | Some d => change d
           | None => dbg_change x
           end
         else dbg_change x).
Proof.
  cbv zeta. unfold loop_body, window_len.
  destruct (i mod (fs * seconds_per_update) =? 0)%nat.
  - destruct (arm_angle_mean_d st) as [d|]; cbn [accel_avgs arm_angle_hist
      arm_angle_mean_d arm_angle_change_hist ret dbg];
      rewrite ?app_nil_r; repeat (split; [reflexivity|]);
      eexists; (split; [reflexivity|]);
      intro x; destruct (ema_vec (s_accel row) (accel_avgs st) eta) as [[a0 a1] a2];
      repeat split.
  - cbn [accel_avgs arm_angle_hist arm_angle_mean_d arm_angle_change_hist ret dbg].
    rewrite ?app_nil_r. repeat (split; [reflexivity|]).
    eexists. split; [reflexivity|].
    intro x. destruct (ema_vec (s_accel row) (accel_avgs st) eta) as [[a0 a1] a2].
    repeat split.
Qed.

(** ** Window boundaries *)

Lemma window_len_pos : (0 < window_len)%nat.
Proof. unfold window_len, fs, seconds_per_update. lia. Qed.

Ltac divmod_facts n :=
  pose proof (Nat.div_mod_eq n window_len);
  pose proof (Nat.mod_upper_bound n window_len (Nat.neq_sym _ _ (Nat.lt_neq _ _ window_len_pos))).

Lemma events_after_inner (n : nat) :
  (n mod window_len <> 0)%nat -> (n / window_len = (n - 1) / window_len)%nat.
Proof.
  intro H. pose proof window_len_pos as HW.
  apply (Nat.div_unique (n - 1) window_len (n / window_len) (n mod window_len - 1)).
  - divmod_facts n. lia.
  - divmod_facts n. lia.
Qed.

Lemma events_after_boundary (n : nat) :
  (n mod window_len = 0)%nat -> (0 < n)%nat ->
  (n / window_len = S ((n - 1) / window_len) /\ window_len * (n / window_len) = n)%nat.
Proof.
  intros H Hn. pose proof window_len_pos as HW.
  divmod_facts n.
  assert (Hq : (0 < n / window_len)%nat).
  { destruct (n / window_len)%nat as [|q] eqn:E; [|lia]. lia. }
  assert (Hm : (window_len * (n / window_len) = n)%nat).
  { rewrite H, Nat.add_0_r in H0. symmetry. exact H0. }
  split; [|exact Hm].
  assert (E : ((n - 1) / window_len = n / window_len - 1)%nat).
  { symmetry. apply (Nat.div_unique (n - 1) window_len (n / window_len - 1) (window_len - 1)); [lia|].
    rewrite Nat.mul_sub_distr_l. nia. }
  lia.
Qed.

Lemma boundary_multiple (k : nat) : ((window_len * k) mod window_len = 0)%nat.
Proof. rewrite Nat.mul_comm. apply Nat.Div0.mod_mul. Qed.

Lemma div_multiple (k : nat) : ((window_len * S k - 1) / window_len = k)%nat.
Proof.
  pose proof window_len_pos as HW.
  symmetry. apply (Nat.div_unique _ window_len k (window_len - 1)); [lia|].
  rewrite Nat.mul_succ_r. lia.
Qed.

Lemma events_after_below (n : nat) : (0 < n -> window_len * events_after n < n)%nat.
Proof.
  intro Hn. unfold events_after. divmod_facts (n - 1)%nat. lia.
Qed.

(** ** The trace of a run *)

Lemma logged_changes_S (d : list dbg_row) (m : nat) :
  logged_changes d (S m) =
  logged_changes d m ++ [dbg_change (nth (window_len * S m) d nan_row)].
Proof.
  unfold logged_changes. rewrite seq_S, map_app. reflexivity.
Qed.

Lemma logged_changes_length (d : list dbg_row) (m : nat) :
  length (logged_changes d m) = m.
Proof. unfold logged_changes. rewrite length_map, length_seq. reflexivity. Qed.

(** Rows other than row [i] are not touched by an update of row [i]. *)
Lemma logged_changes_upd (d : list dbg_row) (i m : nat) (F : dbg_row -> dbg_row) :
  (window_len * m < i)%nat ->
  logged_changes (upd_row i F d) m = logged_changes d m.
Proof.
  intro H. unfold logged_changes. apply map_ext_in.
  intros k Hk. apply in_seq in Hk.
  rewrite upd_row_nth_other; [reflexivity|]. nia.
Qed.

Lemma logged_angles_upd (d : list dbg_row) (i m : nat) (F : dbg_row -> dbg_row) :
  (m <= i)%nat -> logged_angles (upd_row i F d) m = logged_angles d m.
Proof.
  intro H. unfold logged_angles. rewrite upd_row_firstn by exact H. reflexivity.
Qed.

Lemma logged_angles_upd_S (d : list dbg_row) (i : nat) (F : dbg_row -> dbg_row) :
  (i < length d)%nat ->
  logged_angles (upd_row i F d) (S i) =
  logged_angles d i ++ [dbg_angle (F (nth i d nan_row))].
Proof.
  intro H. unfold logged_angles.
  rewrite (firstn_S_nth i _ nan_row) by (rewrite upd_row_length; exact H).
  rewrite map_app, upd_row_firstn, upd_row_nth_same by (exact H || lia).
  reflexivity.
Qed.

Lemma trace_inv_init (stim : list sample) :
  trace_inv stim 0 (init_locals (length stim)).
Proof.
  constructor; unfold init_locals;
    cbn [dbg arm_angle_hist arm_angle_change_hist arm_angle_mean_d ret];
    change (events_after 0) with 0%nat.
  - apply repeat_length.
  - unfold logged_angles. cbn [firstn map]. rewrite slots_nil. reflexivity.
  - unfold logged_changes. cbn [seq map]. rewrite slots_nil. reflexivity.
  - reflexivity.
  - reflexivity.
  - intros k Hk. lia.
  - intros k Hk. lia.
Qed.

Lemma trace_inv_step (stim : list sample) (n : nat) (st : locals) :
  (n < length stim)%nat -> trace_inv stim n st ->
  trace_inv stim (S n) (loop_body (nth n stim no_sample) n st).
Proof.
  intros Hn [Hlen Hhist Hch Hmd Hret Hmean Hchange].
  pose proof (loop_body_fields (nth n stim no_sample) n st) as HF. cbv zeta in HF.
  set (row := nth n stim no_sample) in *.
  set (avgs := ema_vec (s_accel row) (accel_avgs st) eta) in *.
  set (hist := shift_in (ang avgs) (arm_angle_hist st)) in *.
  destruct HF as (_ & Ehist & Emd & Ech & Eret & F & Edbg & HFx).
  pose proof window_len_pos as HW.
  assert (Hhd : hd NaN hist = ang avgs).
  { apply shift_in_hd. rewrite Hhist. intro Hc.
    apply (f_equal (@length npfloat)) in Hc. rewrite slots_length in Hc.
    simpl in Hc. lia. }
  assert (Hhist' : hist = slots window_len (logged_angles (dbg st) n ++ [ang avgs])).
  { unfold hist. rewrite Hhist. apply shift_in_slots. }
  assert (Hangles : logged_angles (upd_row n F (dbg st)) (S n) =
                    logged_angles (dbg st) n ++ [ang avgs]).
  { rewrite logged_angles_upd_S by lia.
    destruct (HFx (nth n (dbg st) nan_row)) as (_ & Ea & _).
    rewrite Ea, Hhd. reflexivity. }
  assert (Hrow : forall x, nth n (upd_row n F (dbg st)) x = F (nth n (dbg st) x)).
  { intro x. apply upd_row_nth_same. lia. }
  (* the rows below [n] and what is read from them do not change *)
  assert (Hold_mean : forall k, (window_len * k < n)%nat ->
            dbg_mean (nth (window_len * k) (upd_row n F (dbg st)) nan_row) =
            np_mean (slots window_len
                       (logged_angles (upd_row n F (dbg st)) (S (window_len * k))))).
  { intros k Hk. rewrite upd_row_nth_other by lia.
    rewrite logged_angles_upd by lia. apply Hmean. exact Hk. }
  assert (Hold_change : forall k, (window_len * S k < n)%nat ->
            dbg_change (nth (window_len * S k) (upd_row n F (dbg st)) nan_row) =
            np_abs (np_sub
              (dbg_mean (nth (window_len * S k) (upd_row n F (dbg st)) nan_row))
              (dbg_mean (nth (window_len * k) (upd_row n F (dbg st)) nan_row)))).
  { intros k Hk. rewrite !upd_row_nth_other by nia. apply Hchange. exact Hk. }
  assert (Hold_events : forall m, (window_len * m < n)%nat ->
            map (event_at stim (upd_row n F (dbg st))) (seq 1 m) =
            map (event_at stim (dbg st)) (seq 1 m)).
  { intros m Hm. apply map_ext_in. intros k Hk. apply in_seq in Hk.
    unfold event_at. rewrite logged_changes_upd by nia. reflexivity. }
  destruct (n mod window_len =? 0)%nat eqn:Eb.
  - apply Nat.eqb_eq in Eb.
    destruct (HFx (nth n (dbg st) nan_row)) as (_ & _ & Em & Ec).
    destruct n as [|n'].
    + (* the first sample: the window mean is stored, nothing is classified *)
      rewrite Hmd in Ech, Eret, Ec. rewrite app_nil_r in Eret.
      change (events_after 1) with 0%nat. change (events_after 0) with 0%nat in *.
      constructor; rewrite ?Ehist, ?Emd, ?Ech, ?Eret, ?Edbg.
      * rewrite upd_row_length. exact Hlen.
      * rewrite Hangles. exact Hhist'.
      * rewrite Hch. reflexivity.
      * rewrite Nat.Div0.div_0_l, Nat.mul_0_r, Hrow, Em. reflexivity.
      * rewrite Hret. reflexivity.
      * intros k Hk. assert (k = 0)%nat by nia. subst k.
        rewrite Nat.mul_0_r, Hrow, Em, Hangles. rewrite <- Hhist'. reflexivity.
      * intros k Hk. nia.
    + (* a later boundary: one change is pushed and one event appended *)
      destruct (events_after_boundary (S n') Eb ltac:(lia)) as [Hq Hmul].
      assert (Hev : events_after (S (S n')) = S (events_after (S n'))).
      { unfold events_after. replace (S (S n') - 1)%nat with (S n') by lia. exact Hq. }
      assert (Hidx : (window_len * S (events_after (S n')) = S n')%nat).
      { unfold events_after. rewrite <- Hq. exact Hmul. }
      pose proof (events_after_below (S n') ltac:(lia)) as Hbelow.
      rewrite Hmd in Ech, Eret, Ec.
      set (d := dbg_mean (nth (window_len * (n' / window_len)) (dbg st) nan_row)) in *.
      set (c := np_abs (np_sub (np_mean hist) d)) in *.
      assert (Hlc : logged_changes (upd_row (S n') F (dbg st)) (S (events_after (S n'))) =
                    logged_changes (dbg st) (events_after (S n')) ++ [c]).
      { rewrite logged_changes_S, logged_changes_upd by exact Hbelow.
        rewrite Hidx, Hrow, Ec. reflexivity. }
      constructor; rewrite ?Ehist, ?Emd, ?Ech, ?Eret, ?Edbg, ?Hev.
      * rewrite upd_row_length. exact Hlen.
      * rewrite Hangles. exact Hhist'.
      * rewrite Hlc, Hch. apply shift_in_slots.
      * replace (window_len * (S n' / window_len))%nat with (S n') by (symmetry; exact Hmul).
        rewrite Hrow, Em. reflexivity.
      * rewrite Hret, seq_S, map_app, Hold_events by exact Hbelow.
        cbn [map app]. do 3 f_equal.
        unfold event_at. replace (1 + events_after (S n'))%nat with (S (events_after (S n'))) by lia.
        rewrite Hidx, Hlc, Hch, shift_in_slots. reflexivity.
      * intros k Hk. destruct (Nat.eq_dec (window_len * k) (S n')) as [E|E].
        -- rewrite E, Hrow, Em, Hangles. rewrite <- Hhist'. reflexivity.
        -- apply Hold_mean. lia.
      * intros k Hk. destruct (Nat.eq_dec (window_len * S k) (S n')) as [E|E].
        -- rewrite E, Hrow, Em, Ec. rewrite upd_row_nth_other by nia.
           unfold c, d. do 3 f_equal.
           replace n' with (window_len * S k - 1)%nat by lia.
           rewrite div_multiple. reflexivity.
        -- apply Hold_change. lia.
  - (* not a boundary *)
    apply Nat.eqb_neq in Eb.
    destruct (HFx (nth n (dbg st) nan_row)) as (_ & _ & Em & Ec).
    rewrite app_nil_r in Eret.
    destruct n as [|n']; [exfalso; apply Eb; apply Nat.Div0.mod_0_l|].
    assert (Hev : events_after (S (S n')) = events_after (S n')).
    { unfold events_after. replace (S (S n') - 1)%nat with (S n') by lia.
      apply events_after_inner. exact Eb. }
    pose proof (events_after_below (S n') ltac:(lia)) as Hbelow.
    constructor; rewrite ?Ehist, ?Emd, ?Ech, ?Eret, ?Edbg, ?Hev.
    * rewrite upd_row_length. exact Hlen.
    * rewrite Hangles. exact Hhist'.
    * rewrite logged_changes_upd by exact Hbelow. exact Hch.
    * rewrite Hmd. f_equal.
      rewrite (events_after_inner (S n') Eb).
      replace (S n' - 1)%nat with n' by lia.
      rewrite upd_row_nth_other; [reflexivity|].
      fold (events_after (S n')) in Hbelow. unfold events_after in Hbelow.
      replace (S n' - 1)%nat with n' in Hbelow by lia. lia.
    * rewrite Hold_events by exact Hbelow. exact Hret.
    * intros k Hk. destruct (Nat.eq_dec (window_len * k) (S n')) as [E|E].
      -- exfalso. apply Eb. rewrite <- E. apply boundary_multiple.
      -- apply Hold_mean. lia.
    * intros k Hk. destruct (Nat.eq_dec (window_len * S k) (S n')) as [E|E].
      -- exfalso. apply Eb. rewrite <- E. apply boundary_multiple.
      -- apply Hold_change. lia.
Qed.

(** The invariant holds after every number of iterations. *)
Lemma trace_inv_after (stim : list sample) (n : nat) :
  (n <= length stim)%nat -> trace_inv stim n (locals_after stim n).
Proof.
  induction n as [|n IH]; intro Hn.
  - rewrite locals_after_0. apply trace_inv_init.
  - rewrite (locals_after_S stim n no_sample) by lia.
    apply trace_inv_step; [lia|]. apply IH. lia.
Qed.

(** ** The decision rule *)

Lemma np_gt_exceeds (thr : R) (c : npfloat) : np_gt thr c = true <-> exceeds thr c.
Proof.
  destruct c as [x|]; simpl.
  - destruct (Rgt_dec x thr); split; intro H; try reflexivity; try assumption;
      try discriminate; contradiction.
  - split; [discriminate|contradiction].
Qed.

Lemma below_not_exceeds (thr : R) (c : npfloat) : below thr c -> ~ exceeds thr c.
Proof. destruct c as [x|]; simpl; [lra|tauto]. Qed.

Lemma new_state_of_awake (h : list npfloat) :
  new_state_of h = 0%Z <-> exists c, In c h /\ exceeds arm_angle_threshold c.
Proof.
  unfold new_state_of, np_any_gt.
  destruct (existsb (np_gt arm_angle_threshold) h) eqn:E.
  - split; [intros _|reflexivity].
    apply existsb_exists in E. destruct E as (c & Hin & Hc).
    exists c. split; [exact Hin|]. apply np_gt_exceeds. exact Hc.
  - split; [discriminate|].
    intros (c & Hin & Hc). exfalso.
    assert (Ht : existsb (np_gt arm_angle_threshold) h = true).
    { apply existsb_exists. exists c. split; [exact Hin|]. apply np_gt_exceeds. exact Hc. }
    congruence.
Qed.

Lemma new_state_of_cases (h : list npfloat) :
  new_state_of h = 0%Z \/ new_state_of h = 1%Z.
Proof. unfold new_state_of. destruct (np_any_gt h arm_angle_threshold); auto. Qed.

Lemma new_state_of_asleep (h : list npfloat) :
  new_state_of h = 1%Z <-> forall c, In c h -> ~ exceeds arm_angle_threshold c.
Proof.
  split.
  - intros H c Hin Hc.
    assert (H0 : new_state_of h = 0%Z) by (apply new_state_of_awake; eauto).
    congruence.
  - intro H. destruct (new_state_of_cases h) as [H0|H1]; [|exact H1].
    apply new_state_of_awake in H0. destruct H0 as (c & Hin & Hc).
    exfalso. exact (H c Hin Hc).
Qed.

(** The values held by an array: those of the last [size] pushes, and zeros
    in the slots never written. *)
Lemma slots_In (size : nat) (pushed : list npfloat) (c : npfloat) :
  In c (slots size pushed) <->
  (exists j, (j < size)%nat /\ (j < length pushed)%nat /\
             nth_error pushed (length pushed - 1 - j) = Some c)
  \/ (c = Num 0 /\ (length pushed < size)%nat).
Proof.
  unfold slots. split.
  - intro H. apply In_nth_error in H. destruct H as [j Hj].
    assert (Hlt : (j < size)%nat).
    { assert (Hl : (j < length (firstn size (rev pushed ++ repeat (Num 0) size)))%nat)
        by (apply nth_error_Some; congruence).
      rewrite length_firstn in Hl. lia. }
    rewrite nth_error_firstn in Hj.
    destruct (Nat.ltb_spec j size) as [_|Hge]; [|lia].
    destruct (Nat.lt_ge_cases j (length pushed)) as [Hjl|Hjl].
    + left. exists j. split; [exact Hlt|]. split; [exact Hjl|].
      rewrite nth_error_app1 in Hj by (rewrite length_rev; exact Hjl).
      rewrite nth_error_rev in Hj.
      destruct (Nat.ltb_spec j (length pushed)) as [_|Hge]; [|lia].
      replace (length pushed - 1 - j)%nat with (length pushed - S j)%nat by lia.
      exact Hj.
    + right. rewrite nth_error_app2 in Hj by (rewrite length_rev; exact Hjl).
      apply nth_error_In, repeat_spec in Hj. split; [exact Hj|lia].
  - intros [(j & Hj & Hjl & Hn)|[-> Hlt]].
    + apply (nth_error_In _ j). rewrite nth_error_firstn.
      destruct (Nat.ltb_spec j size) as [_|Hge]; [|lia].
      rewrite nth_error_app1 by (rewrite length_rev; exact Hjl).
      rewrite nth_error_rev.
      destruct (Nat.ltb_spec j (length pushed)) as [_|Hge]; [|lia].
      replace (length pushed - S j)%nat with (length pushed - 1 - j)%nat by lia.
      exact Hn.
    + apply (nth_error_In _ (length pushed)). rewrite nth_error_firstn.
      destruct (Nat.ltb_spec (length pushed) size) as [_|Hge]; [|lia].
      rewrite nth_error_app2 by (rewrite length_rev; lia).
      rewrite length_rev, Nat.sub_diag.
      destruct size; [lia|reflexivity].
Qed.

Lemma zero_not_exceeds : ~ exceeds arm_angle_threshold (Num 0).
Proof. unfold exceeds, arm_angle_threshold. lra. Qed.

(** The state computed from an array of changes is "awake" exactly when one
    of the last [classification_hist_size] pushed changes is above the
    threshold. *)
Lemma state_awake_iff (pushed : list npfloat) :
  new_state_of (slots classification_hist_size pushed) = 0%Z <->
  exists j, (j < classification_hist_size)%nat /\ (j < length pushed)%nat /\
            exceeds arm_angle_threshold (nth (length pushed - 1 - j) pushed NaN).
Proof.
  rewrite new_state_of_awake. split.
  - intros (c & Hin & Hc). apply slots_In in Hin.
    destruct Hin as [(j & Hj & Hjl & Hn)|[-> _]].
    + exists j. split; [exact Hj|]. split; [exact Hjl|].
      rewrite (nth_error_nth _ _ NaN Hn). exact Hc.
    + exfalso. exact (zero_not_exceeds Hc).
  - intros (j & Hj & Hjl & Hc).
    exists (nth (length pushed - 1 - j) pushed NaN). split; [|exact Hc].
    apply slots_In. left. exists j. split; [exact Hj|]. split; [exact Hjl|].
    apply nth_error_nth'. lia.
Qed.

Lemma firstn_seq_le (start k m : nat) :
  (k <= m)%nat -> firstn k (seq start m) = seq start k.
Proof.
  intro H. replace m with (k + (m - k))%nat by lia.
  rewrite seq_app, firstn_app, length_seq, Nat.sub_diag.
  rewrite firstn_all2 by (rewrite length_seq; lia). apply app_nil_r.
Qed.

Lemma logged_changes_firstn (d : list dbg_row) (k m : nat) :
  (k <= m)%nat -> firstn k (logged_changes d m) = logged_changes d k.
Proof.
  intro H. unfold logged_changes. rewrite firstn_map, firstn_seq_le by exact H.
  reflexivity.
Qed.

(** The states of the events of a whole run, from the changes it logged. *)
Lemma run_states (stim : list sample) :
  length (emitted_states stim) = length (window_changes stim) /\
  forall k, (k < length (window_changes stim))%nat ->
    nth_error (emitted_states stim) k =
    Some (new_state_of (slots classification_hist_size
                          (firstn (S k) (window_changes stim)))).
Proof.
  unfold emitted_states, window_changes. rewrite locals_after_all. cbn [fst snd].
  pose proof (trace_inv_after stim (length stim) (Nat.le_refl _)) as Inv.
  rewrite (inv_ret _ _ _ Inv). cbn [tl].
  rewrite logged_changes_length, !length_map, length_seq.
  split; [reflexivity|].
  intros k Hk. rewrite logged_changes_firstn by lia.
  rewrite !nth_error_map, nth_error_seq.
  destruct (Nat.ltb_spec k (events_after (length stim))) as [_|Hge]; [|lia].
  reflexivity.
Qed.

(** ** The arm angle *)

Lemma degrees_bound (a : R) :
  - PI / 2 < a < PI / 2 -> -90 < a * 180 / PI < 90.
Proof.
  intros [Hl Hu]. pose proof PI_RGT_0 as Hpi.
  assert (E : a * 180 / PI = a * (180 / PI)) by (field; lra).
  assert (Hc : 0 < 180 / PI) by (apply Rdiv_lt_0_compat; lra).
  assert (E90 : 90 = PI / 2 * (180 / PI)) by (field; lra).
  rewrite E. split.
  - replace (-90) with (- PI / 2 * (180 / PI)) by (field; lra).
    apply Rmult_lt_compat_r; assumption.
  - rewrite E90. apply Rmult_lt_compat_r; assumption.
Qed.

Lemma ang_divisor_zero (a0 a1 a2 : R) :
  ang_divisor (a0, a1, a2) = 0 <-> a0 = 0 /\ a1 = 0.
Proof.
  unfold ang_divisor. split.
  - intro H. apply sqrt_eq_0 in H; [|nra]. split; nra.
  - intros [-> ->]. replace (0 ^ 2 + 0 ^ 2) with 0 by ring. apply sqrt_0.
Qed.

(** With a divisor other than zero the quotient is finite and the angle lies
    strictly between -90 and 90 degrees. *)
Lemma ang_finite (a0 a1 a2 : R) :
  ang_divisor (a0, a1, a2) <> 0 ->
  true_divide a2 (ang_divisor (a0, a1, a2)) = Quot (a2 / ang_divisor (a0, a1, a2)) /\
  ang (a0, a1, a2) = Num (atan (a2 / ang_divisor (a0, a1, a2)) * 180 / PI) /\
  -90 < atan (a2 / ang_divisor (a0, a1, a2)) * 180 / PI < 90.
Proof.
  intro Hd. unfold ang, true_divide.
  destruct (Req_dec_T (ang_divisor (a0, a1, a2)) 0) as [E|_]; [contradiction|].
  cbn [arctan]. split; [reflexivity|]. split; [reflexivity|].
  apply degrees_bound, atan_bound.
Qed.

(** With a zero divisor numpy's division yields an infinity or NaN, and the
    angle is 90, -90 or NaN. *)
Lemma ang_zero_divisor (a2 : R) :
  (forall q, true_divide a2 (ang_divisor (0, 0, a2)) <> Quot q) /\
  ang (0, 0, a2) =
    (if Rlt_dec 0 a2 then Num 90 else if Rlt_dec a2 0 then Num (-90) else NaN).
Proof.
  assert (E : ang_divisor (0, 0, a2) = 0) by (apply ang_divisor_zero; auto).
  pose proof PI_RGT_0 as Hpi.
  unfold ang. rewrite E. unfold true_divide.
  destruct (Req_dec_T 0 0) as [_|Hc]; [|congruence].
  destruct (Rlt_dec 0 a2); [|destruct (Rlt_dec a2 0)]; cbn [arctan];
    (split; [intros q; discriminate|]); try reflexivity; f_equal; field; lra.
Qed.

Lemma ang_diagonal (a : R) : 0 < a -> ang (a, 0, a) = Num 45.
Proof.
  intro Ha. pose proof PI_RGT_0 as Hpi.
  assert (Hd : ang_divisor (a, 0, a) = a).
  { unfold ang_divisor. replace (a ^ 2 + 0 ^ 2) with (a ^ 2) by ring.
    apply sqrt_pow2. lra. }
  destruct (ang_finite a 0 a) as (_ & E & _); [rewrite Hd; lra|].
  rewrite E, Hd. replace (a / a) with 1 by (field; lra).
  rewrite atan_1. f_equal. field. lra.
Qed.

(** ** Means *)

Lemma np_sum_zeros (n : nat) : np_sum (repeat (Num 0) n) = Num 0.
Proof.
  induction n as [|n IH]; [reflexivity|].
  simpl. fold (np_sum (repeat (Num 0) n)). rewrite IH. simpl. f_equal. ring.
Qed.

Lemma np_mean_single_then_zeros (x : R) (n : nat) :
  np_mean (Num x :: repeat (Num 0) n) = Num (x / INR (S n)).
Proof.
  unfold np_mean. cbn [np_sum fold_right]. fold (np_sum (repeat (Num 0) n)).
  rewrite np_sum_zeros. cbn [np_add length]. rewrite repeat_length.
  f_equal. f_equal. ring.
Qed.

Lemma firstn_repeat_le {A : Type} (x : A) (k n : nat) :
  (k <= n)%nat -> firstn k (repeat x n) = repeat x k.
Proof.
  revert n. induction k as [|k IH]; intros [|n] H; simpl; try reflexivity; try lia.
  f_equal. apply IH. lia.
Qed.

Lemma slots_partial (size : nat) (pushed : list npfloat) :
  (length pushed <= size)%nat ->
  slots size pushed = rev pushed ++ repeat (Num 0) (size - length pushed).
Proof.
  intro H. unfold slots. rewrite firstn_app, length_rev.
  rewrite firstn_all2 by (rewrite length_rev; exact H).
  f_equal. apply firstn_repeat_le. lia.
Qed.

Lemma logged_angles_length (d : list dbg_row) (n : nat) :
  (n <= length d)%nat -> length (logged_angles d n) = n.
Proof.
  intro H. unfold logged_angles. rewrite length_map, length_firstn. lia.
Qed.

(** The angle logged for the only sample of [one_sample_stim]. *)
Lemma one_sample_angle :
  logged_angles (snd (vanhees2015_modified one_sample_stim)) 1 = [Num 45].
Proof.
  rewrite locals_after_all. cbn [snd length one_sample_stim].
  rewrite (locals_after_S one_sample_stim 0 no_sample) by (simpl; lia).
  rewrite locals_after_0.
  pose proof (loop_body_fields (nth 0 one_sample_stim no_sample) 0
                (init_locals (length one_sample_stim))) as HF.
  cbv zeta in HF. destruct HF as (_ & _ & _ & _ & _ & F & Edbg & HFx).
  rewrite Edbg. unfold logged_angles. cbn [init_locals dbg one_sample_stim length repeat upd_row firstn map].
  destruct (HFx nan_row) as (_ & Ea & _). rewrite Ea.
  cbn [init_locals arm_angle_hist accel_avgs nth one_sample_stim].
  rewrite shift_in_hd by discriminate.
  unfold s_accel, ema_vec. cbn [s_ax s_ay s_az].
  replace (ema 0 0 eta) with 0 by (unfold ema; ring).
  rewrite ang_diagonal; [reflexivity|]. unfold ema, eta. lra.
Qed.

(** The state of event [k] of a run is "awake" exactly when one of the last
    [classification_hist_size] changes up to change [k] is above the
    threshold; otherwise it is "asleep". *)
Lemma run_state_awake_iff (stim : list sample) (k : nat) :
  (k < length (window_changes stim))%nat ->
  (nth_error (emitted_states stim) k = Some 0%Z <->
   exists j, (j < classification_hist_size)%nat /\ (j <= k)%nat /\
             exceeds arm_angle_threshold (nth (k - j) (window_changes stim) NaN)) /\
  (nth_error (emitted_states stim) k = Some 0%Z \/
   nth_error (emitted_states stim) k = Some 1%Z).
Proof.
  intro Hk. destruct (run_states stim) as [_ Hst]. rewrite (Hst k Hk).
  assert (Hlen : length (firstn (S k) (window_changes stim)) = S k)
    by (rewrite length_firstn; lia).
  assert (Hnth : forall j, (j <= k)%nat ->
            nth (S k - 1 - j) (firstn (S k) (window_changes stim)) NaN =
            nth (k - j) (window_changes stim) NaN).
  { intros j Hj. rewrite nth_firstn.
    destruct (Nat.ltb_spec (S k - 1 - j) (S k)) as [_|Hge]; [|lia].
    f_equal. lia. }
  set (l := firstn (S k) (window_changes stim)) in *.
  pose proof (state_awake_iff l) as Hiff. rewrite Hlen in Hiff.
  split.
  - split.
    + intro H. assert (H' : new_state_of (slots classification_hist_size l) = 0%Z)
        by congruence.
      apply Hiff in H'. destruct H' as (j & Hj & Hjl & Hc).
      exists j. split; [exact Hj|]. split; [lia|].
      rewrite Hnth in Hc by lia. exact Hc.
    + intros (j & Hj & Hjk & Hc). f_equal. apply Hiff.
      exists j. split; [exact Hj|]. split; [lia|].
      rewrite Hnth by lia. exact Hc.
  - destruct (new_state_of_cases (slots classification_hist_size l)) as [E|E];
      rewrite E; auto.
Qed.

(** Each logged change is the absolute difference of the means of two
    successive windows. *)
Lemma window_changes_nth (stim : list sample) (k : nat) :
  (k < length (window_changes stim))%nat ->
  nth k (window_changes stim) NaN =
  np_abs (np_sub
    (dbg_mean (nth (window_len * S k) (snd (vanhees2015_modified stim)) nan_row))
    (dbg_mean (nth (window_len * k) (snd (vanhees2015_modified stim)) nan_row))).
Proof.
  unfold window_changes. rewrite logged_changes_length. intro Hk.
  rewrite locals_after_all. cbn [snd].
  pose proof (trace_inv_after stim (length stim) (Nat.le_refl _)) as Inv.
  assert (Hlt : (window_len * S k < length stim)%nat).
  { destruct (length stim) as [|n] eqn:El.
    - unfold events_after in Hk. simpl in Hk. lia.
    - pose proof (events_after_below (S n) ltac:(lia)) as Hb.
      assert (window_len * S k <= window_len * events_after (S n))%nat
        by (apply Nat.mul_le_mono_l; lia).
      lia. }
  rewrite <- (inv_change _ _ _ Inv k Hlt).
  unfold logged_changes.
  rewrite (nth_indep _ NaN (dbg_change (nth (window_len * 0) (dbg (locals_after stim (length stim))) nan_row)))
    by (rewrite length_map, length_seq; exact Hk).
  rewrite (map_nth (fun k0 => dbg_change (nth (window_len * k0) _ nan_row))).
  rewrite seq_nth by exact Hk. reflexivity.
Qed.

(** On a stream whose samples all have [ax = 0] and [ay = 0] the smoothed
    acceleration keeps [ax = ay = 0]. *)
Lemma smoothed_stays_vertical (stim : list sample) (n : nat) :
  (forall s, In s stim -> s_ax s = 0 /\ s_ay s = 0) ->
  (n <= length stim)%nat ->
  exists a2, accel_avgs (locals_after stim n) = (0, 0, a2).
Proof.
  intros Hz. induction n as [|n IH]; intro Hn.
  - exists 0. reflexivity.
  - destruct IH as [a2 E]; [lia|].
    rewrite (locals_after_S stim n no_sample) by lia.
    pose proof (loop_body_fields (nth n stim no_sample) n (locals_after stim n)) as HF.
    cbv zeta in HF. destruct HF as (Eavgs & _). rewrite Eavgs, E.
    destruct (Hz (nth n stim no_sample)) as [Hx Hy]; [apply nth_In; lia|].
    unfold s_accel, ema_vec. rewrite Hx, Hy.
    exists (ema (s_az (nth n stim no_sample)) a2 eta).
    replace (ema 0 0 eta) with 0 by (unfold ema; ring). reflexivity.
Qed.

(** The argument of [ang] at iteration [i] is the smoothed acceleration
    after that iteration, and its result is what is logged and shifted into
    the angle window. *)
Lemma ang_called_on_smoothed (stim : list sample) (i : nat) :
  (i < length stim)%nat ->
  hd NaN (arm_angle_hist (locals_after stim (S i))) =
  ang (accel_avgs (locals_after stim (S i))).
Proof.
  intro Hi. pose proof (trace_inv_after stim i ltac:(lia)) as Inv.
  rewrite (locals_after_S stim i no_sample Hi).
  pose proof (loop_body_fields (nth i stim no_sample) i (locals_after stim i)) as HF.
  cbv zeta in HF. destruct HF as (Eavgs & Ehist & _). rewrite Eavgs, Ehist.
  apply shift_in_hd. rewrite (inv_hist _ _ _ Inv). intro Hc.
  apply (f_equal (@length npfloat)) in Hc. rewrite slots_length in Hc.
  pose proof window_len_pos. simpl in Hc. lia.
Qed.

(** The times of the events of a whole run. *)
Lemma event_times (stim : list sample) :
  map ev_t (fst (vanhees2015_modified stim)) =
  0 :: map (fun k => s_t (nth (window_len * k) stim no_sample))
           (seq 1 ((length stim - 1) / window_len)).
Proof.
  rewrite locals_after_all. cbn [fst].
  rewrite (inv_ret _ _ _ (trace_inv_after stim (length stim) (Nat.le_refl _))).
  cbn [map ev_t]. f_equal. rewrite map_map. reflexivity.
Qed.

(** One change is logged per boundary after the first. *)
Lemma window_changes_length (stim : list sample) :
  length (window_changes stim) = ((length stim - 1) / window_len)%nat.
Proof. unfold window_changes. apply logged_changes_length. Qed.

(** A row of [dbg] is written by the iteration of its index and by no later
    one. *)
Lemma dbg_row_stable (stim : list sample) (i n : nat) :
  (i < n)%nat -> (n <= length stim)%nat ->
  nth i (dbg (locals_after stim n)) nan_row =
  nth i (dbg (locals_after stim (S i))) nan_row.
Proof.
  intros Hi Hn. induction n as [|n IH]; [lia|].
  destruct (Nat.eq_dec i n) as [->|Hne]; [reflexivity|].
  rewrite <- IH by lia.
  rewrite (locals_after_S stim n no_sample) by lia.
  pose proof (loop_body_fields (nth n stim no_sample) n (locals_after stim n)) as HF.
  cbv zeta in HF. destruct HF as (_ & _ & _ & _ & _ & F & Edbg & _).
  rewrite Edbg. apply upd_row_nth_other. exact Hne.
Qed.

(** The angle logged in row [i] is [ang] of the smoothed acceleration after
    call [i]. *)
Lemma logged_angle_is_ang (stim : list sample) (i : nat) :
  (i < length stim)%nat ->
  dbg_angle (nth i (snd (vanhees2015_modified stim)) nan_row) =
  ang (accel_avgs (locals_after stim (S i))).
Proof.
  intro Hi. rewrite locals_after_all. cbn [snd].
  rewrite (dbg_row_stable stim i (length stim)) by lia.
  rewrite <- (ang_called_on_smoothed stim i Hi).
  pose proof (trace_inv_after stim (S i) ltac:(lia)) as Inv.
  rewrite (inv_hist _ _ _ Inv).
  assert (Hl : (i < length (dbg (locals_after stim (S i))))%nat)
    by (rewrite (inv_dbg_len _ _ _ Inv); exact Hi).
  unfold logged_angles. rewrite (firstn_S_nth i _ nan_row Hl), map_app.
  cbn [map]. unfold slots. rewrite rev_app_distr. cbn [rev app].
  pose proof window_len_pos as HW.
  destruct window_len as [|w]; [lia|]. reflexivity.
Qed.

Lemma logged_angles_nth (d : list dbg_row) (n k : nat) :
  (k < n)%nat -> nth k (logged_angles d n) NaN = dbg_angle (nth k d nan_row).
Proof.
  intro Hk. unfold logged_angles.
  change NaN with (dbg_angle nan_row) at 1. rewrite map_nth, nth_firstn.
  destruct (Nat.ltb_spec k n) as [_|Hge]; [reflexivity|lia].
Qed.

(** ** A run on an upright, resting arm *)

(** The smoothed acceleration stays on the z axis, above 0. *)
Lemma upright_avgs (m n : nat) :
  (n <= m)%nat ->
  exists a2, accel_avgs (locals_after (repeat upright m) n) = (0, 0, a2) /\
             0 <= a2 <= 1 /\ ((0 < n)%nat -> 0 < a2).
Proof.
  induction n as [|n IH]; intro Hn.
  - exists 0. split; [reflexivity|]. split; [lra|lia].
  - destruct IH as (a2 & E & Hb & _); [lia|].
    rewrite (locals_after_S _ n no_sample) by (rewrite repeat_length; lia).
    pose proof (loop_body_fields (nth n (repeat upright m) no_sample) n
                  (locals_after (repeat upright m) n)) as HF.
    cbv zeta in HF. destruct HF as (Eavgs & _). rewrite Eavgs, E.
    rewrite nth_repeat_lt by lia.
    exists (ema 1 a2 eta). unfold s_accel, ema_vec, upright. cbn [s_ax s_ay s_az].
    replace (ema 0 0 eta) with 0 by (unfold ema; ring).
    split; [reflexivity|]. unfold ema, eta. split; [|intros _]; nra.
Qed.

(** Every logged angle is 90 degrees (numpy divides by zero and takes the
    arc tangent of infinity). *)
Lemma upright_angles (n : nat) :
  (n <= 51)%nat ->
  logged_angles (snd (vanhees2015_modified still_upright)) n = repeat (Num 90) n.
Proof.
  intro Hn.
  assert (Hlen : length (snd (vanhees2015_modified still_upright)) = 51%nat).
  { rewrite locals_after_all. cbn [snd].
    rewrite (inv_dbg_len _ _ _ (trace_inv_after still_upright _ (Nat.le_refl _))).
    apply repeat_length. }
  apply (nth_ext _ _ NaN NaN).
  - rewrite logged_angles_length, repeat_length by lia. reflexivity.
  - intros k Hk. rewrite logged_angles_length in Hk by lia.
    rewrite logged_angles_nth by exact Hk.
    rewrite nth_repeat_lt by exact Hk.
    rewrite logged_angle_is_ang by (unfold still_upright; rewrite repeat_length; lia).
    destruct (upright_avgs 51 (S k) ltac:(lia)) as (a2 & E & _ & Hpos).
    unfold still_upright. rewrite E.
    destruct (ang_zero_divisor a2) as [_ Ea]. rewrite Ea.
    destruct (Rlt_dec 0 a2) as [_|Hc]; [reflexivity|].
    exfalso. apply Hc, Hpos. lia.
Qed.

Lemma np_sum_repeat (x : R) (n : nat) :
  np_sum (repeat (Num x) n) = Num (INR n * x).
Proof.
  induction n as [|n IH].
  - simpl. f_equal. ring.
  - rewrite S_INR. cbn [repeat np_sum fold_right].
    fold (np_sum (repeat (Num x) n)). rewrite IH. cbn [np_add]. f_equal. ring.
Qed.

Lemma np_mean_repeat (x : R) (n : nat) :
  np_mean (repeat (Num x) (S n)) = Num x.
Proof.
  unfold np_mean. rewrite np_sum_repeat, repeat_length. cbn [repeat].
  f_equal. field. apply not_0_INR. discriminate.
Qed.

(** On 51 samples of an upright, resting arm the only change logged is
    [|90 - 90/50|]: the first window mean is taken over one angle of 90 and
    49 slots still at 0. *)
Lemma upright_change :
  window_changes still_upright = [Num (Rabs (90 - 90 / 50))].
Proof.
  pose proof (window_changes_length still_upright) as Hlen.
  change ((length still_upright - 1) / window_len)%nat with 1%nat in Hlen.
  destruct (window_changes still_upright) as [|c [|c' l]] eqn:E; try discriminate.
  f_equal.
  pose proof (window_changes_nth still_upright 0) as Hc.
  rewrite E in Hc. cbn [nth length] in Hc. rewrite Hc by lia. clear Hc.
  pose proof (trace_inv_after still_upright 51 (Nat.le_refl _)) as Inv.
  assert (Hd : snd (vanhees2015_modified still_upright) =
               dbg (locals_after still_upright 51)).
  { rewrite locals_after_all. reflexivity. }
  rewrite Hd.
  rewrite (inv_mean _ _ _ Inv 1%nat) by (change (window_len * 1)%nat with 50%nat; lia).
  rewrite (inv_mean _ _ _ Inv 0%nat) by (change (window_len * 0)%nat with 0%nat; lia).
  rewrite <- Hd.
  change (S (window_len * 1)) with 51%nat. change (S (window_len * 0)) with 1%nat.
  rewrite !upright_angles by lia.
  rewrite (slots_full window_len (repeat (Num 90) 51))
    by (rewrite repeat_length; change window_len with 50%nat; lia).
  rewrite rev_repeat, firstn_repeat_le by (change window_len with 50%nat; lia).
  change (slots window_len (repeat (Num 90) 1)) with (Num 90 :: repeat (Num 0) 49).
  change window_len with 50%nat.
  rewrite np_mean_repeat, np_mean_single_then_zeros.
  cbn [np_sub np_abs]. do 3 f_equal. rewrite INR_IZR_INZ. simpl. lra.
Qed.

(** ** What the theorems about one call need *)

Lemma nth_error_shift_in_0 {A : Type} (x : A) (h : list A) :
  h <> [] -> nth_error (shift_in x h) 0 = Some x.
Proof. destruct h; [congruence|reflexivity]. Qed.

Lemma nth_error_shift_in_S {A : Type} (x : A) (h : list A) (k : nat) :
  (S k < length h)%nat -> nth_error (shift_in x h) (S k) = nth_error h k.
Proof.
  intro Hk. destruct h as [|a h]; [simpl in Hk; lia|].
  unfold shift_in. cbn [nth_error].
  rewrite removelast_firstn_len, nth_error_firstn.
  assert (E : (k <? Init.Nat.pred (length (a :: h)))%nat = true)
    by (apply Nat.ltb_lt; simpl in *; lia).
  rewrite E. reflexivity.
Qed.

(** The sum and the mean of an array of numbers. *)
Lemma np_sum_nums (xs : list R) : np_sum (map Num xs) = Num (fold_right Rplus 0 xs).
Proof.
  induction xs as [|x xs IH]; [reflexivity|].
  cbn [map fold_right]. change (np_sum (Num x :: map Num xs))
    with (np_add (Num x) (np_sum (map Num xs))).
  rewrite IH. reflexivity.
Qed.

Lemma np_mean_nums (xs : list R) :
  xs <> [] ->
  np_mean (map Num xs) = Num (fold_right Rplus 0 xs / INR (length xs)).
Proof.
  intro Hne. unfold np_mean. rewrite np_sum_nums, length_map.
  destruct xs; [congruence|reflexivity].
Qed.

(** The result of [ang] is never outside [-90, 90] and has the sign of the
    z axis. *)
Lemma ang_closed_range (a0 a1 a2 a : R) :
  ang (a0, a1, a2) = Num a ->
  -90 <= a <= 90 /\ (0 <= a2 -> 0 <= a) /\ (a2 <= 0 -> a <= 0).
Proof.
  intro H. pose proof PI_RGT_0 as Hpi.
  destruct (Req_dec_T (ang_divisor (a0, a1, a2)) 0) as [Hd|Hd].
  - apply ang_divisor_zero in Hd. destruct Hd as [-> ->].
    destruct (ang_zero_divisor a2) as [_ E]. rewrite E in H.
    destruct (Rlt_dec 0 a2); [|destruct (Rlt_dec a2 0)];
      try discriminate; injection H as <-; repeat split; intros; lra.
  - destruct (ang_finite a0 a1 a2 Hd) as (_ & E & Hb).
    assert (Hpos : 0 < ang_divisor (a0, a1, a2)).
    { pose proof (sqrt_pos (a0 ^ 2 + a1 ^ 2)) as Hs. unfold ang_divisor in *. lra. }
    revert E Hb Hpos. generalize (ang_divisor (a0, a1, a2)) as d. intros d E Hb Hpos.
    assert (Ea : a = atan (a2 / d) * 180 / PI) by congruence.
    subst a. clear H E.
    split; [destruct Hb as [Hl Hu]; split; apply Rlt_le; assumption|].
    assert (Hk : 0 < 180 / PI) by (apply Rdiv_lt_0_compat; lra).
    replace (atan (a2 / d) * 180 / PI) with (atan (a2 / d) * (180 / PI)) by (field; lra).
    assert (Hi : 0 < / d) by (apply Rinv_0_lt_compat; exact Hpos).
    split; intro Hs.
    + assert (Hq : 0 <= a2 / d) by (apply Rmult_le_pos; [exact Hs|left; exact Hi]).
      assert (Ha : 0 <= atan (a2 / d)).
      { destruct Hq as [Hq|Hq]; [left; rewrite <- atan_0; apply atan_increasing; exact Hq|].
        rewrite <- Hq, atan_0. lra. }
      apply Rmult_le_pos; [exact Ha|left; exact Hk].
    + assert (Hq : a2 / d <= 0).
      { unfold Rdiv. revert Hi. generalize (/ d) as u. intros u Hi. nra. }
      assert (Ha : atan (a2 / d) <= 0).
      { destruct Hq as [Hq|Hq]; [left; rewrite <- atan_0; apply atan_increasing; exact Hq|].
        rewrite Hq, atan_0. lra. }
      revert Ha Hk. generalize (atan (a2 / d)) as t, (180 / PI) as k. intros t k Ha Hk. nra.
Qed.

Lemma ang_nan (a0 a1 a2 : R) : ang (a0, a1, a2) = NaN -> a2 = 0.
Proof.
  intro H. destruct (Req_dec_T (ang_divisor (a0, a1, a2)) 0) as [Hd|Hd].
  - apply ang_divisor_zero in Hd. destruct Hd as [-> ->].
    destruct (ang_zero_divisor a2) as [_ E]. rewrite E in H.
    destruct (Rlt_dec 0 a2); [discriminate|]. destruct (Rlt_dec a2 0); [discriminate|]. lra.
  - destruct (ang_finite a0 a1 a2 Hd) as (_ & E & _). rewrite E in H. discriminate.
Qed.

Lemma ang_vertical (a2 : R) :
  (0 < a2 -> ang (0, 0, a2) = Num 90) /\
  (a2 < 0 -> ang (0, 0, a2) = Num (-90)) /\
  (a2 = 0 -> ang (0, 0, a2) = NaN).
Proof.
  destruct (ang_zero_divisor a2) as [_ E]. rewrite E.
  destruct (Rlt_dec 0 a2); [|destruct (Rlt_dec a2 0)]; repeat split; intros;
    try reflexivity; lra.
Qed.

End ClassifierLemmas.

(* ================================================================== *)
(** * Properties of the resampler *)
(* ================================================================== *)

Section ResamplerProperties.
Local Open Scope Q_scope.

(** C5: the grid is not spaced by [1/fs].  On three accelerometer rows at
    0, 0.125 and 0.25 s (and two label rows) the code computes
    [N = floor(2.5) = 2] and returns the grid
    [np.linspace(0, 0.2, 2) = [0, 0.2]]: its second point is not
    [t[0] + 1/fs = 0.1]. *)
Theorem grid_spacing_drifts :
  N_of drift_accel = 2%Z /\
  exists r0 r1,
    stimuli drift_accel drift_truth = inr [r0; r1] /\
    r_t r0 == 0 /\ r_t r1 == 2 # 10 /\
    ~ r_t r1 == r_t r0 + inject_Z 1 / fs_hz.
Proof.
  split; [vm_compute; reflexivity|].
  eexists. eexists. split; [vm_compute; reflexivity|].
  cbn [r_t]. split; [reflexivity|]. split; [reflexivity|].
  intro Hc. vm_compute in Hc. discriminate.
Qed.




(** C7: in the output of [stimuli] the label of the first row is the label
    of the first row of the label stream, whatever its time; the label of
    row [i >= 1] is the label of the last row of the label stream whose time
    is strictly below the grid time [t[i]] (the most recent one: no row of
    a time-ordered label stream with a time below [t[i]] is later); so every
    output label is a label of the label stream. *)
Theorem labels_zero_order_hold
    (accel : list accel_row) (truth : list truth_row) (out : list stim_row) :
  stimuli accel truth = inr out ->
  (exists truth0 truth' row0 rows,
     truth = truth0 :: truth' /\ out = row0 :: rows /\
     r_truth row0 = l_label truth0) /\
  (forall i row, (1 <= i)%nat -> nth_error out i = Some row ->
     r_t row = nth i (time_grid accel) 0 /\
     exists j r,
       last_before truth (r_t row) j r /\ r_truth row = l_label r /\
       (sorted_by_time truth ->
        forall r', In r' truth -> l_t r' < r_t row -> l_t r' <= l_t r)) /\
  (forall row, In row out -> exists r, In r truth /\ r_truth row = l_label r).
Proof.
  intro H.
  destruct (stimuli_labels _ _ _ H) as (truth0 & truth' & Et & Hlab).
  destruct (stimuli_inr _ _ _ H) as (_ & HN & _).
  destruct (stimuli_rows _ _ _ H) as (_ & _ & _ & _ & _ & Hlen & _).
  split; [|split].
  - destruct out as [|row0 rows]; [simpl in Hlen; lia|].
    exists truth0, truth', row0, rows. split; [exact Et|]. split; [reflexivity|].
    apply (Hlab 0%nat row0 eq_refl).
  - intros i row Hi Hrow. destruct (Hlab i row Hrow) as [Ht Hl].
    split; [exact Ht|]. destruct i as [|i]; [lia|].
    destruct Hl as (j & r & Hlast & Hl). exists j, r.
    split; [exact Hlast|]. split; [exact Hl|].
    intros Hsorted r' Hin Hlt. destruct Hlast as (Hj & _ & Hmax).
    apply In_nth_error in Hin. destruct Hin as [j' Hj'].
    destruct (Nat.le_gt_cases j' j) as [Hle|Hgt].
    + exact (Hsorted j' j r' r Hle Hj' Hj).
    + exfalso. exact (Hmax j' r' Hgt Hj' Hlt).
  - intros row Hin. apply In_nth_error in Hin. destruct Hin as [i Hrow].
    destruct (Hlab i row Hrow) as [_ Hl]. destruct i as [|i].
    + exists truth0. split; [rewrite Et; left; reflexivity|exact Hl].
    + destruct Hl as (j & r & (Hj & _) & Hl). exists r.
      split; [eapply nth_error_In; exact Hj|exact Hl].
Qed.

Lemma labels_zero_order_hold_witness :
  exists j r,
    last_before hold_truth (r_t (nth 3 hold_out (mk_stim 0 0 0 0 0))) j r /\
    r_truth (nth 3 hold_out (mk_stim 0 0 0 0 0)) = l_label r.
Proof.
  assert (E : stimuli hold_accel hold_truth = inr hold_out) by (vm_compute; reflexivity).
  destruct (labels_zero_order_hold hold_accel hold_truth hold_out E) as (_ & H & _).
  destruct (H 3%nat (nth 3 hold_out (mk_stim 0 0 0 0 0)) ltac:(lia) eq_refl)
    as (_ & j & r & Hl & He & _).
  exists j, r. split; [exact Hl|exact He].
Defined.



End ResamplerProperties.

(* ================================================================== *)
(** * Properties of the classifier *)
(* ================================================================== *)

Section ClassifierProperties.
Local Open Scope R_scope.

(** C9: for every input stream the first element of the event sequence that
    the classifier returns is the seed [{t: 0, state: 0}]; it is in [ret]
    before the loop starts, that is before any classification. *)
Theorem seed_event_first (stim : list sample) :
  ret (init_locals (length stim)) = [mk_event 0 0] /\
  exists events, fst (vanhees2015_modified stim) = mk_event 0 0 :: events.
Proof.
  split; [reflexivity|].
  rewrite locals_after_all. cbn [fst].
  rewrite (inv_ret _ _ _ (trace_inv_after stim (length stim) (Nat.le_refl _))).
  eexists. reflexivity.
Qed.

(** C1: at a window boundary of a run ([i mod (fs * seconds_per_update) = 0])
    where the previous window mean is set, the loop computes the change as
    the absolute value of the difference between the mean of the angle
    window and the previous mean (NaN when one of them is), stores it in
    slot 0 of the history of changes after moving every entry one slot up,
    the oldest one out, and appends exactly one event: its time is the time
    of the current sample, its state is 0 (awake) when some entry of the
    history is above the threshold and 1 (asleep) otherwise.  The window mean
    is the sum of the [fs * seconds_per_update] slots of the angle window
    divided by their number, and becomes the previous mean. *)
Theorem boundary_classification
    (stim : list sample) (i : nat) (prev_window_mean : npfloat) :
  (i < length stim)%nat ->
  (i mod (fs * seconds_per_update) = 0)%nat ->
  arm_angle_mean_d (locals_after stim i) = Some prev_window_mean ->
  let st := locals_after stim i in
  let st' := locals_after stim (S i) in
  let window_mean := np_mean (arm_angle_hist st') in
  exists change state,
    (forall m p, window_mean = Num m -> prev_window_mean = Num p ->
       change = Num (Rabs (m - p))) /\
    (window_mean = NaN \/ prev_window_mean = NaN -> change = NaN) /\
    (forall xs, arm_angle_hist st' = map Num xs ->
       window_mean = Num (fold_right Rplus 0 xs / 50)) /\
    length (arm_angle_change_hist st) = classification_hist_size /\
    length (arm_angle_change_hist st') = classification_hist_size /\
    nth_error (arm_angle_change_hist st') 0 = Some change /\
    (forall k, (S k < classification_hist_size)%nat ->
       nth_error (arm_angle_change_hist st') (S k) =
       nth_error (arm_angle_change_hist st) k) /\
    arm_angle_mean_d st' = Some window_mean /\
    ret st' = ret st ++ [mk_event (s_t (nth i stim no_sample)) state] /\
    (state = 0%Z <->
     exists c, In c (arm_angle_change_hist st') /\ exceeds arm_angle_threshold c) /\
    (state = 1%Z <->
     forall c, In c (arm_angle_change_hist st') -> ~ exceeds arm_angle_threshold c).
Proof.
  intros Hi Hb Hd. cbv zeta.
  pose proof (trace_inv_after stim i ltac:(lia)) as Inv.
  pose proof (trace_inv_after stim (S i) ltac:(lia)) as Inv'.
  assert (Hlen : length (arm_angle_change_hist (locals_after stim i)) =
                 classification_hist_size)
    by (rewrite (inv_changes _ _ _ Inv); apply slots_length).
  assert (Hlen' : length (arm_angle_change_hist (locals_after stim (S i))) =
                  classification_hist_size)
    by (rewrite (inv_changes _ _ _ Inv'); apply slots_length).
  assert (Hwin : length (arm_angle_hist (locals_after stim (S i))) = 50%nat)
    by (rewrite (inv_hist _ _ _ Inv'); apply slots_length).
  revert Hlen' Hwin. rewrite (locals_after_S stim i no_sample Hi). intros Hlen' Hwin.
  pose proof (loop_body_fields (nth i stim no_sample) i (locals_after stim i)) as HF.
  cbv zeta in HF. destruct HF as (_ & Ehist & Emd & Ech & Eret & _).
  fold window_len in Hb. apply Nat.eqb_eq in Hb.
  rewrite Hb in Emd, Ech, Eret. rewrite Hd in Ech, Eret.
  rewrite <- Ehist in Emd, Ech, Eret.
  set (st' := loop_body (nth i stim no_sample) i (locals_after stim i)) in *.
  set (window_mean := np_mean (arm_angle_hist st')) in *.
  exists (np_abs (np_sub window_mean prev_window_mean)).
  eexists.
  split; [intros m p -> ->; reflexivity|].
  split; [intros [-> | ->]; [reflexivity|destruct window_mean; reflexivity]|].
  split.
  { intros xs Exs. unfold window_mean. rewrite Exs in Hwin |- *.
    rewrite length_map in Hwin.
    rewrite np_mean_nums by (intro Hc; rewrite Hc in Hwin; discriminate).
    rewrite Hwin. do 2 f_equal. simpl. lra. }
  split; [exact Hlen|]. split; [exact Hlen'|].
  assert (Hne : arm_angle_change_hist (locals_after stim i) <> [])
    by (intro Hc; rewrite Hc in Hlen; discriminate).
  split; [rewrite Ech; apply nth_error_shift_in_0; exact Hne|].
  split; [intros k Hk; rewrite Ech; apply nth_error_shift_in_S; rewrite Hlen; exact Hk|].
  split; [exact Emd|]. split; [exact Eret|]. rewrite <- Ech.
  split; [apply new_state_of_awake|apply new_state_of_asleep].
Qed.

Lemma boundary_classification_witness :
  exists state,
    ret (locals_after still_upright 51) =
    ret (locals_after still_upright 50)
    ++ [mk_event (s_t (nth 50 still_upright no_sample)) state].
Proof.
  assert (Hi : (50 < length still_upright)%nat)
    by (unfold still_upright; rewrite repeat_length; lia).
  pose proof (inv_mean_d _ _ _ (trace_inv_after still_upright 50 ltac:(lia))) as Hd.
  destruct (boundary_classification still_upright 50 _ Hi eq_refl Hd)
    as (change & state & _ & _ & _ & _ & _ & _ & _ & _ & Hret & _).
  exists state. exact Hret.
Defined.
(** C3: the loop classifies exactly once every [window_len] (that is
    [fs * seconds_per_update]) ingested samples.  The events after the seed
    carry the times of the samples [window_len], [2 * window_len], ... of the
    stream, in this order, one for each such sample and no other.  Call [i]
    is a window boundary exactly when [i mod window_len = 0], the first call
    included: there the window mean is stored.  A call that is not a boundary
    appends no event and leaves the stored mean alone; the boundary at call 0
    only stores the mean; every later boundary appends exactly one event with
    the time of its sample.  So after call [i] the sequence holds the seed
    and [i / window_len] events. *)
Theorem event_cadence (stim : list sample) :
  map ev_t (fst (vanhees2015_modified stim)) =
    0 :: map (fun k => s_t (nth (window_len * k) stim no_sample))
             (seq 1 ((length stim - 1) / window_len)) /\
  forall i, (i < length stim)%nat ->
    let before := locals_after stim i in
    let after := locals_after stim (S i) in
    ((i mod window_len <> 0)%nat ->
       ret after = ret before /\ arm_angle_mean_d after = arm_angle_mean_d before) /\
    ((i mod window_len = 0)%nat ->
       arm_angle_mean_d after = Some (np_mean (arm_angle_hist after)) /\
       (i = 0%nat -> ret after = ret before) /\
       ((0 < i)%nat ->
          exists state,
            ret after = ret before ++ [mk_event (s_t (nth i stim no_sample)) state])) /\
    length (ret after) = S (i / window_len).
Proof.
  split; [apply event_times|].
  intros i Hi. cbv zeta.
  pose proof (trace_inv_after stim i ltac:(lia)) as Inv.
  pose proof (trace_inv_after stim (S i) ltac:(lia)) as Inv'.
  rewrite (locals_after_S stim i no_sample Hi) in *.
  pose proof (loop_body_fields (nth i stim no_sample) i (locals_after stim i)) as HF.
  cbv zeta in HF. destruct HF as (_ & Ehist & Emd & _ & Eret & _).
  split; [|split].
  - intro Hb. apply Nat.eqb_neq in Hb. rewrite Hb in Emd, Eret.
    rewrite app_nil_r in Eret. split; assumption.
  - intro Hb. apply Nat.eqb_eq in Hb. rewrite Hb in Emd, Eret.
    rewrite Ehist. split; [exact Emd|]. split.
    + intros ->. rewrite (inv_mean_d _ _ _ Inv) in Eret.
      rewrite app_nil_r in Eret. exact Eret.
    + intro Hpos. rewrite (inv_mean_d _ _ _ Inv) in Eret.
      destruct i as [|i']; [lia|]. eexists. exact Eret.
  - rewrite (inv_ret _ _ _ Inv'). cbn [length].
    rewrite length_map, length_seq. unfold events_after.
    replace (S i - 1)%nat with i by lia. reflexivity.
Qed.

Lemma event_cadence_witness :
  length (ret (locals_after (repeat no_sample 51) 51)) = 2%nat.
Proof.
  assert (H : (50 < length (repeat no_sample 51))%nat) by (rewrite repeat_length; lia).
  destruct (event_cadence (repeat no_sample 51)) as [_ Hcall].
  destruct (Hcall 50%nat H) as (_ & _ & E).
  exact E.
Defined.

(** C4 (as amended): at every window boundary the window mean is the mean
    over all [window_len] slots of the angle window, where a slot that no
    angle has been shifted into yet holds its initial 0.  The angles pushed
    up to call [i] are [ang] of the smoothed acceleration after each call.
    Once [window_len] samples are ingested the window holds the last
    [window_len] angles and nothing else; before that (the boundary at the
    first sample) it holds the angles pushed so far followed by zeros. *)
Theorem window_mean_over_all_slots (stim : list sample) (i : nat) :
  (i < length stim)%nat -> (i mod window_len = 0)%nat ->
  let d := snd (vanhees2015_modified stim) in
  let pushed := logged_angles d (S i) in
  dbg_mean (nth i d nan_row) = np_mean (slots window_len pushed) /\
  (forall k, (k <= i)%nat ->
     nth k pushed NaN = ang (accel_avgs (locals_after stim (S k)))) /\
  length (slots window_len pushed) = window_len /\
  ((window_len <= S i)%nat ->
     slots window_len pushed = firstn window_len (rev pushed)) /\
  ((S i <= window_len)%nat ->
     slots window_len pushed = rev pushed ++ repeat (Num 0) (window_len - S i)).
Proof.
  intros Hi Hb. cbv zeta. rewrite locals_after_all. cbn [snd].
  pose proof (trace_inv_after stim (length stim) (Nat.le_refl _)) as Inv.
  set (d := dbg (locals_after stim (length stim))) in *.
  assert (Hlen : length (logged_angles d (S i)) = S i).
  { apply logged_angles_length. unfold d. rewrite (inv_dbg_len _ _ _ Inv). lia. }
  assert (Hidx : (window_len * (i / window_len) = i)%nat).
  { pose proof (Nat.div_mod_eq i window_len). lia. }
  split; [|split; [|split; [|split]]].
  - rewrite <- Hidx at 1 2. apply (inv_mean _ _ _ Inv). rewrite Hidx. exact Hi.
  - intros k Hk. rewrite logged_angles_nth by lia.
    rewrite <- (logged_angle_is_ang stim k) by lia.
    rewrite locals_after_all. reflexivity.
  - apply slots_length.
  - intro H. apply slots_full. lia.
  - intro H. rewrite slots_partial by lia. rewrite Hlen. reflexivity.
Qed.

Lemma window_mean_over_all_slots_witness :
  dbg_mean (nth 0 (snd (vanhees2015_modified one_sample_stim)) nan_row) =
  np_mean (slots window_len (logged_angles (snd (vanhees2015_modified one_sample_stim)) 1)).
Proof.
  assert (H : (0 < length one_sample_stim)%nat) by (simpl; lia).
  destruct (window_mean_over_all_slots one_sample_stim 0 H eq_refl) as (E & _).
  exact E.
Defined.

(** C4, refuted as stated: at the boundary of the first sample one angle (45
    degrees) has been pushed, so the mean of the pushed values is 45; the
    window mean is 45/50, the sum over all 50 slots divided by 50. *)
Lemma window_mean_counts_unwritten_slots :
  np_mean (logged_angles (snd (vanhees2015_modified one_sample_stim)) 1) = Num 45 /\
  dbg_mean (nth 0 (snd (vanhees2015_modified one_sample_stim)) nan_row) = Num (45 / 50) /\
  dbg_mean (nth 0 (snd (vanhees2015_modified one_sample_stim)) nan_row) <>
  np_mean (logged_angles (snd (vanhees2015_modified one_sample_stim)) 1).
Proof.
  assert (Hm : dbg_mean (nth 0 (snd (vanhees2015_modified one_sample_stim)) nan_row)
               = Num (45 / 50)).
  { assert (H : (0 < length one_sample_stim)%nat) by (simpl; lia).
    pose proof (trace_inv_after one_sample_stim 1 (Nat.le_refl _)) as Inv.
    pose proof (inv_mean _ _ _ Inv 0%nat ltac:(lia)) as E.
    rewrite Nat.mul_0_r in E.
    rewrite locals_after_all. cbn [snd]. change (length one_sample_stim) with 1%nat.
    rewrite E. pose proof one_sample_angle as Ha.
    rewrite locals_after_all in Ha. cbn [snd] in Ha.
    change (length one_sample_stim) with 1%nat in Ha. rewrite Ha.
    change (slots window_len [Num 45]) with (Num 45 :: repeat (Num 0) 49).
    rewrite np_mean_single_then_zeros. f_equal. rewrite INR_IZR_INZ. simpl. lra. }
  rewrite Hm, one_sample_angle.
  assert (H45 : np_mean [Num 45] = Num 45).
  { unfold np_mean. simpl. f_equal. lra. }
  rewrite H45. split; [reflexivity|]. split; [reflexivity|].
  intro Hc. injection Hc as Hc. lra.
Qed.

(** C2: for every input stream, with [cs] the window-to-window changes in
    order (each the absolute difference of the means of two successive
    windows) and [ss] the states of the events after the seed: there is one
    state per change, one change per [window_len] samples after the first;
    once [classification_hist_size] consecutive changes are
    below the threshold the emitted state is 1 (asleep); when a change above
    the threshold is pushed the state emitted with it is 0 (awake), the states
    of the [classification_hist_size - 1] windows after it are 0 whatever
    their changes, and when the [classification_hist_size] windows after it
    all have changes below the threshold the last of them emits 1 again. *)
Theorem hysteresis (stim : list sample) :
  let cs := window_changes stim in
  let ss := emitted_states stim in
  let H := classification_hist_size in
  let thr := arm_angle_threshold in
  length ss = length cs /\
  length cs = ((length stim - 1) / window_len)%nat /\
  (forall k, (k < length cs)%nat ->
     nth k cs NaN =
     np_abs (np_sub
       (dbg_mean (nth (window_len * S k) (snd (vanhees2015_modified stim)) nan_row))
       (dbg_mean (nth (window_len * k) (snd (vanhees2015_modified stim)) nan_row)))) /\
  (forall k, (H <= S k)%nat -> (k < length cs)%nat ->
     (forall j, (j < H)%nat -> below thr (nth (k - j) cs NaN)) ->
     nth_error ss k = Some 1%Z) /\
  (forall k, (k < length cs)%nat -> exceeds thr (nth k cs NaN) ->
     nth_error ss k = Some 0%Z /\
     (forall j, (j < H)%nat -> (k + j < length cs)%nat ->
        nth_error ss (k + j) = Some 0%Z) /\
     ((k + H < length cs)%nat ->
      (forall j, (1 <= j <= H)%nat -> below thr (nth (k + j) cs NaN)) ->
      nth_error ss (k + H) = Some 1%Z)).
Proof.
  cbv zeta. split; [apply run_states|]. split; [apply window_changes_length|].
  split; [apply window_changes_nth|]. split.
  - intros k HH Hk Hbelow.
    destruct (run_state_awake_iff stim k Hk) as [Hiff [H0|H1]]; [|exact H1].
    exfalso. apply Hiff in H0. destruct H0 as (j & Hj & _ & Hc).
    exact (below_not_exceeds _ _ (Hbelow j Hj) Hc).
  - intros k Hk Hex.
    assert (Hnext : forall j, (j < classification_hist_size)%nat ->
              (k + j < length (window_changes stim))%nat ->
              nth_error (emitted_states stim) (k + j) = Some 0%Z).
    { intros j Hj Hkj. apply (run_state_awake_iff stim (k + j) Hkj).
      exists j. split; [exact Hj|]. split; [lia|].
      replace (k + j - j)%nat with k by lia. exact Hex. }
    split; [|split].
    + rewrite <- (Nat.add_0_r k) at 1. apply Hnext; [|lia].
      unfold classification_hist_size. lia.
    + exact Hnext.
    + intros HkH Hbelow.
      destruct (run_state_awake_iff stim (k + classification_hist_size) HkH)
        as [Hiff [H0|H1]]; [|exact H1].
      exfalso. apply Hiff in H0. destruct H0 as (j & Hj & _ & Hc).
      assert (Hb : below arm_angle_threshold
                 (nth (k + (classification_hist_size - j)) (window_changes stim) NaN))
        by (apply Hbelow; lia).
      replace (k + classification_hist_size - j)%nat
        with (k + (classification_hist_size - j))%nat in Hc by lia.
      exact (below_not_exceeds _ _ Hb Hc).
Qed.

Lemma hysteresis_witness : emitted_states still_upright = [0%Z].
Proof.
  pose proof (hysteresis still_upright) as H. cbv zeta in H.
  destruct H as (Hlen & _ & _ & _ & Hflip).
  rewrite upright_change in Hlen, Hflip.
  destruct (Hflip 0%nat) as (H0 & _).
  - simpl. lia.
  - cbn [nth]. unfold exceeds, arm_angle_threshold.
    rewrite Rabs_right by lra. lra.
  - destruct (emitted_states still_upright) as [|s [|s' l]]; try discriminate.
    injection H0 as ->. reflexivity.
Defined.

(** C10, refuted as stated: a smoothed [(ax, ay)] other than [(0, 0)] does
    not make the division safe.  After the first sample of a stream with
    [ax = 2^-600] and [ay = 0] the smoothed x axis is a non-zero float64 and
    the smoothed y axis is 0, yet the square of the x axis underflows to 0
    and the divisor [sqrt(ax^2 + ay^2)] of [ang] is 0. *)
Lemma ang_divides_by_zero_off_axis :
  exists ax : Q,
    ema64 (round64 (pow2 (-600))) (Finite 0) eta64 = Finite ax /\
    ~ (ax == 0)%Q /\
    ema64 (round64 0) (Finite 0) eta64 = Finite 0 /\
    ang_divisor_zero64 (Finite ax) (Finite 0) = true.
Proof.
  eexists. split; [vm_compute; reflexivity|].
  split; [intro Hc; vm_compute in Hc; discriminate|].
  split; vm_compute; reflexivity.
Qed.

(** C10 (as amended): [ang] divides by [sqrt(ax^2 + ay^2)] without a guard.
    On every stream whose samples all have [ax = 0] and [ay = 0] (there are
    such streams) each call of [ang] in the loop gets a smoothed acceleration
    with [ax = ay = 0], the divisor is 0 and the division does not return a
    finite quotient: the angle is 90, -90 or NaN with the sign of the smoothed
    z axis.  In float64 the divisor is 0 exactly when the squares of both
    axes are at most [2^-1075] and so round to 0, which non-zero axes below
    about [1.5e-162] do.  Every angle that a run shifts into the window lies
    between -90 and 90, the two bounds included. *)
Theorem ang_division_unguarded :
  (forall stim i,
     (forall s, In s stim -> s_ax s = 0 /\ s_ay s = 0) ->
     (i < length stim)%nat ->
     exists a2,
       accel_avgs (locals_after stim (S i)) = (0, 0, a2) /\
       hd NaN (arm_angle_hist (locals_after stim (S i))) = ang (0, 0, a2) /\
       ang_divisor (0, 0, a2) = 0 /\
       (forall q, true_divide a2 (ang_divisor (0, 0, a2)) <> Quot q) /\
       (0 < a2 -> ang (0, 0, a2) = Num 90) /\
       (a2 < 0 -> ang (0, 0, a2) = Num (-90)) /\
       (a2 = 0 -> ang (0, 0, a2) = NaN)) /\
  (exists stim, stim <> [] /\ forall s, In s stim -> s_ax s = 0 /\ s_ay s = 0) /\
  (forall ax ay : Q,
     ang_divisor_zero64 (Finite ax) (Finite ay) = true <->
     (ax * ax <= pow2 (-1075))%Q /\ (ay * ay <= pow2 (-1075))%Q) /\
  (forall stim i a,
     (i < length stim)%nat ->
     hd NaN (arm_angle_hist (locals_after stim (S i))) = Num a ->
     -90 <= a <= 90).
Proof.
  split; [|split; [|split]].
  - intros stim i Hz Hi.
    destruct (smoothed_stays_vertical stim (S i) Hz ltac:(lia)) as [a2 E].
    exists a2. split; [exact E|]. split; [|split; [|split]].
    + rewrite <- E. apply ang_called_on_smoothed. exact Hi.
    + apply ang_divisor_zero. auto.
    + apply ang_zero_divisor.
    + apply ang_vertical.
  - exists [no_sample]. split; [discriminate|].
    intros s [<-|[]]. split; reflexivity.
  - exact ang_divisor_zero64_iff.
  - intros stim i a Hi Ha. rewrite (ang_called_on_smoothed stim i Hi) in Ha.
    destruct (accel_avgs (locals_after stim (S i))) as [[a0 a1] a2].
    exact (proj1 (ang_closed_range a0 a1 a2 a Ha)).
Qed.
End ClassifierProperties.

(* ================================================================== *)
(** * Further properties of the classifier and of the script *)
(* ================================================================== *)

Section ClassifierCoverage.
Local Open Scope R_scope.

Lemma Num_inj (x y : R) : Num x = Num y -> x = y.
Proof. intro H. injection H as H. exact H. Qed.

(** The smoothed acceleration after one more call. *)
Lemma accel_avgs_S (stim : list sample) (n : nat) :
  (n < length stim)%nat ->
  accel_avgs (locals_after stim (S n)) =
  ema_vec (s_accel (nth n stim no_sample)) (accel_avgs (locals_after stim n)) eta.
Proof.
  intro Hn. rewrite (locals_after_S stim n no_sample Hn).
  pose proof (loop_body_fields (nth n stim no_sample) n (locals_after stim n)) as HF.
  cbv zeta in HF. destruct HF as (E & _). exact E.
Qed.

(** [ang] reads its argument through the divisor and the z axis only. *)
Lemma ang_by_divisor (a b : vec3) :
  ang_divisor a = ang_divisor b -> snd a = snd b -> ang a = ang b.
Proof.
  destruct a as [[a0 a1] a2], b as [[b0 b1] b2]. cbn [snd]. intros Hd ->.
  unfold ang. rewrite Hd. reflexivity.
Qed.

(** [ang] does not see how the sensor sits in its plane. *)
Lemma ang_remount (swap flip_x flip_y : bool) (a : vec3) :
  ang (remount swap flip_x flip_y a) = ang a.
Proof.
  destruct a as [[a0 a1] a2]. apply ang_by_divisor; [|reflexivity].
  unfold remount, ang_divisor. f_equal.
  destruct swap, flip_x, flip_y; ring.
Qed.

Lemma ema_vec_remount (swap flip_x flip_y : bool) (x y : vec3) :
  ema_vec (remount swap flip_x flip_y x) (remount swap flip_x flip_y y) eta =
  remount swap flip_x flip_y (ema_vec x y eta).
Proof.
  destruct x as [[x0 x1] x2], y as [[y0 y1] y2].
  unfold remount, ema_vec, ema.
  destruct swap, flip_x, flip_y; repeat (apply pair_equal_spec; split); ring.
Qed.


(** X1: [ang] never returns a number outside [-90, 90], and the number has
    the sign of the z axis; it returns NaN only when the z axis is 0, and
    does so on the zero vector; on the z axis ([ax = ay = 0], where numpy
    divides by zero) it returns 90 or -90; it does not depend on the signs
    of the x and y axes nor on their order. *)
Theorem ang_range (a0 a1 a2 : R) :
  (forall a, ang (a0, a1, a2) = Num a ->
     -90 <= a <= 90 /\ (0 <= a2 -> 0 <= a) /\ (a2 <= 0 -> a <= 0)) /\
  (ang (a0, a1, a2) = NaN -> a2 = 0) /\
  ang (0, 0, 0) = NaN /\
  (0 < a2 -> ang (0, 0, a2) = Num 90) /\
  (a2 < 0 -> ang (0, 0, a2) = Num (-90)) /\
  ang (- a0, a1, a2) = ang (a0, a1, a2) /\
  ang (a0, - a1, a2) = ang (a0, a1, a2) /\
  ang (a1, a0, a2) = ang (a0, a1, a2).
Proof.
  split; [intros a Ha; exact (ang_closed_range a0 a1 a2 a Ha)|].
  split; [apply ang_nan|].
  split; [apply (ang_vertical 0); reflexivity|].
  split; [apply ang_vertical|]. split; [apply ang_vertical|].
  split; [exact (ang_remount false true false (a0, a1, a2))|].
  split; [exact (ang_remount false false true (a0, a1, a2))|].
  exact (ang_remount true false false (a0, a1, a2)).
Qed.

(** X2: one step of the moving "median" [emm] with a positive [eta] moves
    [y] by at most [eta]; when [y] is at least [eta] away from the input [x]
    the distance to [x] shrinks by exactly [eta], otherwise the result stays
    within [eta] of [x]. *)
Theorem emm_step (x y step : R) :
  0 < step ->
  Rabs (emm x y step - y) <= step /\
  (step <= Rabs (x - y) -> Rabs (x - emm x y step) = Rabs (x - y) - step) /\
  (Rabs (x - y) < step -> Rabs (x - emm x y step) < step).
Proof.
  intro Hs. unfold emm, sign.
  destruct (Rlt_dec 0 (x - y)) as [Hp|Hp]; [|destruct (Rlt_dec (x - y) 0) as [Hn|Hn]].
  - replace (y + step * 1 - y) with step by ring.
    replace (x - (y + step * 1)) with (x - y - step) by ring.
    rewrite (Rabs_right step) by lra. rewrite (Rabs_right (x - y)) by lra.
    split; [lra|]. split; intro H.
    + rewrite Rabs_right by lra. reflexivity.
    + rewrite Rabs_left by lra. lra.
  - replace (y + step * -1 - y) with (- step) by ring.
    replace (x - (y + step * -1)) with (x - y + step) by ring.
    rewrite Rabs_Ropp, (Rabs_right step) by lra. rewrite (Rabs_left (x - y)) by lra.
    split; [lra|]. split; intro H.
    + rewrite Rabs_left1 by lra. lra.
    + rewrite Rabs_right by lra. lra.
  - assert (E : x - y = 0) by lra.
    replace (y + step * 0 - y) with 0 by ring.
    replace (x - (y + step * 0)) with 0 by lra. rewrite E, Rabs_R0.
    split; [lra|]. split; intro H; lra.
Qed.

Lemma emm_step_witness : Rabs (emm 1 0 (1 / 2) - 0) <= 1 / 2.
Proof. apply (emm_step 1 0 (1 / 2)). lra. Defined.

(** X3: on a stimulus whose samples all carry the same acceleration [a] the
    smoothed acceleration after [n] calls is [(1 - (1 - eta)^n) * a] on
    every axis: it starts at 0 and its distance to [a] shrinks by the factor
    [1 - eta] with every sample. *)
Theorem smoothing_constant_input (stim : list sample) (a : vec3) (n : nat) :
  (forall s, In s stim -> s_accel s = a) ->
  (n <= length stim)%nat ->
  accel_avgs (locals_after stim n) = scale_vec (1 - (1 - eta) ^ n) a.
Proof.
  intros Hc. destruct a as [[a0 a1] a2]. induction n as [|n IH]; intro Hn.
  - rewrite locals_after_0. unfold init_locals, scale_vec. cbn [accel_avgs pow].
    f_equal; [f_equal|]; ring.
  - rewrite accel_avgs_S by lia. rewrite IH by lia.
    rewrite (Hc (nth n stim no_sample)) by (apply nth_In; lia).
    unfold scale_vec, ema_vec, ema. cbn [pow].
    f_equal; [f_equal|]; ring.
Qed.

Lemma smoothing_constant_input_witness :
  accel_avgs (locals_after still_upright 51) = scale_vec (1 - (1 - eta) ^ 51) (0, 0, 1).
Proof.
  apply smoothing_constant_input.
  - intros s Hs. apply repeat_spec in Hs. rewrite Hs. reflexivity.
  - unfold still_upright. rewrite repeat_length. lia.
Defined.

(** X4: the smoothed acceleration never leaves the range of the input: when
    every axis of every sample lies in [[lo, hi]] (an interval that holds the
    initial 0), so does every axis of the smoothed acceleration after any
    number of calls. *)
Theorem smoothing_bounded (stim : list sample) (lo hi : R) (n : nat) :
  lo <= 0 <= hi ->
  (forall s, In s stim ->
     lo <= s_ax s <= hi /\ lo <= s_ay s <= hi /\ lo <= s_az s <= hi) ->
  (n <= length stim)%nat ->
  forall b0 b1 b2, accel_avgs (locals_after stim n) = (b0, b1, b2) ->
    lo <= b0 <= hi /\ lo <= b1 <= hi /\ lo <= b2 <= hi.
Proof.
  intros H0 Hin. induction n as [|n IH]; intros Hn b0 b1 b2 E.
  - rewrite locals_after_0 in E. unfold init_locals in E. cbn [accel_avgs] in E.
    injection E as <- <- <-. lra.
  - rewrite accel_avgs_S in E by lia.
    destruct (accel_avgs (locals_after stim n)) as [[c0 c1] c2] eqn:Ec.
    destruct (IH ltac:(lia) c0 c1 c2 eq_refl) as (H0' & H1' & H2').
    destruct (Hin (nth n stim no_sample)) as (Hx & Hy & Hz); [apply nth_In; lia|].
    unfold ema_vec, s_accel, ema, eta in E.
    apply pair_equal_spec in E. destruct E as [E E2].
    apply pair_equal_spec in E. destruct E as [E0 E1].
    subst b0 b1 b2. repeat split; nra.
Qed.

Lemma smoothing_bounded_witness :
  exists b0 b1 b2,
    accel_avgs (locals_after still_upright 51) = (b0, b1, b2) /\ 0 <= b2 <= 1.
Proof.
  destruct (accel_avgs (locals_after still_upright 51)) as [[b0 b1] b2] eqn:E.
  exists b0, b1, b2. split; [reflexivity|].
  apply (smoothing_bounded still_upright 0 1 51 ltac:(lra)) with (b0 := b0) (b1 := b1).
  - intros s Hs. apply repeat_spec in Hs. rewrite Hs. cbn [upright s_ax s_ay s_az]. lra.
  - unfold still_upright. rewrite repeat_length. lia.
  - exact E.
Defined.

Section Equivariance.
Variable T : vec3 -> vec3.
Hypothesis T_ema : forall x y, ema_vec (T x) (T y) eta = T (ema_vec x y eta).
Hypothesis T_ang : forall a, ang (T a) = ang a.

(** One iteration on two rows related by [T] keeps the decisions alike. *)
Lemma loop_body_same_decisions (r1 r2 : sample) (i : nat) (st1 st2 : locals) :
  s_accel r2 = T (s_accel r1) ->
  same_decisions T st1 st2 ->
  same_decisions T (loop_body r1 i st1) (loop_body r2 i st2).
Proof.
  intros Hr (Ea & Eh & Em & Ec & Er).
  pose proof (loop_body_fields r1 i st1) as H1.
  pose proof (loop_body_fields r2 i st2) as H2.
  cbv zeta in H1, H2.
  destruct H1 as (A1 & B1 & C1 & D1 & R1 & _).
  destruct H2 as (A2 & B2 & C2 & D2 & R2 & _).
  assert (Eavg : ema_vec (s_accel r2) (accel_avgs st2) eta =
                 T (ema_vec (s_accel r1) (accel_avgs st1) eta))
    by (rewrite Hr, Ea; apply T_ema).
  unfold same_decisions.
  rewrite A1, A2, B1, B2, C1, C2, D1, D2, R1, R2.
  rewrite Eavg, T_ang, Eh, Em, Ec.
  split; [reflexivity|]. repeat (split; [reflexivity|]).
  rewrite !map_app, Er. f_equal.
  destruct (i mod window_len =? 0)%nat; [|reflexivity].
  destruct (arm_angle_mean_d st1); reflexivity.
Qed.

Lemma for_loop_same_decisions (rows1 rows2 : list sample) (i : nat) (st1 st2 : locals) :
  Forall2 (fun r1 r2 => s_accel r2 = T (s_accel r1)) rows1 rows2 ->
  same_decisions T st1 st2 ->
  same_decisions T (for_loop rows1 i st1) (for_loop rows2 i st2).
Proof.
  intro HF. revert i st1 st2.
  induction HF as [|r1 r2 rows1 rows2 Hr _ IH]; intros i st1 st2 Hs; [exact Hs|].
  cbn [for_loop]. apply IH. apply loop_body_same_decisions; assumption.
Qed.

(** Two stimuli whose accelerations are related by [T], sample by sample,
    give events with the same states. *)
Lemma states_equivariant (stim1 stim2 : list sample) :
  T (0, 0, 0) = (0, 0, 0) ->
  Forall2 (fun r1 r2 => s_accel r2 = T (s_accel r1)) stim1 stim2 ->
  map ev_state (fst (vanhees2015_modified stim2)) =
  map ev_state (fst (vanhees2015_modified stim1)).
Proof.
  intros T0 HF. unfold vanhees2015_modified. cbn [fst].
  apply for_loop_same_decisions; [exact HF|].
  unfold same_decisions, init_locals. cbn [accel_avgs arm_angle_hist
    arm_angle_mean_d arm_angle_change_hist ret].
  rewrite T0. repeat split; reflexivity.
Qed.

End Equivariance.

Lemma map_accel_Forall2 (T : vec3 -> vec3) (stim : list sample) :
  Forall2 (fun r1 r2 => s_accel r2 = T (s_accel r1)) stim (map (map_accel T) stim).
Proof.
  induction stim as [|s stim IH]; constructor; [|exact IH].
  unfold map_accel. destruct (T (s_accel s)) as [[a0 a1] a2]. reflexivity.
Qed.

Lemma map_tl_comm {A B : Type} (f : A -> B) (l : list A) :
  map f (tl l) = tl (map f l).
Proof. destruct l; reflexivity. Qed.

(** Events are determined by their times and states. *)
Lemma events_eq (l1 l2 : list event) :
  map ev_t l1 = map ev_t l2 -> map ev_state l1 = map ev_state l2 -> l1 = l2.
Proof.
  revert l2. induction l1 as [|[t1 s1] l1 IH]; intros [|[t2 s2] l2] Ht Hs;
    try discriminate; [reflexivity|].
  cbn [map ev_t ev_state] in Ht, Hs. injection Ht as -> Ht. injection Hs as -> Hs.
  f_equal. apply IH; assumption.
Qed.

(** A stimulus with other accelerations at the same times gives events at
    the same times. *)
Lemma event_times_map_accel (T : vec3 -> vec3) (stim : list sample) :
  map ev_t (fst (vanhees2015_modified (map (map_accel T) stim))) =
  map ev_t (fst (vanhees2015_modified stim)).
Proof.
  rewrite !event_times, length_map. f_equal. apply map_ext. intro k.
  change no_sample with (map_accel (fun _ => (0, 0, 0)) no_sample) at 1.
  destruct (Nat.lt_ge_cases (window_len * k) (length stim)) as [Hlt|Hge].
  - rewrite (nth_indep _ _ (map_accel T no_sample)) by (rewrite length_map; exact Hlt).
    rewrite map_nth. unfold map_accel.
    destruct (T (s_accel (nth (window_len * k) stim no_sample))) as [[a0 a1] a2].
    reflexivity.
  - rewrite !nth_overflow by (rewrite ?length_map; exact Hge). reflexivity.
Qed.

(** With the same accelerations at the same times, and nothing said about
    the label column, the events are the same. *)
Lemma events_equivariant (T : vec3 -> vec3) (stim : list sample) :
  (forall x y, ema_vec (T x) (T y) eta = T (ema_vec x y eta)) ->
  (forall a, ang (T a) = ang a) ->
  T (0, 0, 0) = (0, 0, 0) ->
  fst (vanhees2015_modified (map (map_accel T) stim)) = fst (vanhees2015_modified stim).
Proof.
  intros He Ha T0. apply events_eq.
  - apply event_times_map_accel.
  - apply (states_equivariant T He Ha _ _ T0). apply map_accel_Forall2.
Qed.

(** ** What [dbg] does not touch *)

Lemma loop_body_same_but_dbg (row : sample) (i : nat) (st1 st2 : locals) :
  same_but_dbg st1 st2 -> same_but_dbg (loop_body row i st1) (loop_body row i st2).
Proof.
  intros (Ea & Eh & Em & Ec & Er).
  pose proof (loop_body_fields row i st1) as H1.
  pose proof (loop_body_fields row i st2) as H2.
  cbv zeta in H1, H2.
  destruct H1 as (A1 & B1 & C1 & D1 & R1 & _).
  destruct H2 as (A2 & B2 & C2 & D2 & R2 & _).
  unfold same_but_dbg.
  rewrite A1, A2, B1, B2, C1, C2, D1, D2, R1, R2, Ea, Eh, Em, Ec, Er.
  repeat split; reflexivity.
Qed.

Lemma for_loop_same_but_dbg (rows : list sample) (i : nat) (st1 st2 : locals) :
  same_but_dbg st1 st2 -> same_but_dbg (for_loop rows i st1) (for_loop rows i st2).
Proof.
  revert i st1 st2. induction rows as [|row rows IH]; intros i st1 st2 Hs; [exact Hs|].
  cbn [for_loop]. apply IH. apply loop_body_same_but_dbg. exact Hs.
Qed.

(** The loop only appends to [ret]. *)
Lemma for_loop_ret_grows (rows : list sample) (i : nat) (st : locals) :
  exists later, ret (for_loop rows i st) = ret st ++ later.
Proof.
  revert i st. induction rows as [|row rows IH]; intros i st.
  - exists []. cbn [for_loop]. rewrite app_nil_r. reflexivity.
  - cbn [for_loop]. destruct (IH (S i) (loop_body row i st)) as [later E].
    pose proof (loop_body_fields row i st) as HF. cbv zeta in HF.
    destruct HF as (_ & _ & _ & _ & Eret & _).
    rewrite E, Eret, <- app_assoc. eexists. reflexivity.
Qed.

(** The loop keeps the sizes of its three arrays. *)
Lemma loop_body_sizes (row : sample) (i : nat) (st : locals) :
  length (arm_angle_hist (loop_body row i st)) = length (arm_angle_hist st) /\
  length (arm_angle_change_hist (loop_body row i st)) =
    length (arm_angle_change_hist st) /\
  length (dbg (loop_body row i st)) = length (dbg st).
Proof.
  pose proof (loop_body_fields row i st) as HF. cbv zeta in HF.
  destruct HF as (_ & Eh & _ & Ec & _ & F & Ed & _).
  rewrite Eh, Ec, Ed, shift_in_length, upd_row_length.
  split; [reflexivity|]. split; [|reflexivity].
  destruct (i mod window_len =? 0)%nat; [|reflexivity].
  destruct (arm_angle_mean_d st); [apply shift_in_length|reflexivity].
Qed.

(** X6: the classification does not depend on how the sensor sits in its
    plane: with the x and y axes of every sample swapped, or mirrored, or
    both (the quarter turns about z among them), the events are the same. *)
Theorem classification_mounting_independent
    (swap flip_x flip_y : bool) (stim : list sample) :
  fst (vanhees2015_modified (map (map_accel (remount swap flip_x flip_y)) stim)) =
  fst (vanhees2015_modified stim).
Proof.
  apply events_equivariant.
  - apply ema_vec_remount.
  - apply ang_remount.
  - unfold remount. destruct swap, flip_x, flip_y;
      repeat (apply pair_equal_spec; split); ring.
Qed.
(** X7: the states of the events depend on the accelerations only: two
    stimuli with the same accelerations, whatever their time and label
    columns, give the same states; the label column is never read. *)
Theorem classification_reads_acceleration_only (stim1 stim2 : list sample) :
  map s_accel stim1 = map s_accel stim2 ->
  emitted_states stim1 = emitted_states stim2.
Proof.
  intro H. unfold emitted_states. rewrite !map_tl_comm. f_equal. symmetry.
  apply (states_equivariant (fun a => a)).
  - reflexivity.
  - reflexivity.
  - reflexivity.
  - clear -H. revert stim1 H.
    induction stim2 as [|s2 stim2 IH]; intros [|s1 stim1] H; try discriminate;
      constructor.
    + apply (f_equal (hd (0, 0, 0))) in H. cbn [map hd] in H. symmetry. exact H.
    + apply IH. apply (f_equal (@tl vec3)) in H. exact H.
Qed.

Lemma classification_reads_acceleration_only_witness :
  emitted_states still_upright =
  emitted_states (map (fun s => mk_sample (s_t s + 1) (s_ax s) (s_ay s) (s_az s) 5)
                      still_upright).
Proof.
  apply classification_reads_acceleration_only.
  rewrite map_map. unfold still_upright. rewrite !map_repeat. reflexivity.
Defined.

(** X8: the classifier works online and never revises an event: the events
    in [ret] after [n] iterations are exactly what the function returns for
    the first [n] samples alone, and the events returned for the whole
    stimulus start with them. *)
Theorem events_online (stim : list sample) (n : nat) :
  ret (locals_after stim n) = fst (vanhees2015_modified (firstn n stim)) /\
  exists later,
    fst (vanhees2015_modified stim) =
    fst (vanhees2015_modified (firstn n stim)) ++ later.
Proof.
  assert (E : ret (locals_after stim n) = fst (vanhees2015_modified (firstn n stim))).
  { unfold locals_after, vanhees2015_modified. cbn [fst].
    apply (for_loop_same_but_dbg (firstn n stim) 0
             (init_locals (length (firstn n stim))) (init_locals (length stim))).
    unfold same_but_dbg, init_locals. cbn. repeat split; reflexivity. }
  split; [exact E|]. rewrite <- E.
  unfold vanhees2015_modified, locals_after. cbn [fst].
  assert (Hsplit : for_loop stim 0 (init_locals (length stim)) =
                   for_loop (skipn n stim) (0 + length (firstn n stim))
                     (for_loop (firstn n stim) 0 (init_locals (length stim))))
    by (rewrite <- for_loop_app, firstn_skipn; reflexivity).
  rewrite Hsplit. apply for_loop_ret_grows.
Qed.

(** X9: the loop keeps its memory bounded: after any number of iterations
    on any stimulus the angle window has [fs * seconds_per_update = 50]
    slots and the history of changes [classification_hist_size = 60], and
    [dbg] has one row per sample. *)
Theorem buffers_fixed_size (stim : list sample) (n : nat) :
  length (arm_angle_hist (locals_after stim n)) = (fs * seconds_per_update)%nat /\
  length (arm_angle_change_hist (locals_after stim n)) = classification_hist_size /\
  length (dbg (locals_after stim n)) = length stim.
Proof.
  unfold locals_after.
  assert (H : forall rows i st,
            length (arm_angle_hist (for_loop rows i st)) = length (arm_angle_hist st) /\
            length (arm_angle_change_hist (for_loop rows i st)) =
              length (arm_angle_change_hist st) /\
            length (dbg (for_loop rows i st)) = length (dbg st)).
  { induction rows as [|row rows IH]; intros i st; [repeat split; reflexivity|].
    cbn [for_loop]. destruct (IH (S i) (loop_body row i st)) as (H1 & H2 & H3).
    destruct (loop_body_sizes row i st) as (L1 & L2 & L3).
    rewrite H1, H2, H3, L1, L2, L3. repeat split; reflexivity. }
  destruct (H (firstn n stim) 0%nat (init_locals (length stim))) as (H1 & H2 & H3).
  rewrite H1, H2, H3. unfold init_locals. cbn [arm_angle_hist arm_angle_change_hist dbg].
  rewrite !repeat_length. repeat split; reflexivity.
Qed.

(** ** The rows of [dbg] *)

(** The row that iteration [i] writes, column by column. *)
Lemma loop_body_dbg_row (row : sample) (i : nat) (st : locals) :
  (i < length (dbg st))%nat ->
  let st' := loop_body row i st in
  let r := nth i (dbg st') nan_row in
  let old := nth i (dbg st) nan_row in
  dbg_t r = Num (s_t row) /\
  (forall a0 a1 a2, accel_avgs st' = (a0, a1, a2) ->
     dbg_avg r = (Num a0, Num a1, Num a2)) /\
  ((i mod window_len <> 0)%nat ->
     dbg_mean r = dbg_mean old /\ dbg_change r = dbg_change old) /\
  (arm_angle_mean_d st = None -> dbg_change r = dbg_change old).
Proof.
  intro Hi. cbv zeta. unfold loop_body. fold window_len.
  destruct (ema_vec (s_accel row) (accel_avgs st) eta) as [[b0 b1] b2] eqn:Eavg.
  destruct (i mod window_len =? 0)%nat eqn:Eb.
  - apply Nat.eqb_eq in Eb.
    destruct (arm_angle_mean_d st) as [d|]; cbn [dbg accel_avgs];
      rewrite upd_row_nth_same by exact Hi; cbn [dbg_t dbg_avg dbg_mean dbg_change];
      (split; [reflexivity|]);
      (split; [intros a0 a1 a2 E; injection E as <- <- <-; reflexivity|]);
      (split; [intro Hc; contradiction|]); intro Hn;
      [discriminate|reflexivity].
  - cbn [dbg accel_avgs]. rewrite upd_row_nth_same by exact Hi.
    cbn [dbg_t dbg_avg dbg_mean dbg_change].
    split; [reflexivity|].
    split; [intros a0 a1 a2 E; injection E as <- <- <-; reflexivity|].
    split; intros _; [split; reflexivity|reflexivity].
Qed.

(** The rows that no iteration has reached yet still hold NaN. *)
Lemma dbg_rows_pending (stim : list sample) (n i : nat) :
  (n <= length stim)%nat -> (n <= i)%nat ->
  nth i (dbg (locals_after stim n)) nan_row = nan_row.
Proof.
  induction n as [|n IH]; intros Hn Hi.
  - rewrite locals_after_0. unfold init_locals. cbn [dbg].
    destruct (Nat.lt_ge_cases i (length stim)) as [Hlt|Hge].
    + apply nth_repeat_lt. exact Hlt.
    + apply nth_overflow. rewrite repeat_length. exact Hge.
  - rewrite (locals_after_S stim n no_sample) by lia.
    pose proof (loop_body_fields (nth n stim no_sample) n (locals_after stim n)) as HF.
    cbv zeta in HF. destruct HF as (_ & _ & _ & _ & _ & F & Edbg & _).
    rewrite Edbg, upd_row_nth_other by lia. apply IH; lia.
Qed.

(** X10: the debugging trace has one row per sample; row [i] holds the time
    of sample [i], the smoothed acceleration after call [i] and its arm
    angle; the window-mean and change columns of a row that is not a window
    boundary, and the change column of the first row, keep the NaN the array
    was filled with. *)
Theorem dbg_trace_shape (stim : list sample) (i : nat) :
  (i < length stim)%nat ->
  let d := snd (vanhees2015_modified stim) in
  let row := nth i d nan_row in
  length d = length stim /\
  dbg_t row = Num (s_t (nth i stim no_sample)) /\
  (forall a0 a1 a2, accel_avgs (locals_after stim (S i)) = (a0, a1, a2) ->
     dbg_avg row = (Num a0, Num a1, Num a2)) /\
  dbg_angle row = ang (accel_avgs (locals_after stim (S i))) /\
  ((i mod window_len <> 0)%nat -> dbg_mean row = NaN /\ dbg_change row = NaN) /\
  (i = 0%nat -> dbg_change row = NaN).
Proof.
  intro Hi. cbv zeta.
  pose proof (logged_angle_is_ang stim i Hi) as Hang.
  rewrite locals_after_all in *. cbn [snd] in *.
  pose proof (trace_inv_after stim (length stim) (Nat.le_refl _)) as Inv.
  pose proof (trace_inv_after stim i ltac:(lia)) as Invi.
  split; [exact (inv_dbg_len _ _ _ Inv)|].
  rewrite (dbg_row_stable stim i (length stim)) in * by lia.
  rewrite (locals_after_S stim i no_sample Hi) in *.
  assert (Hl : (i < length (dbg (locals_after stim i)))%nat)
    by (rewrite (inv_dbg_len _ _ _ Invi); exact Hi).
  pose proof (loop_body_dbg_row (nth i stim no_sample) i (locals_after stim i) Hl) as HR.
  cbv zeta in HR. destruct HR as (Ht & Ha & Hnb & Hfirst).
  rewrite (dbg_rows_pending stim i i) in Hnb, Hfirst by lia.
  split; [exact Ht|]. split; [exact Ha|]. split; [exact Hang|].
  split; [exact Hnb|].
  intros ->. apply Hfirst. rewrite (inv_mean_d _ _ _ Invi). reflexivity.
Qed.

Lemma dbg_trace_shape_witness :
  length (snd (vanhees2015_modified still_upright)) = 51%nat.
Proof.
  assert (H : (1 < length still_upright)%nat)
    by (unfold still_upright; rewrite repeat_length; lia).
  destruct (dbg_trace_shape still_upright 1 H) as (E & _).
  rewrite E. unfold still_upright. apply repeat_length.
Defined.

(** ** A run on a sensor that reports nothing *)

Lemma np_sum_NaN (h : list npfloat) : In NaN h -> np_sum h = NaN.
Proof.
  induction h as [|c h IH]; [intros []|].
  intros [->|Hin]; [reflexivity|].
  cbn [np_sum fold_right]. fold (np_sum h). rewrite (IH Hin).
  destruct c; reflexivity.
Qed.

Lemma np_mean_NaN (h : list npfloat) : In NaN h -> np_mean h = NaN.
Proof.
  intro H. unfold np_mean. rewrite (np_sum_NaN h H). destruct h; reflexivity.
Qed.

Lemma ang_zero : ang (0, 0, 0) = NaN.
Proof.
  destruct (ang_zero_divisor 0) as [_ E]. rewrite E.
  destruct (Rlt_dec 0 0) as [H|_]; [lra|reflexivity].
Qed.

Lemma silent_avgs (stim : list sample) (n : nat) :
  (forall s, In s stim -> s_accel s = (0, 0, 0)) ->
  (n <= length stim)%nat ->
  accel_avgs (locals_after stim n) = (0, 0, 0).
Proof.
  intro Hz. induction n as [|n IH]; intro Hn; [reflexivity|].
  rewrite accel_avgs_S, IH by lia.
  rewrite (Hz (nth n stim no_sample)) by (apply nth_In; lia).
  unfold ema_vec, ema. repeat (apply pair_equal_spec; split); ring.
Qed.

(** Every window mean of such a run is NaN. *)
Lemma silent_means (stim : list sample) (k : nat) :
  (forall s, In s stim -> s_accel s = (0, 0, 0)) ->
  (window_len * k < length stim)%nat ->
  dbg_mean (nth (window_len * k) (snd (vanhees2015_modified stim)) nan_row) = NaN.
Proof.
  intros Hz Hk.
  pose proof (logged_angle_is_ang stim (window_len * k) Hk) as Ha.
  rewrite silent_avgs, ang_zero in Ha by (assumption || lia).
  rewrite locals_after_all in *. cbn [snd] in *.
  pose proof (trace_inv_after stim (length stim) (Nat.le_refl _)) as Inv.
  rewrite (inv_mean _ _ _ Inv k Hk). apply np_mean_NaN.
  set (d := dbg (locals_after stim (length stim))) in *.
  assert (Hlen : length (logged_angles d (S (window_len * k))) = S (window_len * k)).
  { apply logged_angles_length. unfold d. rewrite (inv_dbg_len _ _ _ Inv). lia. }
  apply slots_In. left. exists 0%nat. pose proof window_len_pos.
  rewrite Hlen. split; [lia|]. split; [lia|].
  replace (S (window_len * k) - 1 - 0)%nat with (window_len * k)%nat by lia.
  rewrite <- Ha, <- (logged_angles_nth d (S (window_len * k))) by lia.
  apply nth_error_nth'. lia.
Qed.

(** X11: a sensor that reports the zero vector on every sample is classified
    as asleep at every window: [ang] is NaN there, so every window mean and
    every change is NaN, no comparison [change > arm_angle_threshold] holds,
    and every event after the seed has state 1. *)
Theorem silent_sensor_asleep (stim : list sample) :
  (forall s, In s stim -> s_accel s = (0, 0, 0)) ->
  (forall k, (k < length (window_changes stim))%nat ->
     nth k (window_changes stim) NaN = NaN) /\
  emitted_states stim = repeat 1%Z ((length stim - 1) / window_len).
Proof.
  intro Hz.
  assert (Hc : forall k, (k < length (window_changes stim))%nat ->
             nth k (window_changes stim) NaN = NaN).
  { intros k Hk. rewrite window_changes_nth by exact Hk.
    rewrite window_changes_length in Hk.
    assert (Hlt : (window_len * S k < length stim)%nat).
    { destruct (length stim) as [|n] eqn:El; [simpl in Hk; lia|].
      pose proof (events_after_below (S n) ltac:(lia)) as Hb.
      unfold events_after in Hb.
      assert (window_len * S k <= window_len * ((S n - 1) / window_len))%nat
        by (apply Nat.mul_le_mono_l; lia).
      lia. }
    rewrite (silent_means stim (S k) Hz Hlt). reflexivity. }
  split; [exact Hc|].
  destruct (run_states stim) as [Hlen _].
  rewrite window_changes_length in Hlen.
  apply nth_error_ext. intro k.
  destruct (Nat.lt_ge_cases k ((length stim - 1) / window_len)) as [Hk|Hk].
  - rewrite (nth_error_repeat _ Hk).
    assert (Hk' : (k < length (window_changes stim))%nat)
      by (rewrite window_changes_length; exact Hk).
    destruct (run_state_awake_iff stim k Hk') as [Hiff [H0|H1]]; [|exact H1].
    exfalso. apply Hiff in H0. destruct H0 as (j & _ & Hj & Hex).
    rewrite Hc in Hex by lia. exact Hex.
  - rewrite (proj2 (nth_error_None _ _)) by lia.
    symmetry. apply nth_error_None. rewrite repeat_length. exact Hk.
Qed.

Lemma silent_sensor_asleep_witness :
  emitted_states (repeat no_sample 101) = [1%Z; 1%Z].
Proof.
  assert (H : forall s, In s (repeat no_sample 101) -> s_accel s = (0, 0, 0)).
  { intros s Hs. apply repeat_spec in Hs. rewrite Hs. reflexivity. }
  destruct (silent_sensor_asleep (repeat no_sample 101) H) as [_ E].
  rewrite E, repeat_length. reflexivity.
Defined.

(** X12: the state of every event is 0 or 1, and event [k] (counted after the
    seed) is 1 (asleep) exactly when none of the changes of windows
    [k, k-1, ..., k-59] that exist is above the threshold.  The slots of the
    history not written yet hold 0 and count as quiet, so already the first
    event is 1 when its change is not above the threshold; a change that is
    NaN or equal to the threshold counts as quiet. *)
Theorem event_state_rule (stim : list sample) (k : nat) :
  (k < length (emitted_states stim))%nat ->
  (nth_error (emitted_states stim) k = Some 0%Z \/
   nth_error (emitted_states stim) k = Some 1%Z) /\
  (nth_error (emitted_states stim) k = Some 1%Z <->
   forall j, (j < classification_hist_size)%nat -> (j <= k)%nat ->
     ~ exceeds arm_angle_threshold (nth (k - j) (window_changes stim) NaN)) /\
  ~ exceeds arm_angle_threshold NaN /\
  ~ exceeds arm_angle_threshold (Num arm_angle_threshold).
Proof.
  intro Hk. destruct (run_states stim) as [Hlen _]. rewrite Hlen in Hk.
  destruct (run_state_awake_iff stim k Hk) as [Hiff Hcases].
  split; [exact Hcases|]. split; [|split].
  - split.
    + intros H1 j Hj Hjk Hex.
      assert (H0 : nth_error (emitted_states stim) k = Some 0%Z)
        by (apply Hiff; exists j; auto).
      congruence.
    + intro Hq. destruct Hcases as [H0|H1]; [|exact H1].
      exfalso. apply Hiff in H0. destruct H0 as (j & Hj & Hjk & Hex).
      exact (Hq j Hj Hjk Hex).
  - intros [].
  - unfold exceeds. lra.
Qed.

Lemma event_state_rule_witness :
  nth_error (emitted_states still_upright) 0 = Some 0%Z \/
  nth_error (emitted_states still_upright) 0 = Some 1%Z.
Proof.
  assert (H : (0 < length (emitted_states still_upright))%nat).
  { destruct (run_states still_upright) as [Hlen _].
    rewrite Hlen, window_changes_length. unfold still_upright.
    rewrite repeat_length. simpl. lia. }
  destruct (event_state_rule still_upright 0 H) as (E & _). exact E.
Defined.

(** X13: the two steps of the script compose: when [stimuli] raises, nothing
    is classified and the same exception comes out; when it returns [N]
    rows, the classifier returns [N] rows of [dbg] and, after the seed, one
    event for each of the rows 50, 100, ... below [N], stamped with the grid
    time of that row. *)
Theorem recording_pipeline (accel : list accel_row) (truth : list truth_row) :
  (forall e, stimuli accel truth = inl e -> classify_recording accel truth = inl e) /\
  (forall rows, stimuli accel truth = inr rows ->
     exists events d,
       classify_recording accel truth = inr (events, d) /\
       length d = length rows /\
       length events = S ((length rows - 1) / window_len) /\
       map ev_t events =
         0 :: map (fun k => Q2R (r_t (nth (window_len * k) rows (mk_stim 0 0 0 0 0))))
                  (seq 1 ((length rows - 1) / window_len))).
Proof.
  unfold classify_recording. split.
  - intros e H. rewrite H. reflexivity.
  - intros rows H. rewrite H.
    set (stim := map sample_of_row rows).
    exists (fst (vanhees2015_modified stim)), (snd (vanhees2015_modified stim)).
    split; [destruct (vanhees2015_modified stim); reflexivity|].
    assert (Hlen : length stim = length rows) by apply length_map.
    assert (Ht : map ev_t (fst (vanhees2015_modified stim)) =
                 0 :: map (fun k => Q2R (r_t (nth (window_len * k) rows (mk_stim 0 0 0 0 0))))
                          (seq 1 ((length rows - 1) / window_len))).
    { rewrite event_times, Hlen. f_equal. apply map_ext_in.
      intros k Hk. unfold stim.
      destruct (Nat.lt_ge_cases (window_len * k) (length rows)) as [Hlt|Hge].
      - rewrite (nth_indep _ no_sample (sample_of_row (mk_stim 0 0 0 0 0)))
          by (rewrite length_map; exact Hlt).
        rewrite map_nth. reflexivity.
      - apply in_seq in Hk. exfalso.
        destruct (length rows) as [|n] eqn:El.
        + simpl in Hk. lia.
        + pose proof (events_after_below (S n) ltac:(lia)) as Hb.
          unfold events_after in Hb.
          assert (window_len * k <= window_len * ((S n - 1) / window_len))%nat
            by (apply Nat.mul_le_mono_l; lia).
          lia. }
    split; [|split; [|exact Ht]].
    + rewrite locals_after_all. cbn [snd].
      rewrite (inv_dbg_len _ _ _ (trace_inv_after stim (length stim) (Nat.le_refl _))).
      exact Hlen.
    + rewrite <- (length_map ev_t), Ht. cbn [length].
      rewrite length_map, length_seq. reflexivity.
Qed.

End ClassifierCoverage.

(* ================================================================== *)
(** * Further properties of the resampler *)
(* ================================================================== *)

Section ResamplerCoverage.
Local Open Scope Q_scope.

Lemma trim_In (accel : list accel_row) (r : accel_row) :
  In r (trim accel) <-> In r accel /\ 0 <= a_t r.
Proof.
  unfold trim. rewrite filter_In, Qle_bool_iff. reflexivity.
Qed.

(** The first time of the trimmed axis is not negative. *)
Lemma t_first_nonneg (accel : list accel_row) :
  trim accel <> [] -> 0 <= t_first_of accel.
Proof.
  intro Hne. unfold t_first_of, time_axis.
  destruct (trim accel) as [|r l] eqn:E; [congruence|].
  cbn [map hd]. apply (trim_In accel r). rewrite E. left. reflexivity.
Qed.

Lemma fs_hz_pos : 0 < fs_hz.
Proof. reflexivity. Qed.

Lemma span_steps (n f : Q) :
  0 < n - 1 -> 0 < f -> (n - 1) * (n / f / (n - 1)) == n / f.
Proof.
  intros Hn Hf. field. split; intro Hc; Lqa.lra.
Qed.

(** Every point of the grid, by its index. *)
Lemma time_grid_point (accel : list accel_row) (i : nat) :
  (i < length (time_grid accel))%nat ->
  exists w,
    nth i (time_grid accel) 0 == t_first_of accel + inject_Z (Z.of_nat i) * w /\
    0 <= w /\
    (inject_Z (N_of accel) - 1) * w <= inject_Z (N_of accel) / fs_hz /\
    ((2 <= N_of accel)%Z ->
       w == inject_Z (N_of accel) / fs_hz / inject_Z (N_of accel - 1) /\ 0 < w).
Proof.
  intro Hi. pose proof (time_grid_length accel) as Hlen.
  assert (HN : (1 <= N_of accel)%Z) by lia.
  assert (Hs : 0 <= inject_Z (N_of accel) / fs_hz).
  { apply Qle_shift_div_l; [exact fs_hz_pos|]. rewrite Qmult_0_l.
    change 0 with (inject_Z 0). rewrite <- Zle_Qle. lia. }
  destruct (Z.eq_dec (N_of accel) 1) as [E1|Hne].
  - exists 0. assert (i = 0)%nat by lia. subst i.
    split; [|split; [apply Qle_refl|split; [|lia]]].
    + unfold time_grid in *. destruct (linspace _ _ _) as [e|ti] eqn:E; [simpl in Hi; lia|].
      apply linspace_inr in E. destruct E as (_ & _ & Hnth). rewrite (Hnth 0%nat Hi).
      simpl (inject_Z (Z.of_nat 0)). ring.
    + rewrite Qmult_0_r. exact Hs.
  - assert (H2 : (2 <= N_of accel)%Z) by lia.
    set (w := inject_Z (N_of accel) / fs_hz / inject_Z (N_of accel - 1)).
    assert (Hm : 0 < inject_Z (N_of accel - 1)).
    { change 0 with (inject_Z 0). rewrite <- Zlt_Qlt. lia. }
    assert (Hsp : 0 < inject_Z (N_of accel) / fs_hz).
    { apply Qlt_shift_div_l; [exact fs_hz_pos|]. rewrite Qmult_0_l.
      change 0 with (inject_Z 0). rewrite <- Zlt_Qlt. lia. }
    assert (Hw : 0 < w).
    { unfold w. apply Qlt_shift_div_l; [exact Hm|]. rewrite Qmult_0_l. exact Hsp. }
    exists w. split; [apply time_grid_nth; assumption|].
    split; [apply Qlt_le_weak; exact Hw|]. split; [|intros _; split; [reflexivity|exact Hw]].
    assert (E : (inject_Z (N_of accel) - 1) * w == inject_Z (N_of accel) / fs_hz).
    { assert (Em : inject_Z (N_of accel - 1) == inject_Z (N_of accel) - 1).
      { unfold Z.sub. rewrite inject_Z_plus. reflexivity. }
      unfold w. rewrite Em in Hm |- *. apply span_steps; [exact Hm|exact fs_hz_pos]. }
    rewrite E. apply Qle_refl.
Qed.

Lemma round64_zero (q : Q) : q == 0 -> round64 q = Finite 0.
Proof.
  intro H. unfold round64, nearest_float64.
  apply Qeq_bool_iff in H. rewrite H. reflexivity.
Qed.

(** A trimmed time axis of one sample gives [N = 0]. *)
Lemma grid_size_same (t : Q) : grid_size t t = inr 0%Z.
Proof.
  unfold grid_size, f64_sub. cbn [f64_neg f64_add].
  rewrite round64_zero by ring.
  assert (Hp : exists c, f64_div (Finite 1) (Finite fs_hz) = Finite c /\ Qeq_bool c 0 = false).
  { eexists. split; [vm_compute; reflexivity|reflexivity]. }
  destruct Hp as (c & -> & Hc).
  cbn [f64_div]. rewrite Hc. rewrite round64_zero; [reflexivity|].
  unfold Qdiv. ring.
Qed.

(** A file whose rows at non-negative times are fewer than two makes
    [stimuli] raise an [IndexError], whatever else it holds. *)
Lemma stimuli_short_axis (accel : list accel_row) (truth : list truth_row) :
  (length (trim accel) < 2)%nat -> stimuli accel truth = inl IndexError.
Proof.
  intro Hlen. rewrite stimuli_unfold.
  destruct accel as [|a0 [|a1 accel']]; [reflexivity|reflexivity|].
  set (accel := a0 :: a1 :: accel') in *.
  unfold t_first_of, t_last_of, time_axis.
  destruct (trim accel) as [|r [|r' l]]; [reflexivity| |simpl in Hlen; lia].
  cbn [map hd last]. rewrite grid_size_same. cbv zeta.
  cbn [linspace Z.ltb Z.compare Z.to_nat seq map].
  destruct truth as [|truth0 [|truth1 truth']]; reflexivity.
Qed.

Lemma trim_length_le (accel : list accel_row) :
  (length (trim accel) <= length accel)%nat.
Proof. apply filter_length_le. Qed.

(** X14: accelerometer rows recorded before the start of the test (negative
    time) never reach the output: [stimuli] gives the same result with and
    without a run of such rows, wherever it stands in the file. *)
Theorem samples_before_start_ignored
    (before early after : list accel_row) (truth : list truth_row) :
  (forall r, In r early -> a_t r < 0) ->
  stimuli (before ++ early ++ after) truth = stimuli (before ++ after) truth.
Proof.
  intro Hearly.
  assert (E : trim early = []).
  { unfold trim. induction early as [|r early IH]; [reflexivity|].
    cbn [filter]. destruct (Qle_bool 0 (a_t r)) eqn:Er.
    - exfalso. apply Qle_bool_iff in Er.
      exact (Qlt_not_le _ _ (Hearly r (or_introl eq_refl)) Er).
    - apply IH. intros r' Hr'. apply Hearly. right. exact Hr'. }
  assert (Et : trim (before ++ early ++ after) = trim (before ++ after)).
  { unfold trim in *. rewrite !filter_app, E. reflexivity. }
  destruct (Nat.lt_ge_cases (length (trim (before ++ after))) 2) as [Hshort|Hlong].
  - rewrite !stimuli_short_axis by (rewrite ?Et; exact Hshort). reflexivity.
  - pose proof (trim_length_le (before ++ after)) as H1.
    pose proof (trim_length_le (before ++ early ++ after)) as H2. rewrite Et in H2.
    assert (L1 : (2 <= length (before ++ after))%nat) by lia.
    assert (L2 : (2 <= length (before ++ early ++ after))%nat) by lia.
    rewrite !stimuli_unfold.
    unfold t_first_of, t_last_of, time_axis. rewrite Et.
    clear H1 H2 Hlong Et.
    remember (trim (before ++ after)) as tr eqn:Etr. clear Etr.
    destruct (before ++ after) as [|a0 [|a1 l1]]; [simpl in L1; lia|simpl in L1; lia|].
    destruct (before ++ early ++ after) as [|b0 [|b1 l2]];
      [simpl in L2; lia|simpl in L2; lia|].
    reflexivity.
Qed.

Lemma samples_before_start_ignored_witness :
  stimuli ([] ++ [mk_accel (-1) 5 5 5] ++ hold_accel) hold_truth =
  stimuli ([] ++ hold_accel) hold_truth.
Proof.
  apply samples_before_start_ignored.
  intros r [<-|[]]. reflexivity.
Defined.

(** Right of every sample point [np.interp] returns the last value. *)
Lemma interp_from_right (x : Q) (xp fp : list Q) :
  length xp = length fp -> (forall t, In t xp -> t <= x) ->
  interp_from x xp fp = last fp 0.
Proof.
  revert fp. induction xp as [|x0 xp IH]; intros [|y0 fp] Hlen Hle;
    try discriminate; [reflexivity|].
  destruct xp as [|x1 xp], fp as [|y1 fp]; try discriminate; [reflexivity|].
  cbn [interp_from].
  assert (H1 : Qle_bool x1 x = true)
    by (apply Qle_bool_iff; apply Hle; right; left; reflexivity).
  rewrite H1. transitivity (last (y1 :: fp) 0); [|reflexivity].
  apply (IH (y1 :: fp)).
  - simpl in *. lia.
  - intros t Ht. apply Hle. right. exact Ht.
Qed.

Lemma np_interp1_right (x : Q) (xp fp : list Q) :
  length xp = length fp -> xp <> [] -> (forall t, In t xp -> t <= x) ->
  np_interp1 x xp fp = last fp 0.
Proof.
  intros Hlen Hne Hle. unfold np_interp1.
  destruct xp as [|x0 xp]; [congruence|]. destruct fp as [|y0 fp]; [discriminate|].
  assert (H0 : Qlt_bool x x0 = false).
  { destruct (Qlt_bool x x0) eqn:E; [|reflexivity].
    apply Qlt_bool_iff in E. exfalso.
    exact (Qlt_not_le _ _ E (Hle x0 (or_introl eq_refl))). }
  rewrite H0. apply interp_from_right; assumption.
Qed.

(** X15: the grid of a successful run starts with the recording and spans
    [N / fs]: the first output time is the first trimmed time, which is not
    negative, and every output time lies between it and that time plus
    [N / fs].  [N] being a floor of a rounded quotient, the end of the grid
    can lie after the last sample; a row whose time is not before any trimmed
    time carries the acceleration of the last trimmed row ([np.interp] holds
    the last value). *)
Theorem grid_starts_with_recording
    (accel : list accel_row) (truth : list truth_row) (out : list stim_row) :
  stimuli accel truth = inr out ->
  0 <= t_first_of accel /\
  (exists row0 rows, out = row0 :: rows /\ r_t row0 == t_first_of accel) /\
  (forall row, In row out ->
     t_first_of accel <= r_t row /\
     r_t row <= t_first_of accel + inject_Z (N_of accel) / fs_hz) /\
  (forall row, In row out ->
     (forall t, In t (time_axis accel) -> t <= r_t row) ->
     exists earlier last_row,
       trim accel = earlier ++ [last_row] /\
       r_ax row = a_x last_row /\ r_ay row = a_y last_row /\ r_az row = a_z last_row).
Proof.
  intro H. destruct (stimuli_inr _ _ _ H) as (Hne & HN & _).
  destruct (stimuli_rows _ _ _ H) as (truth0 & truth' & held & _ & _ & Hlen & Hnth).
  pose proof (time_grid_length accel) as Hg.
  assert (Hrow : forall i row, nth_error out i = Some row ->
            exists w, r_t row == t_first_of accel + inject_Z (Z.of_nat i) * w /\
                      0 <= w /\
                      (inject_Z (N_of accel) - 1) * w <= inject_Z (N_of accel) / fs_hz).
  { intros i row Hi.
    assert (Hlt : (i < length out)%nat) by (apply nth_error_Some; congruence).
    pose proof (Hnth i row Hlt) as E. rewrite (nth_error_nth _ _ row Hi) in E.
    destruct (time_grid_point accel i ltac:(lia)) as (w & Ew & Hw & Hsw & _).
    exists w. rewrite E. cbn [r_t]. auto. }
  split; [apply t_first_nonneg; exact Hne|]. split; [|split].
  - destruct out as [|row0 rows]; [simpl in Hlen; lia|].
    exists row0, rows. split; [reflexivity|].
    destruct (Hrow 0%nat row0 eq_refl) as (w & E & _). rewrite E.
    simpl (inject_Z (Z.of_nat 0)). ring.
  - intros row Hin. apply In_nth_error in Hin. destruct Hin as [i Hi].
    assert (Hlt : (i < length out)%nat) by (apply nth_error_Some; congruence).
    destruct (Hrow i row Hi) as (w & E & Hw & Hsw). rewrite E.
    assert (Hi0 : 0 <= inject_Z (Z.of_nat i)).
    { change 0 with (inject_Z 0). rewrite <- Zle_Qle. lia. }
    assert (Hi1 : inject_Z (Z.of_nat i) <= inject_Z (N_of accel) - 1).
    { assert (Em : inject_Z (N_of accel) - 1 == inject_Z (N_of accel - 1)).
      { unfold Z.sub. rewrite inject_Z_plus. reflexivity. }
      rewrite Em, <- Zle_Qle. lia. }
    split; Lqa.nra.
  - intros row Hin Hafter. apply In_nth_error in Hin. destruct Hin as [i Hi].
    assert (Hlt : (i < length out)%nat) by (apply nth_error_Some; congruence).
    pose proof (Hnth i row Hlt) as E. rewrite (nth_error_nth _ _ row Hi) in E.
    destruct (exists_last Hne) as (earlier & last_row & El).
    exists earlier, last_row. split; [exact El|].
    assert (Ht : r_t row = nth i (time_grid accel) 0) by (rewrite E; reflexivity).
    rewrite Ht in Hafter.
    assert (Hax : time_axis accel <> []).
    { intro Hc. apply time_axis_nil in Hc. congruence. }
    assert (Hcol : forall f : accel_row -> Q,
              np_interp1 (nth i (time_grid accel) 0) (time_axis accel)
                         (map f (trim accel)) = f last_row).
    { intro f. rewrite np_interp1_right; [| |exact Hax|exact Hafter].
      - rewrite El, map_app. cbn [map]. apply last_last.
      - unfold time_axis. rewrite !length_map. reflexivity. }
    rewrite E. cbn [r_ax r_ay r_az]. rewrite !Hcol. auto.
Qed.

Lemma grid_starts_with_recording_witness :
  length overrun_out = 191%nat /\
  t_last_of overrun_accel < r_t (nth 190 overrun_out (mk_stim 0 0 0 0 0)) /\
  r_ax (nth 190 overrun_out (mk_stim 0 0 0 0 0)) = 1.
Proof.
  assert (E : stimuli overrun_accel early_truth = inr overrun_out)
    by (vm_compute; reflexivity).
  destruct (grid_starts_with_recording overrun_accel early_truth overrun_out E)
    as (_ & _ & _ & Hlast).
  destruct (Hlast (nth 190 overrun_out (mk_stim 0 0 0 0 0))) as (earlier & r & El & Ex & _).
  - apply nth_In. vm_compute. reflexivity.
  - intros t [<-|[<-|[]]]; vm_compute; discriminate.
  - split; [reflexivity|]. split; [vm_compute; reflexivity|].
    rewrite Ex.
    change (trim overrun_accel)
      with ([mk_accel (nearest_float64 (1131 # 100)) 0 0 1]
            ++ [mk_accel (nearest_float64 (3041 # 100)) 1 0 1]) in El.
    apply app_inj_tail in El. destruct El as [_ <-]. reflexivity.
Defined.

(** Two successive output times of a successful run. *)
Lemma out_times_step
    (accel : list accel_row) (truth : list truth_row) (out : list stim_row)
    (i : nat) (ri rj : stim_row) :
  stimuli accel truth = inr out ->
  nth_error out i = Some ri -> nth_error out (S i) = Some rj ->
  r_t rj - r_t ri == inject_Z (N_of accel) / fs_hz / inject_Z (N_of accel - 1) /\
  r_t ri < r_t rj.
Proof.
  intros H Hi Hj. destruct (stimuli_inr _ _ _ H) as (Hne & HN & _).
  destruct (stimuli_rows _ _ _ H) as (truth0 & truth' & held & _ & _ & Hlen & Hnth).
  pose proof (time_grid_length accel) as Hg.
  assert (Hlj : (S i < length out)%nat) by (apply nth_error_Some; congruence).
  pose proof (Hnth i ri ltac:(lia)) as Ei. rewrite (nth_error_nth _ _ ri Hi) in Ei.
  pose proof (Hnth (S i) rj Hlj) as Ej. rewrite (nth_error_nth _ _ rj Hj) in Ej.
  rewrite Ei, Ej. cbn [r_t].
  assert (H2 : (2 <= N_of accel)%Z) by lia.
  destruct (time_grid_point accel i ltac:(lia)) as (w & Ew & _ & _ & Hw).
  destruct (Hw H2) as [Hwv Hwp].
  rewrite (time_grid_nth accel (S i) H2 ltac:(lia)), Ew, <- Hwv.
  assert (Es : inject_Z (Z.of_nat (S i)) == inject_Z (Z.of_nat i) + 1).
  { rewrite Nat2Z.inj_succ. unfold Z.succ. rewrite inject_Z_plus. reflexivity. }
  rewrite Es. split; [ring|Lqa.nra].
Qed.

(** The output times do not decrease with the index. *)
Lemma out_times_monotone
    (accel : list accel_row) (truth : list truth_row) (out : list stim_row)
    (i j : nat) (ri rj : stim_row) :
  stimuli accel truth = inr out -> (i <= j)%nat ->
  nth_error out i = Some ri -> nth_error out j = Some rj ->
  r_t ri <= r_t rj.
Proof.
  intros H Hij Hi Hj.
  assert (Hd : exists d, (j = d + i)%nat) by (exists (j - i)%nat; lia).
  destruct Hd as [d Hd]. rewrite Hd in Hj. clear Hd Hij. revert rj Hj.
  induction d as [|d IH]; intros rj Hj.
  - cbn [Nat.add] in Hj. rewrite Hi in Hj. injection Hj as <-. apply Qle_refl.
  - cbn [Nat.add] in Hj.
    destruct (nth_error out (d + i)) as [rm|] eqn:Em.
    + apply Qle_trans with (r_t rm); [apply IH; reflexivity|].
      apply Qlt_le_weak. exact (proj2 (out_times_step _ _ _ _ _ _ H Em Hj)).
    + exfalso. apply nth_error_None in Em.
      assert (S (d + i) < length out)%nat by (apply nth_error_Some; congruence).
      lia.
Qed.

(** X16: the output times of a successful run are evenly spaced and strictly
    increasing: two successive rows are [N / fs / (N - 1)] apart, [N] being
    the number of rows. *)
Theorem grid_evenly_spaced
    (accel : list accel_row) (truth : list truth_row) (out : list stim_row) :
  stimuli accel truth = inr out ->
  Z.of_nat (length out) = N_of accel /\
  forall i ri rj, nth_error out i = Some ri -> nth_error out (S i) = Some rj ->
    r_t rj - r_t ri == inject_Z (N_of accel) / fs_hz / inject_Z (N_of accel - 1) /\
    r_t ri < r_t rj.
Proof.
  intro H. split.
  - destruct (stimuli_inr _ _ _ H) as (_ & HN & _).
    destruct (stimuli_rows _ _ _ H) as (truth0 & truth' & held & _ & _ & Hlen & _).
    lia.
  - intros i ri rj Hi Hj. exact (out_times_step _ _ _ _ _ _ H Hi Hj).
Qed.

Lemma grid_evenly_spaced_witness : Z.of_nat (length hold_out) = N_of hold_accel.
Proof.
  assert (E : stimuli hold_accel hold_truth = inr hold_out) by (vm_compute; reflexivity).
  destruct (grid_evenly_spaced hold_accel hold_truth hold_out E) as (A & _).
  exact A.
Defined.

(** X17: interpolation never overshoots: for a recording whose trimmed times
    strictly increase (the only case for which [np.interp] defines its
    result), every interpolated x, y and z value of an output row lies
    between two recorded values of the same axis, taken from rows at
    non-negative times. *)
Theorem interpolated_within_recorded
    (accel : list accel_row) (truth : list truth_row) (out : list stim_row) :
  increasing (time_axis accel) ->
  stimuli accel truth = inr out ->
  forall row, In row out ->
    (exists p q, In p (trim accel) /\ In q (trim accel) /\
                 a_x p <= r_ax row /\ r_ax row <= a_x q) /\
    (exists p q, In p (trim accel) /\ In q (trim accel) /\
                 a_y p <= r_ay row /\ r_ay row <= a_y q) /\
    (exists p q, In p (trim accel) /\ In q (trim accel) /\
                 a_z p <= r_az row /\ r_az row <= a_z q).
Proof.
  intros _ H row Hin.
  destruct (stimuli_inr _ _ _ H) as (Hne & _).
  destruct (stimuli_rows _ _ _ H) as (truth0 & truth' & held & _ & _ & _ & Hnth).
  apply In_nth_error in Hin. destruct Hin as [i Hi].
  assert (Hlt : (i < length out)%nat) by (apply nth_error_Some; congruence).
  pose proof (Hnth i row Hlt) as E. rewrite (nth_error_nth _ _ row Hi) in E.
  rewrite E. cbn [r_ax r_ay r_az].
  assert (Hcol : forall (f : accel_row -> Q) x,
            exists p q, In p (trim accel) /\ In q (trim accel) /\
                        f p <= np_interp1 x (time_axis accel) (map f (trim accel)) /\
                        np_interp1 x (time_axis accel) (map f (trim accel)) <= f q).
  { intros f x.
    destruct (np_interp1_between x (time_axis accel) (map f (trim accel)))
      as (lo & hi & Hlo & Hhi & Hb1 & Hb2).
    - unfold time_axis. rewrite !length_map. reflexivity.
    - destruct (trim accel); [congruence|discriminate].
    - apply in_map_iff in Hlo. destruct Hlo as (p & <- & Hp).
      apply in_map_iff in Hhi. destruct Hhi as (q & <- & Hq).
      exists p, q. auto. }
  split; [apply Hcol|]. split; apply Hcol.
Qed.

Lemma interpolated_within_recorded_witness :
  exists p q, In p (trim hold_accel) /\ In q (trim hold_accel) /\
              a_x p <= r_ax (nth 2 hold_out (mk_stim 0 0 0 0 0)) /\
              r_ax (nth 2 hold_out (mk_stim 0 0 0 0 0)) <= a_x q.
Proof.
  assert (E : stimuli hold_accel hold_truth = inr hold_out) by (vm_compute; reflexivity).
  assert (Hinc : increasing (time_axis hold_accel)).
  { intros i j Hij. change (length (time_axis hold_accel)) with 2%nat in Hij.
    assert (Hc : (i = 0 /\ j = 1)%nat) by lia. destruct Hc as [-> ->]. reflexivity. }
  destruct (interpolated_within_recorded hold_accel hold_truth hold_out Hinc E
              (nth 2 hold_out (mk_stim 0 0 0 0 0))) as (Hx & _).
  - apply nth_In. simpl. lia.
  - exact Hx.
Defined.

(** The label held at a time depends on which label rows come before it
    only. *)
Lemma held_label_same_rows (truth : list truth_row) (t1 t2 : Q) :
  (forall r, In r truth -> (l_t r < t1 <-> l_t r < t2)) ->
  held_label truth t1 = held_label truth t2.
Proof.
  intro H. unfold held_label. f_equal. f_equal. apply filter_ext_in.
  intros r Hin. specialize (H r Hin).
  destruct (Qlt_bool (l_t r) t1) eqn:E1, (Qlt_bool (l_t r) t2) eqn:E2; try reflexivity.
  - apply Qlt_bool_iff in E1. apply H in E1. apply Qlt_bool_iff in E1. congruence.
  - apply Qlt_bool_iff in E2. apply H in E2. apply Qlt_bool_iff in E2. congruence.
Qed.

(** The label of a row after the first, as [held_label] at its time. *)
Lemma row_label_held (accel : list accel_row) (truth : list truth_row)
    (out : list stim_row) (i : nat) (row : stim_row) :
  stimuli accel truth = inr out -> nth_error out (S i) = Some row ->
  held_label truth (r_t row) = inr (r_truth row).
Proof.
  intros H Hrow.
  destruct (stimuli_rows _ _ _ H) as (truth0 & truth' & held & _ & Eh & Hlen & Hnth).
  assert (Hlt : (S i < length out)%nat) by (apply nth_error_Some; congruence).
  pose proof (Hnth (S i) row Hlt) as E. rewrite (nth_error_nth _ _ row Hrow) in E.
  rewrite E. cbn [r_t r_truth nth].
  destruct (hold_loop_inr _ _ _ Eh) as [_ Hheld].
  pose proof (time_grid_length accel) as Hg.
  assert (Hi' : (i < length (tl (time_grid accel)))%nat)
    by (destruct (time_grid accel); simpl in *; lia).
  rewrite <- (Hheld i Hi'). f_equal.
  destruct (time_grid accel); [destruct i; reflexivity|reflexivity].
Qed.

(** X18: the held label changes only where the time of a label row is
    crossed: two output rows after the first carry the same label when no
    label row has its time at or after the time of the earlier row and before
    the time of the later one. *)
Theorem label_constant_between_label_times
    (accel : list accel_row) (truth : list truth_row) (out : list stim_row)
    (i j : nat) (ri rj : stim_row) :
  stimuli accel truth = inr out ->
  (1 <= i <= j)%nat ->
  nth_error out i = Some ri -> nth_error out j = Some rj ->
  (forall r, In r truth -> ~ (r_t ri <= l_t r /\ l_t r < r_t rj)) ->
  r_truth ri = r_truth rj.
Proof.
  intros H Hij Hi Hj Hnone.
  destruct i as [|i]; [lia|]. destruct j as [|j]; [lia|].
  pose proof (row_label_held _ _ _ _ _ H Hi) as Ei.
  pose proof (row_label_held _ _ _ _ _ H Hj) as Ej.
  assert (Hle : r_t ri <= r_t rj)
    by (apply (out_times_monotone _ _ _ (S i) (S j) _ _ H); (lia || assumption)).
  assert (E : held_label truth (r_t ri) = held_label truth (r_t rj)).
  { apply held_label_same_rows. intros r Hin. split; intro Hlt.
    - apply Qlt_le_trans with (r_t ri); assumption.
    - destruct (Qlt_le_dec (l_t r) (r_t ri)) as [Hc|Hc]; [exact Hc|].
      exfalso. exact (Hnone r Hin (conj Hc Hlt)). }
  rewrite Ei, Ej in E. injection E as E. exact E.
Qed.

Lemma label_constant_between_label_times_witness :
  r_truth (nth 1 hold_out (mk_stim 0 0 0 0 0)) =
  r_truth (nth 2 hold_out (mk_stim 0 0 0 0 0)).
Proof.
  assert (E : stimuli hold_accel hold_truth = inr hold_out) by (vm_compute; reflexivity).
  apply (label_constant_between_label_times hold_accel hold_truth hold_out 1 2 _ _ E).
  - lia.
  - reflexivity.
  - reflexivity.
  - intros r [<-|[<-|[]]] [Ha Hb]; vm_compute in Ha, Hb; [apply Ha|discriminate Hb];
      reflexivity.
Defined.

(** X19: [truth_binary] has one value per row; each value is at most 1, is
    the label itself when the label is at most 1, and for a label that is a
    whole number [n] it is 0 when [n = 0] and 1 otherwise. *)
Theorem truth_binary_values (stim : list stim_row) :
  length (truth_binary stim) = length stim /\
  forall i row, nth_error stim i = Some row ->
    exists v,
      nth_error (truth_binary stim) i = Some v /\
      v <= 1 /\
      (r_truth row <= 1 -> v = r_truth row) /\
      (forall n : nat, r_truth row == inject_Z (Z.of_nat n) ->
         v == if (n =? 0)%nat then 0 else 1).
Proof.
  unfold truth_binary. split; [apply length_map|].
  intros i row Hrow. rewrite nth_error_map, Hrow. cbn [option_map].
  eexists. split; [reflexivity|].
  destruct (Qlt_bool 1 (r_truth row)) eqn:E.
  - apply Qlt_bool_iff in E. split; [apply Qle_refl|]. split.
    + intro Hle. exfalso. Lqa.lra.
    + intros n Hn. destruct n as [|n]; [|reflexivity].
      exfalso. rewrite Hn in E. vm_compute in E. discriminate.
  - assert (Hle : r_truth row <= 1).
    { destruct (Qlt_le_dec 1 (r_truth row)) as [Hc|Hc]; [|exact Hc].
      apply Qlt_bool_iff in Hc. congruence. }
    split; [exact Hle|]. split; [reflexivity|].
    intros n Hn. destruct n as [|[|n]]; cbn [Nat.eqb]; [exact Hn|exact Hn|].
    exfalso. rewrite Hn in Hle. rewrite <- (Zle_Qle _ 1) in Hle. lia.
Qed.

End ResamplerCoverage.
